(** * borealis: the Box container and the Threading scheduler

    A shallow embedding of [library/lib/core/box.cpp] (child management,
    focus resolution, attribute forwarding) and of the task scheduler
    ([Threading::performSyncTasks] and its companions), with the properties
    their specification states about them. *)

From Stdlib Require Import ZArith Lia Bool.
From stdpp Require Import base option list gmap strings.

Local Open Scope Z_scope.

Set Warnings "-register-all,-clear-no-such-hyp".

(** ** Machine integers *)

(** [size_t] on the supported targets is a 64-bit unsigned integer: values
    live in [0, 2^64) and arithmetic wraps around. *)
Definition SIZE_WIDTH : Z := 64.

Definition wrap64 (z : Z) : Z := z mod 2 ^ SIZE_WIDTH.

(** [(size_t)-1], what [size_t offset = -1] stores. *)
Definition SIZE_MAX : Z := wrap64 (-1).

Definition is_size_t (z : Z) : Prop := 0 <= z < 2 ^ SIZE_WIDTH.

(** [int] is a 32-bit signed integer. *)
Definition is_int (z : Z) : Prop := - 2 ^ 31 <= z < 2 ^ 31.

(** ** The view tree *)

(** A view object is identified by its address. *)
Definition ViewId : Type := nat.
Bind Scope nat_scope with ViewId.

Inductive Axis : Type := ROW | COLUMN.

Inductive FocusDirection : Type := UP | DOWN | LEFT | RIGHT.

(** The members of [View] that [Box] reads and writes.  [parentUserData] is
    the [void*] slot a parent Box uses for the child's cached index: [None]
    is the null pointer, [Some i] a pointer to a heap cell holding [i]. *)
Record ViewBase : Type := mkViewBase {
  self : ViewId;
  focusable : bool;
  detached : bool;
  parent : option ViewId;
  parentUserData : option Z;
}.

(** The members of [Box].  [ygChildren] is the child list of the Box's own
    layout node, [layoutDirty] what [invalidate()] raises, and
    [forwardedAttributes] maps a name to (target attribute name, target). *)
Record BoxData (V : Type) : Type := mkBox {
  bview : ViewBase;
  axis : Axis;
  children : list V;
  ygChildren : list ViewId;
  lastFocusedView : option V;
  defaultFocusedIndex : Z;
  layoutDirty : bool;
  forwardedAttributes : gmap string (string * ViewId);
}.

Arguments mkBox {V}.
Arguments bview {V}.
Arguments axis {V}.
Arguments children {V}.
Arguments ygChildren {V}.
Arguments lastFocusedView {V}.
Arguments defaultFocusedIndex {V}.
Arguments layoutDirty {V}.
Arguments forwardedAttributes {V}.

(** A view is a leaf ([dynamic_cast<Box*>] fails) or a Box.  A pointer to a
    view is modelled by the view it points to; [self] keeps its identity.
    What a Box reaches through [children] and [lastFocusedView] is
    therefore a finite tree: a pointer back to an ancestor, on which the
    recursive calls of the code would not end, has no counterpart. *)
Inductive View : Type :=
| Leaf (v : ViewBase)
| BoxV (b : BoxData View).

Definition Box : Type := BoxData View.

Definition baseOf (v : View) : ViewBase :=
  match v with
  | Leaf b => b
  | BoxV b => bview b
  end.

Definition viewId (v : View) : ViewId := self (baseOf v).
Definition isFocusable (v : View) : bool := focusable (baseOf v).
Definition isDetached (v : View) : bool := detached (baseOf v).
Definition getParentUserData (v : View) : option Z := parentUserData (baseOf v).

(** The layout node of a view is named after the view that owns it. *)
Definition getYGNode (v : View) : ViewId := viewId v.

Definition withBase (f : ViewBase -> ViewBase) (v : View) : View :=
  match v with
  | Leaf b => Leaf (f b)
  | BoxV b =>
      BoxV (mkBox (f (bview b)) (axis b) (children b) (ygChildren b)
                  (lastFocusedView b) (defaultFocusedIndex b) (layoutDirty b)
                  (forwardedAttributes b))
  end.

(** Modelled from the spec: [View::setParent(parent, userdata)] is not part
    of the sources at hand; it stores the parent back-reference and the
    index cache. *)
Definition setParent (p : option ViewId) (userdata : option Z) (v : View) : View :=
  withBase (fun b => mkViewBase (self b) (focusable b) (detached b) p userdata) v.

(** The loop body [if (index) ++*index] on a child's index cache. *)
Definition bumpIndex (v : View) : View :=
  match getParentUserData v with
  | Some i =>
      withBase (fun b => mkViewBase (self b) (focusable b) (detached b)
                                    (parent b) (Some (wrap64 (i + 1)))) v
  | None => v
  end.

(** ** Results and effects of the child-management operations *)

(** What [fatal(...)] reports; it does not return. *)
Inductive FatalError : Type :=
| CannotInsertView (size position : Z)
| NotAValidAttribute (attributeName targetAttributeName : string)
| ForwardedTwice (attributeName : string).

Inductive Result (A : Type) : Type :=
| Ok (a : A)
| Fatal (e : FatalError).

Arguments Ok {A}.
Arguments Fatal {A}.

(** Calls made on a child view while it is added or removed. *)
Inductive Hook : Type :=
| WillAppear (view : ViewId)
| WillDisappear (view : ViewId) (resetState : bool)
| FreeView (view : ViewId).

(** Modelled from the spec: the layout solver is an external dependency; a
    node keeps an ordered child list, [YGNodeInsertChild] inserts at an
    index, [YGNodeRemoveChild] removes a child and [YGNodeGetChildCount]
    counts them.  An index beyond the child count is outside the solver's
    contract. *)
Definition YGNodeInsertChild (node : list ViewId) (child : ViewId) (index : Z) : list ViewId :=
  take (Z.to_nat index) node ++ child :: drop (Z.to_nat index) node.

Definition YGNodeRemoveChild (node : list ViewId) (child : ViewId) : list ViewId :=
  match list_find (fun c => c = child) node with
  | Some (i, _) => delete i node
  | None => node
  end.

Definition YGNodeGetChildCount (node : list ViewId) : Z := Z.of_nat (length node).

(** Modelled from the spec: [View::invalidate()] marks the layout dirty. *)
Definition invalidate (this : Box) : Box :=
  mkBox (bview this) (axis this) (children this) (ygChildren this)
        (lastFocusedView this) (defaultFocusedIndex this) true
        (forwardedAttributes this).

(** [this->children.size()]. *)
Definition children_size (this : Box) : Z := Z.of_nat (length (children this)).

(** The loop [for (i = from; i < children.size(); i++)] that bumps the index
    cache of [children[i]]; [n] is the number of iterations left. *)
Fixpoint restampFrom (n : nat) (i : nat) (cs : list View) : list View :=
  match n with
  | O => cs
  | S n' => restampFrom n' (S i) (alter bumpIndex i cs)
  end.

(** [Box::addView(View* view, size_t position)].  [view] is the object the
    pointer designates; it is taken not to be among the children already
    (the layout solver asserts that the node it receives has no owner). *)
Definition addView (this : Box) (view : View) (position : Z) : Result (Box * list Hook) :=
  if (children_size this <? position) || (position <? 0) then
    Fatal (CannotInsertView (children_size this) position)
  else
    let p := Z.to_nat position in
    (* view->setParent(this, userdata), the fresh cell holding position *)
    let view' := setParent (Some (self (bview this))) (Some position) view in
    (* children.insert(children.begin() + position, view) *)
    let inserted := take p (children this) ++ view' :: drop p (children this) in
    let yg :=
      if isDetached view then ygChildren this
      else YGNodeInsertChild (ygChildren this) (getYGNode view) position in
    (* for (i = position + 1; i < children.size(); i++): bump the cache *)
    let stamped := restampFrom (length inserted - S p) (S p) inserted in
    Ok (invalidate
          (mkBox (bview this) (axis this) stamped yg (lastFocusedView this)
                 (defaultFocusedIndex this) (layoutDirty this)
                 (forwardedAttributes this)),
        [WillAppear (viewId view)]).

(** [Box::addView(View* view)]: the position is the child count of the
    layout node. *)
Definition addViewLast (this : Box) (view : View) : Result (Box * list Hook) :=
  addView this view (YGNodeGetChildCount (ygChildren this)).

(** [Box::removeView(View* view, bool free)].  [view] is the pointer passed
    in, [None] for null; children are compared by address, and the child
    found is the object that [view] designates. *)
Definition removeView (this : Box) (view : option ViewId) (free : bool) : Box * list Hook :=
  match view with
  | None => (this, [])
  | Some ptr =>
      match list_find (fun child => viewId child = ptr) (children this) with
      | None => (this, [])
      | Some (index, child) =>
          let yg :=
            if isDetached child then ygChildren this
            else YGNodeRemoveChild (ygChildren this) (getYGNode child) in
          (invalidate
             (mkBox (bview this) (axis this) (delete index (children this)) yg
                    (lastFocusedView this) (defaultFocusedIndex this)
                    (layoutDirty this) (forwardedAttributes this)),
           WillDisappear ptr true :: (if free then [FreeView ptr] else []))
      end
  end.

(** The index-cache invariant: every child's cache holds its position. *)
Definition indexCached (cs : list View) : Prop :=
  forall (i : nat) (c : View), cs !! i = Some c -> getParentUserData c = Some (Z.of_nat i).

(** ** Focus resolution *)

(** The first non-null pointer of a sequence of resolutions. *)
Fixpoint firstResolved (rs : list (option View)) : option View :=
  match rs with
  | [] => None
  | Some f :: _ => Some f
  | None :: rest => firstResolved rest
  end.

(** [getDefaultFocus()], a virtual call.  On a Box it is
    [Box::getDefaultFocus]; on a leaf it is the base implementation.

    Modelled from the spec: [View::getDefaultFocus] is not part of the
    sources at hand; a plain view resolves to itself when it is focusable
    and to null otherwise. *)
Fixpoint getDefaultFocus (v : View) : option View :=
  match v with
  | Leaf b => if focusable b then Some v else None
  | BoxV b =>
      (* Focus ourself first *)
      if focusable (bview b) then Some v
      else
        match lastFocusedView b with
        | Some l => getDefaultFocus l
        | None =>
            (* children[i]->getDefaultFocus(), for every i *)
            let resolved := getDefaultFocus <$> children b in
            (* Then try default focus *)
            let newFocus :=
              if defaultFocusedIndex b <? Z.of_nat (length (children b))
              then mjoin (resolved !! Z.to_nat (defaultFocusedIndex b))
              else None in
            match newFocus with
            | Some f => Some f
            | None =>
                (* Fallback to finding the first focusable view *)
                firstResolved resolved
            end
        end
  end.

Definition Box_getDefaultFocus (this : Box) : option View := getDefaultFocus (BoxV this).

(** Every view below [v] in the tree of children, and the focusable views
    of the subtree rooted at [v], in sequence order. *)
Fixpoint descendants (v : View) : list View :=
  match v with
  | Leaf _ => []
  | BoxV b => concat ((fun c => c :: descendants c) <$> children b)
  end.

Fixpoint focusables (v : View) : list View :=
  (if isFocusable v then [v] else []) ++
  match v with
  | Leaf _ => []
  | BoxV b => concat (focusables <$> children b)
  end.

(** No Box of the subtree remembers a last focused view. *)
Fixpoint remembersNothing (v : View) : bool :=
  match v with
  | Leaf _ => true
  | BoxV b =>
      match lastFocusedView b with
      | Some _ => false
      | None => forallb remembersNothing (children b)
      end
  end.

Definition Axis_eqb (a b : Axis) : bool :=
  match a, b with
  | ROW, ROW | COLUMN, COLUMN => true
  | _, _ => false
  end.

Definition FocusDirection_eqb (a b : FocusDirection) : bool :=
  match a, b with
  | UP, UP | DOWN, DOWN | LEFT, LEFT | RIGHT, RIGHT => true
  | _, _ => false
  end.

(** The test that opens [Box::getNextFocus]: the direction mismatches the
    axis of the Box. *)
Definition mismatchesAxis (a : Axis) (direction : FocusDirection) : bool :=
  (Axis_eqb a ROW && negb (FocusDirection_eqb direction LEFT)
     && negb (FocusDirection_eqb direction RIGHT))
  || (Axis_eqb a COLUMN && negb (FocusDirection_eqb direction UP)
        && negb (FocusDirection_eqb direction DOWN)).

(** [size_t offset = 1], or [-1] for LEFT on a row and UP on a column. *)
Definition traversalOffset (a : Axis) (direction : FocusDirection) : Z :=
  if (Axis_eqb a ROW && FocusDirection_eqb direction LEFT)
     || (Axis_eqb a COLUMN && FocusDirection_eqb direction UP)
  then SIZE_MAX
  else 1.

Definition isNull (p : option View) : bool :=
  match p with
  | None => true
  | Some _ => false
  end.

(** The guard of the sibling scan:
    [!currentFocus && currentFocusIndex >= 0 && currentFocusIndex < children.size()]. *)
Definition scanGuard (cs : list View) (currentFocus : option View) (currentFocusIndex : Z) : bool :=
  isNull currentFocus && (0 <=? currentFocusIndex) && (currentFocusIndex <? Z.of_nat (length cs)).

(** The [while] loop of [Box::getNextFocus].  [fuel] bounds the number of
    guard evaluations; [None] means that the bound was reached or that an
    element outside the vector was read. *)
Fixpoint scanLoop (fuel : nat) (cs : list View) (offset : Z)
    (currentFocus : option View) (currentFocusIndex : Z) : option (option View) :=
  match fuel with
  | O => None
  | S fuel' =>
      if scanGuard cs currentFocus currentFocusIndex then
        match cs !! Z.to_nat currentFocusIndex with
        | Some c =>
            scanLoop fuel' cs offset (getDefaultFocus c) (wrap64 (currentFocusIndex + offset))
        | None => None
        end
      else Some currentFocus
  end.

(** Induction over a view, its children and the view it remembers. *)
Section View_induction.

Variable P : View -> Prop.
Hypothesis P_leaf : forall b, P (Leaf b).
Hypothesis P_box :
  forall b, Forall P (children b) -> from_option P True (lastFocusedView b) -> P (BoxV b).

Fixpoint View_induction (v : View) : P v :=
  match v with
  | Leaf b => P_leaf b
  | BoxV b =>
      P_box b
        ((fix all (cs : list View) : Forall P cs :=
            match cs with
            | [] => @List.Forall_nil _ P
            | c :: rest => @List.Forall_cons _ P c rest (View_induction c) (all rest)
            end) (children b))
        (match lastFocusedView b as o return from_option P True o with
         | Some l => View_induction l
         | None => I
         end)
  end.

End View_induction.

(** The scan as the specification words it: from [start], sibling by
    sibling towards the end of the sequence or towards its beginning, the
    resolution of the first sibling that resolves; null once the bounds
    are exhausted. *)
Definition siblingScan (cs : list View) (towardsEnd : bool) (start : Z) : option View :=
  if towardsEnd then
    firstResolved (getDefaultFocus <$> drop (Z.to_nat start) cs)
  else if start <? Z.of_nat (length cs) then
    firstResolved (getDefaultFocus <$> reverse (take (S (Z.to_nat start)) cs))
  else None.

(** The directions the specification gives the offset +1 and the offset -1. *)
Definition movesTowardsEnd (a : Axis) (direction : FocusDirection) : bool :=
  match a, direction with
  | ROW, RIGHT | COLUMN, DOWN => true
  | _, _ => false
  end.

Definition movesTowardsStart (a : Axis) (direction : FocusDirection) : bool :=
  match a, direction with
  | ROW, LEFT | COLUMN, UP => true
  | _, _ => false
  end.

Section Navigation.

(** [getParentNavigationDecision] is virtual: a container class derived from
    Box may override it.  [navigationOverride id] is the override of the
    object at address [id], [None] when it runs Box's own implementation. *)
Variable navigationOverride :
  ViewId -> option (View -> option View -> FocusDirection -> option View).

(** [this->getParentNavigationDecision(from, newFocus, direction)].
    [ancestors] is what following the parent pointers from [this] yields:
    the parent first, the root last; [hasParent()] holds when it is not
    empty. *)
Fixpoint getParentNavigationDecision (this : Box) (ancestors : list Box)
    (from : View) (newFocus : option View) (direction : FocusDirection)
    {struct ancestors} : option View :=
  match navigationOverride (self (bview this)) with
  | Some override => override from newFocus direction
  | None =>
      match ancestors with
      | [] => newFocus
      | p :: rest => getParentNavigationDecision p rest from newFocus direction
      end
  end.

(** [this->getNextFocus(direction, currentView)].  The result is [None] when
    the call has no defined result: the index cache of [currentView] is a
    null pointer that the aligned branch dereferences, or the scan does not
    finish. *)
Fixpoint getNextFocus (this : Box) (ancestors : list Box)
    (direction : FocusDirection) (currentView : View)
    {struct ancestors} : option (option View) :=
  let parentUserData := getParentUserData currentView in
  if mismatchesAxis (axis this) direction then
    let next := getParentNavigationDecision this ancestors (BoxV this) None direction in
    match next, ancestors with
    | None, p :: rest => getNextFocus p rest direction (BoxV this)
    | _, _ => Some next
    end
  else
    (* Traverse the children *)
    let offset := traversalOffset (axis this) direction in
    match parentUserData with
    | None => None
    | Some cached =>
        let currentFocusIndex := wrap64 (cached + offset) in
        match scanLoop (S (length (children this))) (children this) offset None
                       currentFocusIndex with
        | None => None
        | Some scanned =>
            let currentFocus :=
              getParentNavigationDecision this ancestors (BoxV this) scanned direction in
            match currentFocus, ancestors with
            | None, p :: rest => getNextFocus p rest direction (BoxV this)
            | _, _ => Some currentFocus
            end
        end
    end.

End Navigation.

(** ** Attribute forwarding and the default focused index *)

Definition withForwardedAttributes (this : Box) (m : gmap string (string * ViewId)) : Box :=
  mkBox (bview this) (axis this) (children this) (ygChildren this)
        (lastFocusedView this) (defaultFocusedIndex this) (layoutDirty this) m.

Section Attributes.

(** The attribute machinery of [View] is not part of the sources at hand.
    [isXMLAttributeValid target name] tells whether [name] is a registered
    attribute of the view at address [target]; [applyOnTarget] is the
    virtual [target->applyXMLAttribute(name, value)] and
    [View_applyXMLAttribute] the base implementation run on the Box itself.
    Both act on a state [W] of the attribute machinery and report whether
    the attribute was handled. *)
Variable W : Type.
Variable isXMLAttributeValid : ViewId -> string -> bool.
Variable applyOnTarget : ViewId -> string -> string -> W -> bool * W.
Variable View_applyXMLAttribute : ViewId -> string -> string -> W -> bool * W.

(** [forwardedAttributes.count(name) > 0]. *)
Definition isForwarded (this : Box) (name : string) : bool :=
  bool_decide (is_Some (forwardedAttributes this !! name)).

(** [Box::applyXMLAttribute(name, value)]. *)
Definition applyXMLAttribute (this : Box) (name value : string) (w : W) : bool * W :=
  match forwardedAttributes this !! name with
  | Some (targetName, target) => applyOnTarget target targetName value w
  | None => View_applyXMLAttribute (self (bview this)) name value w
  end.

(** [Box::forwardXMLAttribute(attributeName, target, targetAttributeName)]. *)
Definition forwardXMLAttribute (this : Box) (attributeName : string) (target : ViewId)
    (targetAttributeName : string) : Result Box :=
  if negb (isXMLAttributeValid target targetAttributeName) then
    Fatal (NotAValidAttribute attributeName targetAttributeName)
  else if isForwarded this attributeName then
    Fatal (ForwardedTwice attributeName)
  else
    Ok (withForwardedAttributes this
          (<[attributeName := (targetAttributeName, target)]> (forwardedAttributes this))).

(** [Box::forwardXMLAttribute(attributeName, target)]. *)
Definition forwardXMLAttributeSameName (this : Box) (attributeName : string) (target : ViewId)
    : Result Box :=
  forwardXMLAttribute this attributeName target attributeName.

End Attributes.

(** [Box::setDefaultFocusedIndex(int index)].  The function returns [void]
    and has no failure path; a stored index is converted to [size_t]. *)
Definition setDefaultFocusedIndex (this : Box) (index : Z) : Box :=
  if index <? 0 then this
  else
    mkBox (bview this) (axis this) (children this) (ygChildren this)
          (lastFocusedView this) (wrap64 index) (layoutDirty this)
          (forwardedAttributes this).

Definition getDefaultFocusedIndex (this : Box) : Z := defaultFocusedIndex this.


(** ** Sample views *)

(** A leaf view as its constructor leaves it: attached to the layout, no
    parent, no index cache. *)
Definition plainView (id : ViewId) (canFocus : bool) : View :=
  Leaf (mkViewBase id canFocus false None None).

(** A Box as [Box::Box(Axis)] leaves it. *)
Definition emptyBox (id : ViewId) (a : Axis) : Box :=
  mkBox (mkViewBase id false false None None) a [] [] None 0 false ∅.

(** The Box an operation leaves, [otherwise] when it was fatal. *)
Definition boxAfter (r : Result (Box * list Hook)) (otherwise : Box) : Box :=
  match r with
  | Ok (b, _) => b
  | Fatal _ => otherwise
  end.

(** A row to which the views 2 and 3 were added in turn. *)
Definition rowOfTwo : Box :=
  let b0 := emptyBox 1 ROW in
  let b1 := boxAfter (addViewLast b0 (plainView 2 true)) b0 in
  boxAfter (addViewLast b1 (plainView 3 true)) b1.

(** A sample attribute machinery: every view knows the attribute [text];
    the state is the log of the applications that reached a target. *)
Definition sampleValid (target : ViewId) (name : string) : bool :=
  bool_decide (name = "text"%string).

Definition sampleApplyOnTarget (target : ViewId) (name value : string)
    (w : list (ViewId * string * string)) : bool * list (ViewId * string * string) :=
  (true, w ++ [(target, name, value)]).

Definition sampleApplyLocally (this : ViewId) (name value : string)
    (w : list (ViewId * string * string)) : bool * list (ViewId * string * string) :=
  (false, w).

(** A row whose view 2 held the focus, so that the row remembers it, and
    was made unfocusable afterwards; view 3 is focusable. *)
Definition staleMemoryRow : Box :=
  let v2 := Leaf (mkViewBase 2 false false (Some 1%nat) (Some 0)) in
  let v3 := Leaf (mkViewBase 3 true false (Some 1%nat) (Some 1)) in
  mkBox (mkViewBase 1 false false None None) ROW [v2; v3] [2%nat; 3%nat] (Some v2) 0 false ∅.

(** A column that holds an unfocusable label and a row; the row holds a
    label and, one level further down, a focusable button in a column. *)
Definition nestedColumn : Box :=
  let label i := Leaf (mkViewBase i false false None (Some 0)) in
  let button := Leaf (mkViewBase 7 true false (Some 6%nat) (Some 0)) in
  let inner := mkBox (mkViewBase 6 false false (Some 4%nat) (Some 1)) COLUMN
                     [button] [7%nat] None 0 false ∅ in
  let row := mkBox (mkViewBase 4 false false (Some 1%nat) (Some 1)) ROW
                   [label 5%nat; BoxV inner] [5%nat; 6%nat] None 0 false ∅ in
  mkBox (mkViewBase 1 false false None None) COLUMN
        [label 3%nat; BoxV row] [3%nat; 4%nat] None 0 false ∅.

(** A row of three views whose index caches are in step; the middle one
    cannot take the focus. *)
Definition rowOfThree : Box :=
  mkBox (mkViewBase 1 false false None None) ROW
        [Leaf (mkViewBase 2 true false (Some 1%nat) (Some 0));
         Leaf (mkViewBase 3 false false (Some 1%nat) (Some 1));
         Leaf (mkViewBase 4 true false (Some 1%nat) (Some 2))]
        [2%nat; 3%nat; 4%nat] None 0 false ∅.

(** No container overrides [getParentNavigationDecision]. *)
Definition noOverride (id : ViewId)
    : option (View -> option View -> FocusDirection -> option View) := None.

(** ** Clearing a Box, focus memory, look-up by id *)

(** [Box::setLastFocusedView(View* view)]. *)
Definition setLastFocusedView (this : Box) (view : option View) : Box :=
  mkBox (bview this) (axis this) (children this) (ygChildren this) view
        (defaultFocusedIndex this) (layoutDirty this) (forwardedAttributes this).

(** The loop of [Box::clearViews], [n] rounds of it.  A round reads
    [children.back()], which has no defined result on an empty vector
    ([None]); it removes the node of that view from the layout node,
    whether or not the view is detached, and pops the vector. *)
Fixpoint clearViewsLoop (n : nat) (free : bool) (this : Box) : option (Box * list Hook) :=
  match n with
  | O => Some (this, [])
  | S n' =>
      match last (children this) with
      | None => None
      | Some view =>
          let popped :=
            mkBox (bview this) (axis this)
                  (take (length (children this) - 1) (children this))
                  (YGNodeRemoveChild (ygChildren this) (getYGNode view))
                  (lastFocusedView this) (defaultFocusedIndex this)
                  (layoutDirty this) (forwardedAttributes this) in
          match clearViewsLoop n' free popped with
          | None => None
          | Some (this', hooks) =>
              Some (this',
                    WillDisappear (viewId view) true
                    :: (if free then [FreeView (viewId view)] else []) ++ hooks)
          end
      end
  end.

(** [Box::clearViews(bool free)]: the number of rounds is the size of the
    copy of the child vector taken before the loop. *)
Definition clearViews (this : Box) (free : bool) : option (Box * list Hook) :=
  let cleared := setLastFocusedView this None in
  let views := children cleared in
  match clearViewsLoop (length views) free cleared with
  | None => None
  | Some (this', hooks) => Some (invalidate this', hooks)
  end.

(** A succession of [addView(view, position)] calls on one Box, as the
    code of a client makes them; the first fatal call ends it. *)
Fixpoint addViews (this : Box) (calls : list (View * Z)) : Result Box :=
  match calls with
  | [] => Ok this
  | (view, position) :: rest =>
      match addView this view position with
      | Ok (this', _) => addViews this' rest
      | Fatal e => Fatal e
      end
  end.

(** No Box of the subtree remembers a last focused view, and every Box has
    0 as its default focused index. *)
Fixpoint pristine (v : View) : bool :=
  match v with
  | Leaf _ => true
  | BoxV b =>
      isNull (lastFocusedView b) && (defaultFocusedIndex b =? 0)
      && forallb pristine (children b)
  end.




Section Lookup.

(** [idOf a] is the [id] member of the view at address [a].  The virtual
    [getView] of a view that is no Box is not part of the sources at hand
    and is a parameter, [View_getView]. *)
Variable idOf : ViewId -> string.
Variable View_getView : ViewBase -> string -> option View.

(** [getView(id)], a virtual call; on a Box it is [Box::getView]. *)
Fixpoint getView (v : View) (id : string) : option View :=
  match v with
  | Leaf b => View_getView b id
  | BoxV b =>
      if bool_decide (id = idOf (self (bview b))) then Some v
      else
        (* child->getView(id), for every child, the first non-null result *)
        firstResolved ((fun child => getView child id) <$> children b)
  end.

End Lookup.

Section Focused.

(** [isFocused a] is what [View::isFocused()] answers on the view at
    address [a]. *)
Variable isFocused : ViewId -> bool.

(** [Box::isChildFocused()], on the Box that [this] is; the function is
    not called on a view that is no Box. *)
Fixpoint isChildFocused (this : View) : bool :=
  match this with
  | Leaf _ => false
  | BoxV b =>
      existsb
        (fun child =>
           match child with
           | BoxV box => isFocused (self (bview box)) || isChildFocused child
           | Leaf c => isFocused (self c)
           end)
        (children b)
  end.

Definition Box_isChildFocused (this : Box) : bool := isChildFocused (BoxV this).

End Focused.

(** ** Navigation through nested Boxes *)

(** The view carries an index cache that holds a [size_t]. *)
Definition cachedSize (v : View) : bool :=
  match getParentUserData v with
  | Some cached => (0 <=? cached) && (cached <? 2 ^ SIZE_WIDTH)
  | None => false
  end.

(** Every Box of the chain that has a parent carries such a cache: its
    parent receives it as [currentView]. *)
Fixpoint chainCached (this : Box) (ancestors : list Box) : bool :=
  match ancestors with
  | [] => true
  | p :: rest => cachedSize (BoxV this) && chainCached p rest
  end.

(** What the Box [this] has to offer to a move that comes from its child
    [currentView]: nothing across its axis, and along its axis what the
    sibling scan finds next to the cached index of that child. *)
Definition offeredBy (this : Box) (direction : FocusDirection) (currentView : View)
    : option View :=
  if mismatchesAxis (axis this) direction then None
  else
    match getParentUserData currentView with
    | Some cached =>
        siblingScan (children this) (movesTowardsEnd (axis this) direction)
                    (wrap64 (cached + traversalOffset (axis this) direction))
    | None => None
    end.

(** The offers of [this] and of its ancestors, innermost first; each
    ancestor is entered from the Box below it. *)
Fixpoint offers (this : Box) (ancestors : list Box) (direction : FocusDirection)
    (currentView : View) {struct ancestors} : list (option View) :=
  offeredBy this direction currentView
  :: match ancestors with
     | [] => []
     | p :: rest => offers p rest direction (BoxV this)
     end.

(** ** More sample views *)

(** A focusable view that stands at [index] in the Box [owner]. *)
Definition menuButton (id : ViewId) (index : Z) (owner : ViewId) : View :=
  Leaf (mkViewBase id true false (Some owner) (Some index)).

(** A column of two rows of two buttons each. *)
Definition upperRow : Box :=
  mkBox (mkViewBase 2 false false (Some 1%nat) (Some 0)) ROW
        [menuButton 4 0 2; menuButton 5 1 2] [4%nat; 5%nat] None 0 false ∅.

Definition lowerRow : Box :=
  mkBox (mkViewBase 3 false false (Some 1%nat) (Some 1)) ROW
        [menuButton 6 0 3; menuButton 7 1 3] [6%nat; 7%nat] None 0 false ∅.

Definition menuColumn : Box :=
  mkBox (mkViewBase 1 false false None None) COLUMN
        [BoxV upperRow; BoxV lowerRow] [2%nat; 3%nat] None 0 false ∅.

(** A row whose first child is detached from the layout: the layout node
    holds the second child alone. *)
Definition rowWithDetached : Box :=
  mkBox (mkViewBase 1 false false None None) ROW
        [Leaf (mkViewBase 2 true true (Some 1%nat) (Some 0));
         Leaf (mkViewBase 3 true false (Some 1%nat) (Some 1))]
        [3%nat] None 0 false ∅.

(** Sample ids: the column is [menu], the buttons 5 and 7 are both [ok]. *)
Definition sampleIdOf (a : ViewId) : string :=
  match a with
  | 1%nat => "menu"
  | 5%nat | 7%nat => "ok"
  | _ => ""
  end.

(** A base [getView] that compares the id as [Box::getView] does. *)
Definition sampleGetView (b : ViewBase) (id : string) : option View :=
  if bool_decide (id = sampleIdOf (self b)) then Some (Leaf b) else None.
(** ** The task scheduler *)

(** The scheduler as the render thread drives it.  Each mutex guards one
    operation on one container and has no counterpart here; the background
    loop that drains [m_async_tasks] on its own thread is left out. *)
Module Threading.

(** A callback ([std::function<void()>]) is named by an identifier. *)
Definition FuncId : Type := nat.

(** How a call of a callback ends: it returns, it throws an exception
    derived from [std::exception], or it throws something else. *)
Inductive Outcome : Type := Returns | ThrowsStd | ThrowsOther.

(** What a callback does to the scheduler while it runs: the calls of the
    public interface it makes, in order, and how it ends.  [delay] hands
    the new identifier to the rest of the callback. *)
Inductive Script : Type :=
| Finish (o : Outcome)
| CallSync (func : FuncId) (k : Script)
| CallAsync (task : FuncId) (k : Script)
| CallDelay (milliseconds : Z) (func : FuncId) (k : Z -> Script)
| CallCancelDelay (iter : Z) (k : Script).

Record DelayOperation : Type := mkDelayOperation {
  startPoint : Z;
  delayMilliseconds : Z;
  func : FuncId;
  index : Z;
}.

(** The static members of [Threading], and the number of readings of
    [high_resolution_clock] taken so far. *)
Record State : Type := mkState {
  m_sync_functions : list FuncId;
  m_async_tasks : list FuncId;
  m_delay_tasks : list DelayOperation;
  m_delay_cancel_set : gset Z;
  m_delay_index : Z;
  clockReads : nat;
}.

(** What a run lets an observer see. *)
Inductive Event : Type :=
| SyncCalled (f : FuncId)
| DelayCalled (index : Z) (f : FuncId)
| ErrorLogged (f : FuncId)
| DelayScheduled (index : Z)
| CancelRequested (iter : Z).

(** Whether [performSyncTasks] returned or an exception left it. *)
Inductive Flow : Type := Completed | Escaped.

(** Clock periods per millisecond: [high_resolution_clock] counts
    nanoseconds on the supported standard libraries. *)
Definition periodsPerMillisecond : Z := 1000000.

(** [duration_cast<milliseconds>(d).count()], which truncates. *)
Definition toMilliseconds (d : Z) : Z := Z.quot d periodsPerMillisecond.

Section Scheduler.

(** The behaviour of every callback, and the successive readings of the
    clock. *)
Variable body : FuncId -> Script.
Variable now : nat -> Z.

(** [high_resolution_clock::now()]. *)
Definition readClock (st : State) : Z * State :=
  (now (clockReads st),
   mkState (m_sync_functions st) (m_async_tasks st) (m_delay_tasks st)
           (m_delay_cancel_set st) (m_delay_index st) (S (clockReads st))).

(** [Threading::sync]. *)
Definition sync (f : FuncId) (st : State) : State :=
  mkState (m_sync_functions st ++ [f]) (m_async_tasks st) (m_delay_tasks st)
          (m_delay_cancel_set st) (m_delay_index st) (clockReads st).

(** [Threading::async]. *)
Definition async (task : FuncId) (st : State) : State :=
  mkState (m_sync_functions st) (m_async_tasks st ++ [task]) (m_delay_tasks st)
          (m_delay_cancel_set st) (m_delay_index st) (clockReads st).

(** [m_delay_tasks.push_back(d)]. *)
Definition pushDelay (d : DelayOperation) (st : State) : State :=
  mkState (m_sync_functions st) (m_async_tasks st) (m_delay_tasks st ++ [d])
          (m_delay_cancel_set st) (m_delay_index st) (clockReads st).

(** [Threading::delay]. *)
Definition delay (milliseconds : Z) (f : FuncId) (st : State) : Z * State :=
  let '(start, st1) := readClock st in
  let id := wrap64 (m_delay_index st1 + 1) in
  let operation := mkDelayOperation start milliseconds f id in
  (id,
   mkState (m_sync_functions st1) (m_async_tasks st1) (m_delay_tasks st1 ++ [operation])
           (m_delay_cancel_set st1) id (clockReads st1)).

(** [Threading::cancelDelay]. *)
Definition cancelDelay (iter : Z) (st : State) : State :=
  mkState (m_sync_functions st) (m_async_tasks st) (m_delay_tasks st)
          ({[iter]} ∪ m_delay_cancel_set st) (m_delay_index st) (clockReads st).

(** [if (m_delay_cancel_set.count(i)) m_delay_cancel_set.erase(i)]. *)
Definition eraseCancel (i : Z) (st : State) : State :=
  if bool_decide (i ∈ m_delay_cancel_set st) then
    mkState (m_sync_functions st) (m_async_tasks st) (m_delay_tasks st)
            (m_delay_cancel_set st ∖ {[i]}) (m_delay_index st) (clockReads st)
  else st.

(** Running a callback: its calls reach the scheduler in order. *)
Fixpoint runScript (s : Script) (st : State) : State * list Event * Outcome :=
  match s with
  | Finish o => (st, [], o)
  | CallSync f k => runScript k (sync f st)
  | CallAsync t k => runScript k (async t st)
  | CallDelay ms f k =>
      let '(id, st1) := delay ms f st in
      let '(st2, ev, o) := runScript (k id) st1 in
      (st2, DelayScheduled id :: ev, o)
  | CallCancelDelay iter k =>
      let '(st2, ev, o) := runScript k (cancelDelay iter st) in
      (st2, CancelRequested iter :: ev, o)
  end.

(** The first loop of [performSyncTasks], over the swapped-out callbacks. *)
Fixpoint runSyncLocal (local : list FuncId) (st : State) : State * list Event * Flow :=
  match local with
  | [] => (st, [], Completed)
  | f :: rest =>
      let '(st1, ev, o) := runScript (body f) st in
      match o with
      | Returns =>
          let '(st2, ev2, fl) := runSyncLocal rest st1 in
          (st2, SyncCalled f :: ev ++ ev2, fl)
      | ThrowsStd =>
          let '(st2, ev2, fl) := runSyncLocal rest st1 in
          (st2, SyncCalled f :: ev ++ ErrorLogged f :: ev2, fl)
      | ThrowsOther => (st1, SyncCalled f :: ev, Escaped)
      end
  end.

(** The body of the second loop, for one delayed task [d]. *)
Definition processDelay (d : DelayOperation) (st : State) : State * list Event * Flow :=
  (* Check cancel *)
  if bool_decide (index d ∈ m_delay_cancel_set st) then
    (mkState (m_sync_functions st) (m_async_tasks st) (m_delay_tasks st)
             (m_delay_cancel_set st ∖ {[index d]}) (m_delay_index st) (clockReads st),
     [], Completed)
  else
    let '(timeNow, st1) := readClock st in
    let duration := toMilliseconds (timeNow - startPoint d) in
    if delayMilliseconds d <=? duration then
      let '(st2, ev, o) := runScript (body (func d)) st1 in
      match o with
      | Returns => (eraseCancel (index d) st2, DelayCalled (index d) (func d) :: ev, Completed)
      | ThrowsStd =>
          (eraseCancel (index d) st2,
           DelayCalled (index d) (func d) :: ev ++ [ErrorLogged (func d)], Completed)
      | ThrowsOther => (st2, DelayCalled (index d) (func d) :: ev, Escaped)
      end
    else (pushDelay d st1, [], Completed).

Fixpoint runDelayLocal (delay_local : list DelayOperation) (st : State)
    : State * list Event * Flow :=
  match delay_local with
  | [] => (st, [], Completed)
  | d :: rest =>
      let '(st1, ev, fl) := processDelay d st in
      match fl with
      | Completed =>
          let '(st2, ev2, fl2) := runDelayLocal rest st1 in
          (st2, ev ++ ev2, fl2)
      | Escaped => (st1, ev, Escaped)
      end
  end.

(** [Threading::performSyncTasks]. *)
Definition performSyncTasks (st : State) : State * list Event * Flow :=
  let local := m_sync_functions st in
  let st0 := mkState [] (m_async_tasks st) (m_delay_tasks st)
                     (m_delay_cancel_set st) (m_delay_index st) (clockReads st) in
  let '(st1, ev1, fl) := runSyncLocal local st0 in
  match fl with
  | Escaped => (st1, ev1, Escaped)
  | Completed =>
      let delay_local := m_delay_tasks st1 in
      let st2 := mkState (m_sync_functions st1) (m_async_tasks st1) []
                         (m_delay_cancel_set st1) (m_delay_index st1) (clockReads st1) in
      let '(st3, ev2, fl2) := runDelayLocal delay_local st2 in
      (st3, ev1 ++ ev2, fl2)
  end.

(** What the render thread does, one step at a time: code of its own that
    calls the scheduler, or a tick. *)
Inductive Step : Type :=
| Call (s : Script)
| Tick.

Fixpoint exec (steps : list Step) (st : State) : State * list Event :=
  match steps with
  | [] => (st, [])
  | Call s :: rest =>
      let '(st1, ev, _) := runScript s st in
      let '(st2, ev2) := exec rest st1 in
      (st2, ev ++ ev2)
  | Tick :: rest =>
      let '(st1, ev, _) := performSyncTasks st in
      let '(st2, ev2) := exec rest st1 in
      (st2, ev ++ ev2)
  end.

(** A callback that throws nothing but exceptions derived from
    [std::exception]. *)
Fixpoint stdOnly (s : Script) : Prop :=
  match s with
  | Finish o => o <> ThrowsOther
  | CallSync _ k | CallAsync _ k | CallCancelDelay _ k => stdOnly k
  | CallDelay _ _ k => forall id, stdOnly (k id)
  end.

(** The callbacks the first loop called, and the delayed tasks the second
    loop called, in order. *)
Definition syncCalls (ev : list Event) : list FuncId :=
  omap (fun e => match e with SyncCalled f => Some f | _ => None end) ev.

Definition delayCalls (ev : list Event) : list (Z * FuncId) :=
  omap (fun e => match e with DelayCalled i f => Some (i, f) | _ => None end) ev.

(** The pending delayed tasks that carry the identifier [id]. *)
Definition pendingWith (id : Z) (ds : list DelayOperation) : list DelayOperation :=
  filter (fun d => index d = id) ds.

Definition countWith (id : Z) (ds : list DelayOperation) : nat :=
  length (pendingWith id ds).


(** Whether [cancelDelay(id)] has been called by the end of the events
    [ev], [r] telling whether it had been called before them. *)
Fixpoint cancelRequested (id : Z) (r : bool) (ev : list Event) : bool :=
  match ev with
  | [] => r
  | CancelRequested i :: rest => cancelRequested id (r || bool_decide (i = id)) rest
  | _ :: rest => cancelRequested id r rest
  end.

(** No delayed task that carries [id] is called once [cancelDelay(id)] has
    been called. *)
Fixpoint quiet (id : Z) (r : bool) (ev : list Event) : Prop :=
  match ev with
  | [] => True
  | DelayCalled i _ :: rest => (r = true -> i <> id) /\ quiet id r rest
  | CancelRequested i :: rest => quiet id (r || bool_decide (i = id)) rest
  | _ :: rest => quiet id r rest
  end.

(** Over a stretch of a run that emitted the events [ev], the number of
    tasks carrying [id], held by the loop or pending, went from [before]
    to [after] and the cancel set from [c] to [c']: the number did not
    grow; and if it was at most one, with the one task in the cancel set
    in case [id] had been cancelled ([r]), then that is so again at the
    end, and no task carrying [id] was called after a cancellation. *)
Definition keeps (id : Z) (before after : nat) (c c' : gset Z) (r : bool)
    (ev : list Event) : Prop :=
  (after <= before)%nat
  /\ ((before <= 1)%nat -> (r = true -> before = 1%nat -> id ∈ c) ->
      (cancelRequested id r ev = true -> after = 1%nat -> id ∈ c') /\ quiet id r ev).

(** The identifiers that [delay] handed out. *)
Definition scheduledIds (ev : list Event) : list Z :=
  omap (fun e => match e with DelayScheduled i => Some i | _ => None end) ev.

(** Over the events [ev] the counter [m_delay_index] went from [i] to [i']
    without wrapping around, when there was room for it: every identifier
    handed out lies above [i]. *)
Definition counts (i i' : Z) (ev : list Event) : Prop :=
  0 <= i -> i + Z.of_nat (length (scheduledIds ev)) < 2 ^ 64 ->
  i' = i + Z.of_nat (length (scheduledIds ev))
  /\ Forall (fun j => i < j) (scheduledIds ev).

End Scheduler.

(** *** Sample runs *)

(** Callback 0 throws a value that is no [std::exception], callback 2
    throws a [std::exception], the others return. *)
Definition sampleBody (f : FuncId) : Script :=
  match f with
  | 0%nat => Finish ThrowsOther
  | 2%nat => Finish ThrowsStd
  | _ => Finish Returns
  end.

(** As [sampleBody], but callback 0 returns. *)
Definition standardBody (f : FuncId) : Script :=
  match f with
  | 2%nat => Finish ThrowsStd
  | _ => Finish Returns
  end.

(** A clock read at 0 ms, at 50 ms, and at 150 ms from then on. *)
Definition sampleClock (n : nat) : Z :=
  match n with
  | 0%nat => 0
  | 1%nat => 50 * periodsPerMillisecond
  | _ => 150 * periodsPerMillisecond
  end.

(** The scheduler at start-up, and after [delay(100, f1)]. *)
Definition idle : State := mkState [] [] [] ∅ 0 0.

Definition scheduled : State := (delay sampleClock 100 1%nat idle).2.

(** The scheduler after two ticks, the second of which ran the task. *)
Definition executed : State := (exec sampleBody sampleClock [Tick; Tick] scheduled).1.

(** *** Identifiers and queue entries *)

(** Over the events [ev] the identifiers that [delay] handed out are the
    successors of [i], one after the other, when the counter had room for
    them. *)
Definition issues (i : Z) (ev : list Event) : Prop :=
  0 <= i -> i + Z.of_nat (length (scheduledIds ev)) < 2 ^ 64 ->
  scheduledIds ev = seqZ (i + 1) (Z.of_nat (length (scheduledIds ev))).

(** What a call of a delayed task shows of the task. *)
Definition called (d : DelayOperation) : Z * FuncId := (index d, func d).

(** A callback that calls neither [sync] nor [delay]. *)
Fixpoint plain (s : Script) : Prop :=
  match s with
  | Finish _ => True
  | CallAsync _ k | CallCancelDelay _ k => plain k
  | CallSync _ _ | CallDelay _ _ _ => False
  end.

(** Callback 1 schedules callback 3 with no delay and returns. *)
Definition chainingBody (f : FuncId) : Script :=
  match f with
  | 1%nat => CallDelay 0 3%nat (fun _ => Finish Returns)
  | _ => Finish Returns
  end.

(** The state once [m_sync_functions] has been copied and cleared, and
    the state once [m_delay_tasks] has. *)
Definition syncTaken (st : State) : State :=
  mkState [] (m_async_tasks st) (m_delay_tasks st)
          (m_delay_cancel_set st) (m_delay_index st) (clockReads st).

Definition delayTaken (st : State) : State :=
  mkState (m_sync_functions st) (m_async_tasks st) []
          (m_delay_cancel_set st) (m_delay_index st) (clockReads st).

(** *** The other threads *)

Section Interleaving.

Variable body : FuncId -> Script.
Variable now : nat -> Z.


End Interleaving.

(** *** The background loop *)

(** The loop is no part of the runs of the render thread above; one round
    of it is modelled here, as if it ran alone. *)
Section Background.

Variable body : FuncId -> Script.
Variable now : nat -> Z.



End Background.



(** *** More sample states *)

(** Callbacks 0 and 1 queued. *)
Definition escapingQueue : State := mkState [0%nat; 1%nat] [] [] ∅ 0 0.

(** Two delayed tasks, both due at the third clock reading; the first
    runs callback 0, the second callback 1. *)
Definition escapingPending : State :=
  mkState [] [] [mkDelayOperation 0 100 0%nat 1; mkDelayOperation 0 100 1%nat 2] ∅ 2 2.

(** Callbacks 2 and 1 queued, and two delayed tasks of which, at the
    third clock reading, the first is due and the second is not. *)
Definition mixedPending : State :=
  mkState [2%nat; 1%nat] []
          [mkDelayOperation 0 100 1%nat 1; mkDelayOperation 0 200 3%nat 2] ∅ 2 2.


End Threading.

(** ** Child management: facts *)

Lemma wrap64_small (z : Z) : is_size_t z -> wrap64 z = z.
Proof. unfold is_size_t, wrap64. intros H. apply Z.mod_small. exact H. Qed.

Lemma SIZE_MAX_eq : SIZE_MAX = 2 ^ 64 - 1.
Proof. reflexivity. Qed.

(** Adding [(size_t)-1] steps one down, and from 0 wraps to the largest
    value. *)
Lemma wrap64_pred (z : Z) : 0 < z < 2 ^ 64 -> wrap64 (z + SIZE_MAX) = z - 1.
Proof.
  intros H. rewrite SIZE_MAX_eq. unfold wrap64, SIZE_WIDTH.
  replace (z + (2 ^ 64 - 1)) with (z - 1 + 1 * 2 ^ 64) by lia.
  rewrite Z.mod_add by lia. apply Z.mod_small. lia.
Qed.

Lemma wrap64_zero_pred : wrap64 (0 + SIZE_MAX) = 2 ^ 64 - 1.
Proof. reflexivity. Qed.

Lemma getParentUserData_setParent p u v : getParentUserData (setParent p u v) = u.
Proof. destruct v; reflexivity. Qed.

Lemma viewId_setParent p u v : viewId (setParent p u v) = viewId v.
Proof. destruct v; reflexivity. Qed.

Lemma viewId_bumpIndex v : viewId (bumpIndex v) = viewId v.
Proof.
  unfold bumpIndex. destruct (getParentUserData v); [|reflexivity].
  destruct v; reflexivity.
Qed.

Lemma getParentUserData_bumpIndex v i :
  getParentUserData v = Some i -> getParentUserData (bumpIndex v) = Some (wrap64 (i + 1)).
Proof. unfold bumpIndex. intros ->. destruct v; reflexivity. Qed.

(** The re-stamping loop, run to the end of the vector, bumps exactly the
    children from its first index on. *)
Lemma restampFrom_all (n i : nat) (cs : list View) :
  n = (length cs - i)%nat ->
  restampFrom n i cs = take i cs ++ (bumpIndex <$> drop i cs).
Proof.
  revert i cs. induction n as [|n IH]; intros i cs Hn; simpl.
  - rewrite drop_ge by lia. rewrite take_ge by lia. simpl. by rewrite app_nil_r.
  - assert (Hi : (i < length cs)%nat) by lia.
    destruct (lookup_lt_is_Some_2 cs i Hi) as [x Hx].
    rewrite IH by (rewrite length_alter; lia).
    pose proof (take_drop_middle cs i x Hx) as Hsplit.
    assert (Hl : length (take i cs) = i) by (rewrite length_take; lia).
    set (l1 := take i cs) in *. set (l2 := drop (S i) cs) in *.
    rewrite <- Hsplit. clearbody l1 l2. subst i. clear.
    rewrite alter_app_r_alt by lia. rewrite Nat.sub_diag. simpl.
    rewrite (cons_middle (bumpIndex x) l1 l2), app_assoc.
    replace (S (length l1)) with (length (l1 ++ [bumpIndex x]))
      by (rewrite length_app; simpl; lia).
    rewrite take_app_length, !drop_app_length.
    rewrite <- app_assoc. reflexivity.
Qed.

(** The child sequence that [addView] leaves. *)
Lemma addView_children (this : Box) (view : View) (position : Z) (this' : Box) (hooks : list Hook) :
  addView this view position = Ok (this', hooks) ->
  0 <= position <= children_size this /\
  children this' =
    take (Z.to_nat position) (children this)
    ++ setParent (Some (self (bview this))) (Some position) view
    :: (bumpIndex <$> drop (Z.to_nat position) (children this)).
Proof.
  unfold addView, children_size.
  destruct (_ || _) eqn:Hc; [discriminate|].
  apply orb_false_iff in Hc as [H1 H2].
  apply Z.ltb_ge in H1, H2.
  intros [= <- <-]. split; [unfold children_size; lia|]. simpl.
  set (p := Z.to_nat position).
  assert (Hp : (p <= length (children this))%nat) by (unfold children_size in H1; lia).
  rewrite restampFrom_all by reflexivity.
  assert (Hl : length (take p (children this)) = p) by (rewrite length_take; lia).
  rewrite (cons_middle _ (take p (children this))), app_assoc.
  replace (S p) with (length (take p (children this)
                        ++ [setParent (Some (self (bview this))) (Some position) view]))
    by (rewrite length_app; simpl; lia).
  rewrite take_app_length, drop_app_length.
  rewrite <- app_assoc. reflexivity.
Qed.

(** [addView] keeps the index caches in step with the positions. *)
Lemma addView_indexCached (this : Box) (view : View) (position : Z) (this' : Box) (hooks : list Hook) :
  children_size this < 2 ^ 64 - 1 ->
  indexCached (children this) ->
  addView this view position = Ok (this', hooks) ->
  indexCached (children this').
Proof.
  intros Hsz Hinv Hadd.
  apply addView_children in Hadd as [Hpos ->].
  unfold children_size in *.
  set (p := Z.to_nat position) in *.
  assert (Hp : (p <= length (children this))%nat) by lia.
  assert (Hl : length (take p (children this)) = p) by (rewrite length_take; lia).
  intros i c Hi.
  destruct (decide (i < p)%nat) as [Hlt|Hge].
  - rewrite lookup_app_l in Hi by lia.
    rewrite lookup_take_lt in Hi by lia. by apply Hinv.
  - rewrite lookup_app_r in Hi by lia. rewrite Hl in Hi.
    destruct (i - p)%nat as [|k] eqn:Hk; simpl in Hi.
    + injection Hi as <-. rewrite getParentUserData_setParent.
      f_equal. lia.
    + rewrite list_lookup_fmap in Hi.
      rewrite lookup_drop in Hi.
      destruct (children this !! (p + k)%nat) as [x|] eqn:Hx; [|discriminate].
      injection Hi as <-.
      pose proof (lookup_lt_Some _ _ _ Hx) as Hlt.
      rewrite (getParentUserData_bumpIndex x (Z.of_nat (p + k))) by (by apply Hinv).
      f_equal. rewrite wrap64_small by (unfold is_size_t, SIZE_WIDTH; lia). lia.
Qed.

(** The child sequence that [removeView] leaves: the sequence without the
    first occurrence of the view, the others in their order and untouched. *)
Lemma removeView_children (this : Box) (ptr : ViewId) (free : bool) (i : nat) (c : View) :
  list_find (fun child => viewId child = ptr) (children this) = Some (i, c) ->
  children (removeView this (Some ptr) free).1 = delete i (children this).
Proof. unfold removeView. intros ->. reflexivity. Qed.

(** Removing a child that is not the last one leaves the cache of its next
    sibling one too high: [removeView] has no re-stamping loop. *)
Lemma removeView_breaks_indexCached (this : Box) (ptr : ViewId) (free : bool) (i : nat) (c : View) :
  indexCached (children this) ->
  list_find (fun child => viewId child = ptr) (children this) = Some (i, c) ->
  (S i < length (children this))%nat ->
  ~ indexCached (children (removeView this (Some ptr) free).1).
Proof.
  intros Hinv Hfind Hlt Hbad.
  rewrite (removeView_children this ptr free i c Hfind) in Hbad.
  destruct (lookup_lt_is_Some_2 (children this) (S i) Hlt) as [x Hx].
  specialize (Hbad i x). rewrite list_lookup_delete_ge in Hbad by lia.
  specialize (Hbad Hx). rewrite (Hinv (S i) x Hx) in Hbad.
  injection Hbad. lia.
Qed.

(** C1, at a failing input.  A row receives the views 2 and 3; every index
    cache then holds the position of its view.  After [removeView] of view
    2 the sequence is the view 3 alone, in order, but its cache still holds
    1 while it stands at position 0: the invariant is broken. *)
Theorem removeView_leaves_stale_index :
  let removed := (removeView rowOfTwo (Some 2%nat) false).1 in
  indexCached (children rowOfTwo)
  /\ viewId <$> children rowOfTwo = [2%nat; 3%nat]
  /\ viewId <$> children removed = [3%nat]
  /\ getParentUserData <$> children removed = [Some 1]
  /\ ~ indexCached (children removed).
Proof.
  cbv zeta. split; [|split; [|split; [|split]]].
  - intros [|[|i]] c; vm_compute; intros [= <-]; reflexivity.
  - reflexivity.
  - reflexivity.
  - reflexivity.
  - intros H. specialize (H 0%nat _ eq_refl). vm_compute in H. discriminate.
Qed.

(** C6.  [addView(view, position)] is fatal for every position outside
    [0, childCount]; for a position inside, it returns normally, the view
    stands at [position] in the child sequence with its siblings around it
    in their order, the layout node receives the view at the same index
    unless the view is detached, and the layout is marked dirty.  When the
    layout node has a child at every index below [position], the node of
    the view is its child number [position]; when its children mirror the
    child sequence, they still do afterwards. *)
Theorem addView_position_contract (this : Box) (view : View) (position : Z) :
  ((position < 0 \/ children_size this < position) ->
     addView this view position = Fatal (CannotInsertView (children_size this) position))
  /\ (0 <= position <= children_size this ->
      exists this',
        addView this view position = Ok (this', [WillAppear (viewId view)])
        /\ children this' !! Z.to_nat position
           = Some (setParent (Some (self (bview this))) (Some position) view)
        /\ viewId <$> children this'
           = take (Z.to_nat position) (viewId <$> children this)
             ++ viewId view :: drop (Z.to_nat position) (viewId <$> children this)
        /\ ygChildren this'
           = (if isDetached view then ygChildren this
              else YGNodeInsertChild (ygChildren this) (getYGNode view) position)
        /\ layoutDirty this' = true
        /\ (isDetached view = false ->
            (Z.to_nat position <= length (ygChildren this))%nat ->
            ygChildren this' !! Z.to_nat position = Some (getYGNode view))
        /\ (isDetached view = false ->
            ygChildren this = viewId <$> children this ->
            ygChildren this' = viewId <$> children this')).
Proof.
  split.
  - intros H. unfold addView.
    destruct (_ || _) eqn:Hc; [reflexivity|].
    apply orb_false_iff in Hc as [H1 H2]. apply Z.ltb_ge in H1, H2. lia.
  - intros H.
    destruct (addView this view position) as [[this' hooks]|e] eqn:Hadd.
    + pose proof (addView_children _ _ _ _ _ Hadd) as [_ Hcs].
      exists this'.
      assert (Hl : length (take (Z.to_nat position) (children this)) = Z.to_nat position)
        by (rewrite length_take; unfold children_size in H; lia).
      assert (Hids : viewId <$> children this'
                     = take (Z.to_nat position) (viewId <$> children this)
                       ++ viewId view :: drop (Z.to_nat position) (viewId <$> children this)).
      { rewrite Hcs. rewrite fmap_app, fmap_cons, fmap_take.
        rewrite viewId_setParent. do 2 f_equal.
        rewrite <- list_fmap_compose, <- fmap_drop. apply list_fmap_ext.
        intros ? x ?. apply viewId_bumpIndex. }
      assert (Hyg : ygChildren this'
                    = (if isDetached view then ygChildren this
                       else YGNodeInsertChild (ygChildren this) (getYGNode view) position)).
      { revert Hadd. unfold addView. destruct (_ || _); [discriminate|].
        intros [= <- <-]. reflexivity. }
      split; [|split; [|split; [exact Hids|split; [exact Hyg|split; [|split]]]]].
      * revert Hadd. unfold addView. destruct (_ || _); [discriminate|].
        intros [= <- <-]. reflexivity.
      * rewrite Hcs. rewrite lookup_app_r by lia. rewrite Hl, Nat.sub_diag. reflexivity.
      * revert Hadd. unfold addView. destruct (_ || _); [discriminate|].
        intros [= <- <-]. reflexivity.
      * intros Hdet Hroom. rewrite Hyg, Hdet. unfold YGNodeInsertChild.
        assert (Hly : length (take (Z.to_nat position) (ygChildren this)) = Z.to_nat position)
          by (rewrite length_take; lia).
        rewrite lookup_app_r by lia. rewrite Hly, Nat.sub_diag. reflexivity.
      * intros Hdet Hmirror. rewrite Hyg, Hdet, Hids, Hmirror. reflexivity.
    + exfalso. revert Hadd. unfold addView.
      destruct (_ || _) eqn:Hc; [|discriminate].
      apply orb_true_iff in Hc as [Hc|Hc]; apply Z.ltb_lt in Hc; lia.
Qed.

(** [addView(v, 5)] into a Box with two children is fatal; [addView(v, 1)]
    puts the view between them. *)
Lemma addView_position_witness :
  addView rowOfTwo (plainView 4 true) 5 = Fatal (CannotInsertView 2 5)
  /\ exists this',
       addView rowOfTwo (plainView 4 true) 1 = Ok (this', [WillAppear 4%nat])
       /\ viewId <$> children this' = [2%nat; 4%nat; 3%nat]
       /\ ygChildren this' = [2%nat; 4%nat; 3%nat].
Proof.
  split.
  - apply (proj1 (addView_position_contract rowOfTwo (plainView 4 true) 5)).
    right. vm_compute. reflexivity.
  - destruct (proj2 (addView_position_contract rowOfTwo (plainView 4 true) 1))
      as (this' & H1 & _ & H3 & H4 & _).
    + split; vm_compute; discriminate.
    + exists this'. split; [exact H1|]. split; [exact H3|exact H4].
Defined.

(** C7.  [removeView] of a view that is not among the children (a null
    pointer included) returns the Box as it was, so that the child
    sequence, the layout node and the dirty flag are unchanged, and it makes
    no call on any view. *)
Theorem removeView_absent_noop (this : Box) (view : option ViewId) (free : bool) :
  (forall ptr, view = Some ptr -> ptr ∉ (viewId <$> children this)) ->
  removeView this view free = (this, []).
Proof.
  intros H. unfold removeView. destruct view as [ptr|]; [|reflexivity].
  destruct (list_find _ _) as [[i c]|] eqn:Hf; [|reflexivity].
  exfalso. apply list_find_Some in Hf as (Hi & Hc & _).
  apply (H ptr eq_refl). rewrite <- Hc.
  apply list_elem_of_fmap. exists c. split; [reflexivity|].
  by apply list_elem_of_lookup_2 with i.
Qed.

Lemma removeView_absent_witness :
  removeView rowOfTwo (Some 9%nat) true = (rowOfTwo, []).
Proof.
  apply (removeView_absent_noop rowOfTwo (Some 9%nat) true).
  intros ptr [= <-]. change (9%nat ∉ [2%nat; 3%nat]).
  repeat (apply not_elem_of_cons; split; [discriminate|]).
  apply not_elem_of_nil.
Defined.

(** ** Attribute forwarding: facts *)

(** C8.  [forwardXMLAttribute] is fatal, in the call that registers, when
    the target attribute is not valid on the target or when the name is
    already forwarded; otherwise it returns, and from then on
    [applyXMLAttribute] with that name is the application of the target
    attribute on the target, the base implementation being left out. *)
Theorem forwardXMLAttribute_contract (W : Type)
    (isXMLAttributeValid : ViewId -> string -> bool)
    (applyOnTarget View_applyXMLAttribute : ViewId -> string -> string -> W -> bool * W)
    (this : Box) (name : string) (target : ViewId) (targetName : string) :
  (isXMLAttributeValid target targetName = false ->
     forwardXMLAttribute isXMLAttributeValid this name target targetName
     = Fatal (NotAValidAttribute name targetName))
  /\ (isXMLAttributeValid target targetName = true ->
      is_Some (forwardedAttributes this !! name) ->
      forwardXMLAttribute isXMLAttributeValid this name target targetName
      = Fatal (ForwardedTwice name))
  /\ (isXMLAttributeValid target targetName = true ->
      forwardedAttributes this !! name = None ->
      exists this',
        forwardXMLAttribute isXMLAttributeValid this name target targetName = Ok this'
        /\ forwardedAttributes this' !! name = Some (targetName, target)
        /\ forall value w,
             applyXMLAttribute W applyOnTarget View_applyXMLAttribute this' name value w
             = applyOnTarget target targetName value w).
Proof.
  unfold forwardXMLAttribute, isForwarded. split; [|split].
  - intros ->. reflexivity.
  - intros -> Hs. simpl. rewrite bool_decide_eq_true_2 by exact Hs. reflexivity.
  - intros -> Hn. simpl.
    rewrite bool_decide_eq_false_2 by (rewrite Hn; apply is_Some_None).
    eexists. split; [reflexivity|].
    assert (Hl : forwardedAttributes
                   (withForwardedAttributes this
                      (<[name:=(targetName, target)]> (forwardedAttributes this))) !! name
                 = Some (targetName, target)) by (simpl; apply lookup_insert_eq).
    split; [exact Hl|].
    intros value w. unfold applyXMLAttribute. rewrite Hl. reflexivity.
Qed.

(** Forwarding [title] to the unknown attribute [colour] of view 2 is fatal
    when it is registered; forwarding it to [text] succeeds, applications
    of [title] then reach view 2 as [text], and a second registration of
    [title] is fatal. *)
Lemma forwardXMLAttribute_witness :
  forwardXMLAttribute sampleValid rowOfTwo "title" 2 "colour"
  = Fatal (NotAValidAttribute "title" "colour")
  /\ exists this',
       forwardXMLAttribute sampleValid rowOfTwo "title" 2 "text" = Ok this'
       /\ applyXMLAttribute _ sampleApplyOnTarget sampleApplyLocally this' "title" "Hi" []
          = (true, [(2%nat, "text"%string, "Hi"%string)])
       /\ forwardXMLAttribute sampleValid this' "title" 3 "text"
          = Fatal (ForwardedTwice "title").
Proof.
  split.
  - apply (proj1 (forwardXMLAttribute_contract _ sampleValid sampleApplyOnTarget
                    sampleApplyLocally rowOfTwo "title" 2 "colour")).
    reflexivity.
  - destruct (proj2 (proj2 (forwardXMLAttribute_contract _ sampleValid sampleApplyOnTarget
                              sampleApplyLocally rowOfTwo "title" 2 "text")))
      as (this' & H1 & H2 & H3); [reflexivity|reflexivity|].
    exists this'. split; [exact H1|]. split.
    + rewrite H3. reflexivity.
    + apply (proj1 (proj2 (forwardXMLAttribute_contract _ sampleValid sampleApplyOnTarget
                              sampleApplyLocally this' "title" 3 "text"))).
      * reflexivity.
      * rewrite H2. by eexists.
Defined.

(** ** The default focused index: facts *)

(** C10.  A negative [index] leaves the Box as it was; a non-negative one is
    stored; so the stored index changes only to a non-negative argument. *)
Theorem setDefaultFocusedIndex_negative_noop (this : Box) (index : Z) :
  (index < 0 -> setDefaultFocusedIndex this index = this)
  /\ (0 <= index -> is_int index ->
      defaultFocusedIndex (setDefaultFocusedIndex this index) = index)
  /\ (defaultFocusedIndex (setDefaultFocusedIndex this index) <> defaultFocusedIndex this ->
      0 <= index).
Proof.
  unfold setDefaultFocusedIndex. split; [|split].
  - intros H. apply Z.ltb_lt in H. rewrite H. reflexivity.
  - intros H Hint. destruct (index <? 0) eqn:Hc; [apply Z.ltb_lt in Hc; lia|].
    simpl. apply wrap64_small. unfold is_int in Hint. unfold is_size_t, SIZE_WIDTH. lia.
  - destruct (index <? 0) eqn:Hc; [congruence|]. apply Z.ltb_ge in Hc. lia.
Qed.

Lemma setDefaultFocusedIndex_witness :
  setDefaultFocusedIndex rowOfTwo (-3) = rowOfTwo
  /\ defaultFocusedIndex (setDefaultFocusedIndex rowOfTwo 1) = 1.
Proof.
  split.
  - apply (proj1 (setDefaultFocusedIndex_negative_noop rowOfTwo (-3))). lia.
  - apply (proj1 (proj2 (setDefaultFocusedIndex_negative_noop rowOfTwo 1))).
    + lia.
    + unfold is_int. lia.
Defined.

(** ** Focus resolution: facts *)

Lemma firstResolved_Some (rs : list (option View)) (f : View) :
  firstResolved rs = Some f <->
  exists i : nat, rs !! i = Some (Some f) /\ forall j : nat, (j < i)%nat -> rs !! j = Some None.
Proof.
  induction rs as [|[g|] rs IH]; simpl.
  - split; [discriminate|]. intros (i & H & _). by rewrite lookup_nil in H.
  - split.
    + intros [= ->]. exists 0%nat. split; [reflexivity|]. intros j Hj. lia.
    + intros ([|i] & H & Hlt).
      * simpl in H. congruence.
      * specialize (Hlt 0%nat ltac:(lia)). simpl in Hlt. discriminate.
  - rewrite IH. split.
    + intros (i & H & Hlt). exists (S i). split; [exact H|].
      intros [|j] Hj; [reflexivity|]. simpl. apply Hlt. lia.
    + intros ([|i] & H & Hlt); [simpl in H; discriminate|].
      exists i. split; [exact H|]. intros j Hj. apply (Hlt (S j)). lia.
Qed.

Lemma firstResolved_None (rs : list (option View)) :
  firstResolved rs = None <-> Forall (fun r => r = None) rs.
Proof.
  induction rs as [|[g|] rs IH]; simpl.
  - split; [constructor|reflexivity].
  - split; [discriminate|]. intros H. by apply Forall_cons in H as [? _].
  - rewrite IH. split; [by constructor|]. intros H. by apply Forall_cons in H as [_ ?].
Qed.

(** Whatever [getDefaultFocus] resolves to is a focusable view, which
    resolves to itself. *)
Lemma getDefaultFocus_focusable (v r : View) :
  getDefaultFocus v = Some r -> isFocusable r = true.
Proof.
  revert r. induction v as [b|b IHcs IHl] using View_induction; intros r; simpl.
  - destruct (focusable b) eqn:Hf; [|discriminate]. intros [= <-]. exact Hf.
  - destruct (focusable (bview b)) eqn:Hf; [intros [= <-]; exact Hf|].
    destruct (lastFocusedView b) as [l|]; [apply IHl|].
    assert (Hall : forall i g, (getDefaultFocus <$> children b) !! i = Some (Some g) ->
                               isFocusable g = true).
    { intros i g Hi. rewrite list_lookup_fmap in Hi.
      destruct (children b !! i) as [c|] eqn:Hc; [|discriminate].
      injection Hi as Hi. eapply Forall_lookup_1 in IHcs; [|exact Hc]. by apply IHcs. }
    destruct (if defaultFocusedIndex b <? _ then _ else None) as [g|] eqn:Hd.
    + intros [= <-]. destruct (_ <? _); [|discriminate].
      destruct (_ !! _) as [[g'|]|] eqn:Hi; simpl in Hd; try discriminate.
      injection Hd as <-. by eapply Hall.
    + intros Hr. apply firstResolved_Some in Hr as (i & Hi & _). by eapply Hall.
Qed.

Lemma getDefaultFocus_idempotent (v r : View) :
  getDefaultFocus v = Some r -> getDefaultFocus r = Some r.
Proof.
  intros H. apply getDefaultFocus_focusable in H.
  unfold isFocusable in H. destruct r as [b|b]; simpl in *; by rewrite H.
Qed.

(** In a subtree where no Box remembers a view, the resolution is decided
    by the focusable views of the subtree. *)
Lemma getDefaultFocus_focusables (v : View) :
  remembersNothing v = true ->
  (focusables v = [] -> getDefaultFocus v = None)
  /\ (forall d, focusables v = [d] -> getDefaultFocus v = Some d).
Proof.
  induction v as [b|b IHcs _] using View_induction; simpl; intros Hrem.
  - unfold isFocusable. simpl. destruct (focusable b); simpl.
    + split; [discriminate|]. by intros d [= <-].
    + split; [reflexivity|discriminate].
  - unfold isFocusable. simpl.
    destruct (lastFocusedView b) as [l|]; [discriminate|].
    destruct (focusable (bview b)); simpl.
    + split; [discriminate|]. by intros d [= <- _].
    + assert (Hlist :
        (concat (focusables <$> children b) = [] ->
           Forall (fun r => r = None) (getDefaultFocus <$> children b))
        /\ (forall d, concat (focusables <$> children b) = [d] ->
              firstResolved (getDefaultFocus <$> children b) = Some d
              /\ Forall (fun r => r = None \/ r = Some d) (getDefaultFocus <$> children b))).
      { revert IHcs Hrem. generalize (children b). clear b. intros cs.
        induction cs as [|c cs IH]; intros HP Hrem; simpl.
        - split; [constructor|discriminate].
        - apply Forall_cons in HP as [Hc Hcs].
          apply andb_true_iff in Hrem as [Hrc Hrcs].
          destruct (Hc Hrc) as [Hc0 Hc1]. destruct (IH Hcs Hrcs) as [IH0 IH1].
          split.
          + intros Happ. apply app_eq_nil in Happ as [H1 H2].
            constructor; [by apply Hc0|by apply IH0].
          + intros d Happ. apply app_eq_unit in Happ as [[H1 H2]|[H1 H2]].
            * destruct (IH1 d H2) as [Hf Ha]. rewrite (Hc0 H1). split; [exact Hf|].
              constructor; [by left|exact Ha].
            * rewrite (Hc1 d H1). split; [reflexivity|].
              constructor; [by right|].
              eapply Forall_impl; [apply (IH0 H2)|]. intros r ->. by left. }
      destruct Hlist as [Hl0 Hl1]. split.
      * intros H0. specialize (Hl0 H0).
        assert (Hfr : firstResolved (getDefaultFocus <$> children b) = None)
          by (by apply firstResolved_None).
        destruct (_ <? _); [|exact Hfr].
        destruct (_ !! _) as [r|] eqn:Hi; simpl; [|exact Hfr].
        eapply Forall_lookup_1 in Hl0; [|exact Hi]. subst r. exact Hfr.
      * intros d H1. destruct (Hl1 d H1) as [Hfr Hall].
        destruct (_ <? _); [|exact Hfr].
        destruct (_ !! _) as [r|] eqn:Hi; simpl; [|exact Hfr].
        eapply Forall_lookup_1 in Hall; [|exact Hi].
        destruct Hall as [->| ->]; [exact Hfr|reflexivity].
Qed.

(** The focusable views of a subtree are the focusable ones among its root
    and the descendants of the root. *)
Lemma focusables_filter (v : View) :
  focusables v = filter (fun x => isFocusable x = true) (v :: descendants v).
Proof.
  induction v as [b|b IHcs _] using View_induction.
  - simpl. rewrite filter_cons, filter_nil.
    destruct (decide _) as [->|Hn]; [reflexivity|].
    by destruct (isFocusable (Leaf b)).
  - cbn [focusables descendants]. rewrite filter_cons.
    assert (Hcs : concat (focusables <$> children b)
                  = filter (fun x => isFocusable x = true)
                           (concat ((fun c => c :: descendants c) <$> children b))).
    { revert IHcs. generalize (children b). intros cs.
      induction cs as [|c cs IH]; intros HP; [reflexivity|].
      apply Forall_cons in HP as [Hc Hcs].
      rewrite !fmap_cons. cbn [concat].
      rewrite Hc, (IH Hcs). rewrite <- filter_app. reflexivity. }
    rewrite Hcs.
    destruct (decide _) as [->|Hn]; [reflexivity|].
    by destruct (isFocusable (BoxV b)).
Qed.

Lemma focusable_descendants (this : Box) :
  filter (fun x => isFocusable x = true) (descendants (BoxV this))
  = concat (focusables <$> children this).
Proof.
  cbn [descendants]. generalize (children this). intros cs.
  induction cs as [|c cs IH]; [reflexivity|].
  rewrite !fmap_cons. cbn [concat].
  rewrite <- IH, focusables_filter, <- filter_app. reflexivity.
Qed.

(** The branches of [Box::getDefaultFocus], one by one.  The Box is
    returned when it is focusable; otherwise, when a last focused view is
    remembered, what that view resolves to is returned as it is; otherwise
    the resolution of the child at [defaultFocusedIndex] when there is such
    a child and it resolves; otherwise the resolution of the first child,
    in sequence order, that resolves, and null when none does. *)
Lemma Box_getDefaultFocus_cascade (this : Box) :
  (focusable (bview this) = true -> Box_getDefaultFocus this = Some (BoxV this))
  /\ (focusable (bview this) = false ->
      forall l, lastFocusedView this = Some l ->
      Box_getDefaultFocus this = getDefaultFocus l)
  /\ (focusable (bview this) = false -> lastFocusedView this = None ->
      0 <= defaultFocusedIndex this ->
      forall c f,
        children this !! Z.to_nat (defaultFocusedIndex this) = Some c ->
        getDefaultFocus c = Some f ->
        Box_getDefaultFocus this = Some f)
  /\ (focusable (bview this) = false -> lastFocusedView this = None ->
      0 <= defaultFocusedIndex this ->
      (forall c, children this !! Z.to_nat (defaultFocusedIndex this) = Some c ->
                 getDefaultFocus c = None) ->
      Box_getDefaultFocus this = firstResolved (getDefaultFocus <$> children this))
  /\ (forall f,
        firstResolved (getDefaultFocus <$> children this) = Some f <->
        exists (i : nat) (c : View),
          children this !! i = Some c /\ getDefaultFocus c = Some f
          /\ forall (j : nat) (c' : View),
               (j < i)%nat -> children this !! j = Some c' -> getDefaultFocus c' = None)
  /\ (firstResolved (getDefaultFocus <$> children this) = None <->
      forall c, c ∈ children this -> getDefaultFocus c = None)
  /\ (focusable (bview this) = false -> lastFocusedView this = None ->
      children this = [] ->
      Box_getDefaultFocus this = None)
  /\ (focusable (bview this) = false -> remembersNothing (BoxV this) = true ->
      forall d,
        filter (fun x => isFocusable x = true) (descendants (BoxV this)) = [d] ->
        Box_getDefaultFocus this = Some d).
Proof.
  unfold Box_getDefaultFocus.
  split; [|split; [|split; [|split; [|split; [|split; [|split]]]]]].
  - intros Hf. simpl. by rewrite Hf.
  - intros Hf l Hl. simpl. by rewrite Hf, Hl.
  - intros Hf Hl H0 c f Hc Hr. simpl. rewrite Hf, Hl.
    pose proof (lookup_lt_Some _ _ _ Hc) as Hlt.
    destruct (_ <? _) eqn:Hb; [|apply Z.ltb_ge in Hb; lia].
    rewrite list_lookup_fmap, Hc. simpl. by rewrite Hr.
  - intros Hf Hl H0 Hnone. simpl. rewrite Hf, Hl.
    destruct (_ <? _) eqn:Hb; [|reflexivity].
    rewrite list_lookup_fmap.
    destruct (children this !! _) as [c|] eqn:Hc; simpl; [|reflexivity].
    by rewrite (Hnone c eq_refl).
  - intros f. rewrite firstResolved_Some. split.
    + intros (i & Hi & Hlt). rewrite list_lookup_fmap in Hi.
      destruct (children this !! i) as [c|] eqn:Hc; [|discriminate].
      injection Hi as Hi. exists i, c. split; [exact Hc|]. split; [exact Hi|].
      intros j c' Hj Hc'. specialize (Hlt j Hj).
      rewrite list_lookup_fmap, Hc' in Hlt. by injection Hlt.
    + intros (i & c & Hc & Hr & Hlt). exists i. split.
      * by rewrite list_lookup_fmap, Hc, <- Hr.
      * intros j Hj. rewrite list_lookup_fmap.
        pose proof (lookup_lt_Some _ _ _ Hc) as Hi.
        destruct (lookup_lt_is_Some_2 (children this) j ltac:(lia)) as [c' Hc'].
        rewrite Hc'. simpl. by rewrite (Hlt j c' Hj Hc').
  - rewrite firstResolved_None, Forall_fmap, Forall_forall. reflexivity.
  - intros Hf Hl Hcs. simpl. rewrite Hf, Hl, Hcs. simpl.
    by destruct (_ <? _).
  - intros Hf Hrem d Hd.
    apply (proj2 (getDefaultFocus_focusables (BoxV this) Hrem)).
    cbn [focusables]. unfold isFocusable. cbn [baseOf]. rewrite Hf.
    rewrite <- focusable_descendants. exact Hd.
Qed.

(** C3, at a failing input.  The row [staleMemoryRow] cannot take the
    focus, holds the views 2 and 3 and remembers view 2, which cannot take
    the focus any more; view 3 is its one focusable descendant, to which
    the row is specified to resolve.  [Box::getDefaultFocus] returns what
    the remembered view resolves to without the test that the two branches
    below make on their result: the row resolves to null.  With nothing
    remembered, the same row reaches view 3 through those branches.  So
    it is for every Box that cannot take the focus: when its remembered
    view resolves to null it resolves to null, whatever its children
    resolve to.  Where the untested return is not taken, the resolution is
    the specified one: an empty Box that cannot take the focus and
    remembers no view resolves to null, and a Box that cannot take the
    focus and has exactly one focusable descendant, at any depth, resolves
    to it when no Box of its subtree remembers a view. *)
Theorem Box_getDefaultFocus_stale_memory :
  focusable (bview staleMemoryRow) = false
  /\ children staleMemoryRow
     = [Leaf (mkViewBase 2 false false (Some 1%nat) (Some 0));
        Leaf (mkViewBase 3 true false (Some 1%nat) (Some 1))]
  /\ lastFocusedView staleMemoryRow
     = Some (Leaf (mkViewBase 2 false false (Some 1%nat) (Some 0)))
  /\ getDefaultFocus (Leaf (mkViewBase 2 false false (Some 1%nat) (Some 0))) = None
  /\ filter (fun x => isFocusable x = true) (descendants (BoxV staleMemoryRow))
     = [Leaf (mkViewBase 3 true false (Some 1%nat) (Some 1))]
  /\ Box_getDefaultFocus staleMemoryRow = None
  /\ Box_getDefaultFocus
       (mkBox (bview staleMemoryRow) (axis staleMemoryRow) (children staleMemoryRow)
              (ygChildren staleMemoryRow) None (defaultFocusedIndex staleMemoryRow)
              (layoutDirty staleMemoryRow) (forwardedAttributes staleMemoryRow))
     = Some (Leaf (mkViewBase 3 true false (Some 1%nat) (Some 1)))
  /\ (forall this l,
        focusable (bview this) = false ->
        lastFocusedView this = Some l ->
        getDefaultFocus l = None ->
        Box_getDefaultFocus this = None)
  /\ (forall this,
        focusable (bview this) = false -> lastFocusedView this = None ->
        children this = [] ->
        Box_getDefaultFocus this = None)
  /\ (forall this d,
        focusable (bview this) = false -> remembersNothing (BoxV this) = true ->
        filter (fun x => isFocusable x = true) (descendants (BoxV this)) = [d] ->
        Box_getDefaultFocus this = Some d).
Proof.
  do 7 (split; [reflexivity|]).
  split; [|split].
  - intros this l Hf Hl Hnull.
    destruct (Box_getDefaultFocus_cascade this) as (_ & Hmem & _).
    by rewrite (Hmem Hf l Hl).
  - intros this. apply (Box_getDefaultFocus_cascade this).
  - intros this d Hf Hrem. by apply (Box_getDefaultFocus_cascade this).
Qed.

(** ** Directional navigation: facts *)

Lemma scanLoop_found (fuel : nat) (cs : list View) (offset : Z) (g : View) (i : Z) :
  scanLoop (S fuel) cs offset (Some g) i = Some (Some g).
Proof. reflexivity. Qed.

Lemma scanGuard_null (cs : list View) (i : Z) :
  0 <= i -> scanGuard cs None i = (i <? Z.of_nat (length cs)).
Proof.
  intros H. unfold scanGuard. simpl.
  by rewrite (proj2 (Z.leb_le 0 i) H).
Qed.

(** Scanning with the offset 1. *)
Lemma scanLoop_forward (fuel : nat) (cs : list View) (s : Z) :
  0 <= s -> Z.of_nat (length cs) < 2 ^ 64 ->
  (0 < fuel)%nat -> Z.of_nat (length cs) - s < Z.of_nat fuel ->
  scanLoop fuel cs 1 None s
  = Some (firstResolved (getDefaultFocus <$> drop (Z.to_nat s) cs)).
Proof.
  revert s. induction fuel as [|fuel IH]; intros s Hs Hlen Hpos Hfuel; [lia|].
  cbn [scanLoop]. rewrite scanGuard_null by exact Hs.
  destruct (s <? Z.of_nat (length cs)) eqn:Hlt.
  - apply Z.ltb_lt in Hlt.
    destruct (lookup_lt_is_Some_2 cs (Z.to_nat s) ltac:(lia)) as [c Hc].
    rewrite Hc. rewrite (drop_S _ _ _ Hc). rewrite fmap_cons. cbn [firstResolved].
    destruct (getDefaultFocus c) as [g|] eqn:Hg.
    + destruct fuel; [lia|]. apply scanLoop_found.
    + rewrite wrap64_small by (unfold is_size_t, SIZE_WIDTH; lia).
      rewrite IH by lia.
      replace (Z.to_nat (s + 1)) with (S (Z.to_nat s)) by lia. reflexivity.
  - apply Z.ltb_ge in Hlt. rewrite drop_ge by lia. reflexivity.
Qed.

(** Scanning with the offset [(size_t)-1]: the index steps down, and from 0
    it wraps to [2^64 - 1], which no vector size exceeds. *)
Lemma scanLoop_backward (n fuel : nat) (cs : list View) :
  (n < length cs)%nat -> Z.of_nat (length cs) < 2 ^ 64 ->
  (n + 2 <= fuel)%nat ->
  scanLoop fuel cs SIZE_MAX None (Z.of_nat n)
  = Some (firstResolved (getDefaultFocus <$> reverse (take (S n) cs))).
Proof.
  revert fuel. induction n as [|n IH]; intros fuel Hn Hlen Hfuel.
  - destruct fuel as [|[|fuel]]; try lia.
    destruct (lookup_lt_is_Some_2 cs 0%nat Hn) as [c Hc].
    rewrite (take_S_r _ _ _ Hc), reverse_snoc, fmap_cons.
    change (Z.of_nat 0) with 0.
    cbn [scanLoop]. rewrite scanGuard_null by lia.
    rewrite (proj2 (Z.ltb_lt 0 (Z.of_nat (length cs)))) by lia.
    change (Z.to_nat 0) with 0%nat. rewrite Hc. cbn [firstResolved].
    destruct (getDefaultFocus c) as [g|]; [reflexivity|].
    rewrite wrap64_zero_pred. unfold scanGuard. cbn [isNull].
    rewrite (proj2 (Z.ltb_ge (2 ^ 64 - 1) (Z.of_nat (length cs)))) by lia.
    rewrite andb_false_r. reflexivity.
  - destruct fuel as [|fuel]; [lia|].
    destruct (lookup_lt_is_Some_2 cs (S n) Hn) as [c Hc].
    rewrite (take_S_r _ _ _ Hc), reverse_snoc, fmap_cons.
    cbn [scanLoop]. rewrite scanGuard_null by lia.
    rewrite (proj2 (Z.ltb_lt (Z.of_nat (S n)) (Z.of_nat (length cs)))) by lia.
    rewrite Nat2Z.id, Hc. cbn [firstResolved].
    destruct (getDefaultFocus c) as [g|].
    + destruct fuel; [lia|]. apply scanLoop_found.
    + rewrite wrap64_pred by lia.
      replace (Z.of_nat (S n) - 1) with (Z.of_nat n) by lia.
      apply IH; lia.
Qed.

(** The loop of the code computes the scan of the specification. *)
Lemma scanLoop_siblingScan (cs : list View) (towardsEnd : bool) (start : Z) :
  is_size_t start -> Z.of_nat (length cs) < 2 ^ 64 ->
  scanLoop (S (length cs)) cs (if towardsEnd then 1 else SIZE_MAX) None start
  = Some (siblingScan cs towardsEnd start).
Proof.
  intros [Hs _] Hlen. unfold siblingScan. destruct towardsEnd.
  - apply scanLoop_forward; lia.
  - destruct (start <? Z.of_nat (length cs)) eqn:Hlt.
    + apply Z.ltb_lt in Hlt.
      rewrite <- (Z2Nat.id start) at 1 by lia.
      apply scanLoop_backward; lia.
    + cbn [scanLoop]. rewrite scanGuard_null by lia. by rewrite Hlt.
Qed.

(** Whatever the loop finds was found already or is the resolution of a
    child. *)
Lemma scanLoop_result (fuel : nat) (cs : list View) (offset : Z)
    (current : option View) (i : Z) (f : View) :
  scanLoop fuel cs offset current i = Some (Some f) ->
  current = Some f \/ exists c, c ∈ cs /\ getDefaultFocus c = Some f.
Proof.
  revert current i. induction fuel as [|fuel IH]; intros current i; [discriminate|].
  cbn [scanLoop]. destruct (scanGuard cs current i).
  - destruct (cs !! Z.to_nat i) as [c|] eqn:Hc; [|discriminate].
    intros H. apply IH in H as [H|H]; [|by right].
    right. exists c. split; [by eapply list_elem_of_lookup_2|exact H].
  - intros [= ->]. by left.
Qed.

Lemma siblingScan_child (cs : list View) (towardsEnd : bool) (start : Z) (f : View) :
  siblingScan cs towardsEnd start = Some f ->
  exists c, c ∈ cs /\ getDefaultFocus c = Some f.
Proof.
  unfold siblingScan. intros H.
  assert (Hsub : exists l, l ⊆ cs /\ firstResolved (getDefaultFocus <$> l) = Some f).
  { destruct towardsEnd.
    - eexists. split; [|exact H]. apply subseteq_drop.
    - destruct (start <? _); [|discriminate].
      eexists. split; [|exact H].
      intros x Hx. rewrite elem_of_reverse in Hx. exact (subseteq_take _ _ x Hx). }
  destruct Hsub as (l & Hl & Hf).
  apply firstResolved_Some in Hf as (i & Hi & _).
  rewrite list_lookup_fmap in Hi.
  destruct (l !! i) as [c|] eqn:Hc; [|discriminate]. injection Hi as Hi.
  exists c. split; [|exact Hi]. apply Hl. by eapply list_elem_of_lookup_2.
Qed.

Lemma traversalOffset_aligned (a : Axis) (direction : FocusDirection) :
  mismatchesAxis a direction = false ->
  traversalOffset a direction = (if movesTowardsEnd a direction then 1 else SIZE_MAX)
  /\ movesTowardsStart a direction = negb (movesTowardsEnd a direction).
Proof. destruct a, direction; simpl; intros H; try discriminate; split; reflexivity. Qed.

(** Box's own [getParentNavigationDecision] hands the candidate through. *)
Lemma getParentNavigationDecision_default navigationOverride
    (this : Box) (ancestors : list Box) (from : View) (newFocus : option View)
    (direction : FocusDirection) :
  (forall id, navigationOverride id = None) ->
  getParentNavigationDecision navigationOverride this ancestors from newFocus direction
  = newFocus.
Proof.
  intros Hnone. revert this. induction ancestors as [|p rest IH]; intros this; simpl.
  - by rewrite Hnone.
  - rewrite Hnone. apply IH.
Qed.

(** Without overrides, whatever [getNextFocus] returns resolves to itself:
    no view whose default focus is null is ever returned. *)
Lemma getNextFocus_resolves navigationOverride
    (this : Box) (ancestors : list Box) (direction : FocusDirection)
    (currentView r : View) :
  (forall id, navigationOverride id = None) ->
  getNextFocus navigationOverride this ancestors direction currentView = Some (Some r) ->
  getDefaultFocus r = Some r.
Proof.
  intros Hnone. revert this currentView.
  induction ancestors as [|p rest IH]; intros this currentView; cbn [getNextFocus];
    rewrite ?(getParentNavigationDecision_default _ _ _ _ _ _ Hnone).
  - destruct (mismatchesAxis _ _); [discriminate|].
    destruct (getParentUserData currentView) as [cached|]; [|discriminate].
    destruct (scanLoop _ _ _ _ _) as [scanned|] eqn:Hscan; [|discriminate].
    rewrite (getParentNavigationDecision_default _ _ _ _ _ _ Hnone).
    destruct scanned as [f|]; [|discriminate]. intros [= <-].
    apply scanLoop_result in Hscan as [Hscan|(c & _ & Hc)]; [discriminate|].
    by eapply getDefaultFocus_idempotent.
  - destruct (mismatchesAxis _ _); [apply IH|].
    destruct (getParentUserData currentView) as [cached|]; [|discriminate].
    destruct (scanLoop _ _ _ _ _) as [scanned|] eqn:Hscan; [|discriminate].
    rewrite (getParentNavigationDecision_default _ _ _ _ _ _ Hnone).
    destruct scanned as [f|]; [|apply IH]. intros [= <-].
    apply scanLoop_result in Hscan as [Hscan|(c & _ & Hc)]; [discriminate|].
    by eapply getDefaultFocus_idempotent.
Qed.

(** C2.  For a direction aligned with the axis of the Box and a current
    view whose index cache holds [cached], [getNextFocus] scans the
    siblings from [cached] plus the offset (1 towards the end for RIGHT on
    a row and DOWN on a column, -1 for LEFT on a row and UP on a column,
    in [size_t] arithmetic), skipping the siblings that resolve to null.
    What the scan yields is the resolution of a sibling and resolves to
    itself, so it is never a view whose default focus is null; the result
    of the call is what the navigation hook makes of it and, when that is
    null, what the parent Box answers.  When the scan finds nothing, the
    hook adds nothing and there is no parent, or the parent answers null,
    the call returns null.  With no override of the hook in the chain,
    every view the call returns resolves to itself. *)
Theorem getNextFocus_aligned_scan
    (navigationOverride : ViewId -> option (View -> option View -> FocusDirection -> option View))
    (this : Box) (ancestors : list Box) (direction : FocusDirection)
    (currentView : View) (cached : Z) :
  mismatchesAxis (axis this) direction = false ->
  getParentUserData currentView = Some cached ->
  is_size_t cached ->
  children_size this < 2 ^ 64 ->
  let towardsEnd := movesTowardsEnd (axis this) direction in
  let start := wrap64 (cached + (if towardsEnd then 1 else -1)) in
  let scanned := siblingScan (children this) towardsEnd start in
  movesTowardsStart (axis this) direction = negb towardsEnd
  /\ (forall f, scanned = Some f ->
        getDefaultFocus f = Some f
        /\ exists c, c ∈ children this /\ getDefaultFocus c = Some f)
  /\ getNextFocus navigationOverride this ancestors direction currentView
     = match getParentNavigationDecision navigationOverride this ancestors
               (BoxV this) scanned direction with
       | Some r => Some (Some r)
       | None =>
           match ancestors with
           | [] => Some None
           | p :: rest => getNextFocus navigationOverride p rest direction (BoxV this)
           end
       end
  /\ (scanned = None ->
      getParentNavigationDecision navigationOverride this ancestors (BoxV this) None direction
      = None ->
      (ancestors = []
       \/ exists p rest,
            ancestors = p :: rest
            /\ getNextFocus navigationOverride p rest direction (BoxV this) = Some None) ->
      getNextFocus navigationOverride this ancestors direction currentView = Some None)
  /\ ((forall id, navigationOverride id = None) ->
      forall r,
        getNextFocus navigationOverride this ancestors direction currentView = Some (Some r) ->
        getDefaultFocus r = Some r).
Proof.
  intros Halign Hcached Hsz Hlen towardsEnd start scanned.
  destruct (traversalOffset_aligned _ _ Halign) as [Hoff Hstart].
  assert (Hstart_eq : wrap64 (cached + traversalOffset (axis this) direction) = start).
  { rewrite Hoff. subst start towardsEnd.
    destruct (movesTowardsEnd _ _); [reflexivity|].
    rewrite SIZE_MAX_eq. unfold wrap64, SIZE_WIDTH.
    replace (cached + (2 ^ 64 - 1)) with (cached + -1 + 1 * 2 ^ 64) by lia.
    by rewrite Z.mod_add by lia. }
  assert (Hsize : is_size_t start).
  { subst start. unfold wrap64, is_size_t, SIZE_WIDTH. apply Z.mod_pos_bound. lia. }
  assert (Hscan : scanLoop (S (length (children this))) (children this)
                    (traversalOffset (axis this) direction) None
                    (wrap64 (cached + traversalOffset (axis this) direction))
                  = Some scanned).
  { rewrite Hstart_eq, Hoff. by apply scanLoop_siblingScan. }
  assert (Hcall :
    getNextFocus navigationOverride this ancestors direction currentView
    = match getParentNavigationDecision navigationOverride this ancestors
              (BoxV this) scanned direction with
      | Some r => Some (Some r)
      | None =>
          match ancestors with
          | [] => Some None
          | p :: rest => getNextFocus navigationOverride p rest direction (BoxV this)
          end
      end).
  { destruct ancestors as [|p rest]; cbn [getNextFocus];
      rewrite Halign, Hcached, Hscan;
      by destruct (getParentNavigationDecision _ _ _ _ _ _). }
  split; [exact Hstart|]. split; [|split; [exact Hcall|split]].
  - intros f Hf. destruct (siblingScan_child _ _ _ _ Hf) as (c & Hin & Hc).
    split; [by eapply getDefaultFocus_idempotent|by exists c].
  - intros Hnone Hhook Hup. rewrite Hcall, Hnone, Hhook.
    destruct Hup as [->|(p & rest & -> & Hp)]; [reflexivity|exact Hp].
  - intros Hdefault r. by apply getNextFocus_resolves.
Qed.

(** In [rowOfThree], RIGHT from the first view skips the middle view and
    reaches the last one; RIGHT from the last view exhausts the row, which
    has no parent, and the answer is null. *)
Lemma getNextFocus_aligned_witness :
  getNextFocus noOverride rowOfThree [] RIGHT
    (Leaf (mkViewBase 2 true false (Some 1%nat) (Some 0)))
  = Some (Some (Leaf (mkViewBase 4 true false (Some 1%nat) (Some 2))))
  /\ getNextFocus noOverride rowOfThree [] RIGHT
       (Leaf (mkViewBase 4 true false (Some 1%nat) (Some 2)))
     = Some None.
Proof.
  split.
  - destruct (getNextFocus_aligned_scan noOverride rowOfThree [] RIGHT
                (Leaf (mkViewBase 2 true false (Some 1%nat) (Some 0))) 0)
      as (_ & _ & H & _).
    + reflexivity.
    + reflexivity.
    + unfold is_size_t, SIZE_WIDTH. lia.
    + vm_compute. reflexivity.
    + rewrite H. reflexivity.
  - destruct (getNextFocus_aligned_scan noOverride rowOfThree [] RIGHT
                (Leaf (mkViewBase 4 true false (Some 1%nat) (Some 2))) 2)
      as (_ & _ & _ & H & _).
    + reflexivity.
    + reflexivity.
    + unfold is_size_t, SIZE_WIDTH. lia.
    + vm_compute. reflexivity.
    + apply H; [reflexivity|reflexivity|by left].
Defined.

(** C9.  The sibling scan ends for every vector, every starting index and
    both offsets the code uses: within one guard evaluation more than there
    are children it has left the loop, never having read outside the
    vector.  Stepping by [(size_t)-1] from index 0 yields [2^64 - 1], which
    is not below any vector size, so the guard fails there; the test
    [currentFocusIndex >= 0] holds for every [size_t] and the guard is
    decided by the other two tests. *)
Theorem scanLoop_terminates (cs : list View) (offset : Z)
    (currentFocus : option View) (start : Z) :
  Z.of_nat (length cs) < 2 ^ 64 ->
  is_size_t start ->
  offset = 1 \/ offset = SIZE_MAX ->
  is_Some (scanLoop (S (length cs)) cs offset currentFocus start)
  /\ wrap64 (0 + SIZE_MAX) = 2 ^ 64 - 1
  /\ Z.of_nat (length cs) <= wrap64 (0 + SIZE_MAX)
  /\ scanGuard cs None (wrap64 (0 + SIZE_MAX)) = false
  /\ (forall current i,
        is_size_t i ->
        scanGuard cs current i = (isNull current && (i <? Z.of_nat (length cs)))).
Proof.
  intros Hlen Hstart Hoff.
  assert (Hwrap : wrap64 (0 + SIZE_MAX) = 2 ^ 64 - 1) by reflexivity.
  split; [|split; [exact Hwrap|split; [rewrite Hwrap; lia|split]]].
  - destruct currentFocus as [g|]; [by eexists|].
    destruct Hoff as [-> | ->].
    + rewrite (scanLoop_siblingScan cs true start Hstart Hlen). by eexists.
    + rewrite (scanLoop_siblingScan cs false start Hstart Hlen). by eexists.
  - rewrite Hwrap. unfold scanGuard. rewrite (proj2 (Z.ltb_ge _ _)) by lia.
    apply andb_false_r.
  - intros current i [Hi _]. unfold scanGuard.
    rewrite (proj2 (Z.leb_le 0 i) Hi). by rewrite andb_true_r.
Qed.

(** LEFT from the first view of [rowOfThree]: the scan starts at the wrapped
    index and ends at once with no candidate. *)
Lemma scanLoop_terminates_witness :
  is_Some (scanLoop 4 (children rowOfThree) SIZE_MAX None (wrap64 (0 + SIZE_MAX)))
  /\ scanGuard (children rowOfThree) None (wrap64 (0 + SIZE_MAX)) = false.
Proof.
  destruct (scanLoop_terminates (children rowOfThree) SIZE_MAX None (wrap64 (0 + SIZE_MAX)))
    as (H1 & _ & _ & H4 & _).
  - vm_compute. reflexivity.
  - unfold is_size_t. vm_compute. split; [discriminate|reflexivity].
  - by right.
  - split; [exact H1|exact H4].
Defined.

(** ** Adding, removing and clearing: what the operations compose to *)

Lemma addView_length (this : Box) (view : View) (position : Z) (this' : Box)
    (hooks : list Hook) :
  addView this view position = Ok (this', hooks) ->
  length (children this') = S (length (children this)).
Proof.
  intros Hadd. apply addView_children in Hadd as [Hpos ->].
  unfold children_size in Hpos.
  rewrite length_app, length_take. cbn [length].
  rewrite length_fmap, length_drop. lia.
Qed.

(** The children after an insertion are the children before it and the
    view inserted. *)
Lemma addView_ids (this : Box) (view : View) (position : Z) (this' : Box)
    (hooks : list Hook) :
  addView this view position = Ok (this', hooks) ->
  viewId <$> children this' ≡ₚ viewId view :: (viewId <$> children this).
Proof.
  intros Hadd. apply addView_children in Hadd as [Hpos ->].
  rewrite fmap_app, fmap_cons, viewId_setParent, <- list_fmap_compose.
  rewrite (list_fmap_ext (viewId ∘ bumpIndex) viewId
             (drop (Z.to_nat position) (children this)))
    by (intros; apply viewId_bumpIndex).
  rewrite <- Permutation_middle, <- fmap_app, take_drop. reflexivity.
Qed.

(** X1.  The index-cache invariant is an invariant of insertion.  Take a
    Box whose children cache their positions, and a succession of
    [addView] calls that all pass the position check, at whatever
    positions, each with a view of its own: the views added are distinct
    from one another and from the children of the Box, which are distinct
    too.  As long as the child count stays below [SIZE_MAX], the calls
    leave a Box whose children cache their positions; the Box has gained
    one child per call, and its children are the former children and the
    views added, all distinct. *)
Theorem addViews_indexCached (calls : list (View * Z)) (this this' : Box) :
  NoDup (((fun call => viewId call.1) <$> calls) ++ (viewId <$> children this)) ->
  indexCached (children this) ->
  children_size this + Z.of_nat (length calls) < 2 ^ 64 ->
  addViews this calls = Ok this' ->
  indexCached (children this')
  /\ length (children this') = (length (children this) + length calls)%nat
  /\ viewId <$> children this'
     ≡ₚ ((fun call => viewId call.1) <$> calls) ++ (viewId <$> children this)
  /\ NoDup (viewId <$> children this').
Proof.
  revert this. induction calls as [|[view position] rest IH];
    intros this Hfresh Hinv Hroom Hrun.
  - injection Hrun as <-. split; [exact Hinv|]. split; [simpl; lia|].
    split; [reflexivity|exact Hfresh].
  - cbn [addViews] in Hrun.
    destruct (addView this view position) as [[mid hooks]|e] eqn:Hadd; [|discriminate].
    pose proof (addView_length _ _ _ _ _ Hadd) as Hlen.
    pose proof (addView_ids _ _ _ _ _ Hadd) as Hids.
    unfold children_size in *. cbn [length] in Hroom.
    rewrite fmap_cons in Hfresh |- *. cbn [fst app] in Hfresh |- *.
    assert (Hmid : ((fun call => viewId call.1) <$> rest) ++ (viewId <$> children mid)
                   ≡ₚ viewId view
                      :: ((fun call => viewId call.1) <$> rest)
                      ++ (viewId <$> children this)).
    { rewrite Hids. symmetry. apply Permutation_middle. }
    destruct (IH mid) as (Hres & Hcount & Hperm & Hdistinct).
    + by rewrite Hmid.
    + eapply addView_indexCached; [|exact Hinv|exact Hadd].
      unfold children_size. lia.
    + unfold children_size. lia.
    + exact Hrun.
    + split; [exact Hres|]. split; [rewrite Hcount, Hlen; cbn [length]; lia|].
      split; [by rewrite Hperm|exact Hdistinct].
Qed.

Lemma addViews_indexCached_witness :
  indexCached (children (emptyBox 1 ROW))
  /\ exists this',
       addViews (emptyBox 1 ROW)
         [(plainView 2 true, 0); (plainView 3 true, 0); (plainView 4 false, 1)] = Ok this'
       /\ indexCached (children this')
       /\ length (children this') = 3%nat
       /\ NoDup (viewId <$> children this').
Proof.
  assert (Hempty : indexCached (children (emptyBox 1 ROW))).
  { intros i c Hi. destruct i; discriminate. }
  assert (Hfresh : NoDup (((fun call => viewId call.1)
                             <$> [(plainView 2 true, 0); (plainView 3 true, 0);
                                  (plainView 4 false, 1)])
                          ++ (viewId <$> children (emptyBox 1 ROW)))).
  { repeat (apply NoDup_cons; split;
            [intros H; repeat (apply elem_of_cons in H as [H|H]; [discriminate|]);
             by apply not_elem_of_nil in H|]).
    apply NoDup_nil_2. }
  split; [exact Hempty|].
  eexists. split; [reflexivity|].
  destruct (addViews_indexCached
              [(plainView 2 true, 0); (plainView 3 true, 0); (plainView 4 false, 1)]
              (emptyBox 1 ROW) _ Hfresh Hempty ltac:(vm_compute; reflexivity) eq_refl)
    as (Hcached & Hlen & _ & Hdistinct).
  split; [exact Hcached|]. split; [exact Hlen|exact Hdistinct].
Defined.

(** The first element that satisfies [P] behind a prefix that does not. *)
Lemma list_find_behind {A : Type} (P : A -> Prop) `{!forall x, Decision (P x)}
    (l1 l2 : list A) (x : A) :
  Forall (fun y => ~ P y) l1 -> P x ->
  list_find P (l1 ++ x :: l2) = Some (length l1, x).
Proof.
  intros Hl1 Hx. apply list_find_Some. split; [|split].
  - rewrite lookup_app_r by lia. by rewrite Nat.sub_diag.
  - exact Hx.
  - intros j y Hj Hlt. rewrite lookup_app_l in Hj by lia.
    rewrite Forall_forall in Hl1. apply Hl1. by eapply list_elem_of_lookup_2.
Qed.

Lemma isDetached_setParent p u v : isDetached (setParent p u v) = isDetached v.
Proof. by destruct v. Qed.

Lemma YGNodeRemoveChild_inserted (node : list ViewId) (child : ViewId) (index : Z) :
  child ∉ node ->
  YGNodeRemoveChild (YGNodeInsertChild node child index) child = node.
Proof.
  intros Hfresh. unfold YGNodeRemoveChild, YGNodeInsertChild.
  rewrite (list_find_behind (fun c => c = child)).
  - rewrite delete_middle. apply take_drop.
  - apply Forall_forall. intros y Hy ->. apply Hfresh.
    by apply (subseteq_take (Z.to_nat index) node).
  - reflexivity.
Qed.

(** X2.  Adding a view and removing it again.  When the view was not among
    the children, [removeView] of the view that [addView] has just inserted
    finds it at the position of the insertion: the child sequence is, view
    for view, the one before the insertion, and so is the child list of
    the layout node (the view's node was not in it); the view receives
    [willDisappear(true)], and [freeView()] when [free] is set.  The
    siblings behind the position keep the cache that the insertion bumped:
    the two calls undo one another on the sequence and on the layout, not
    on the index caches, unless the view was added at the end. *)
Theorem addView_removeView_roundtrip (this : Box) (view : View) (position : Z)
    (free : bool) (this' : Box) (hooks : list Hook) :
  viewId view ∉ (viewId <$> children this) ->
  addView this view position = Ok (this', hooks) ->
  let back := removeView this' (Some (viewId view)) free in
  back.2 = WillDisappear (viewId view) true :: (if free then [FreeView (viewId view)] else [])
  /\ children back.1
     = take (Z.to_nat position) (children this)
       ++ (bumpIndex <$> drop (Z.to_nat position) (children this))
  /\ viewId <$> children back.1 = viewId <$> children this
  /\ (getYGNode view ∉ ygChildren this -> ygChildren back.1 = ygChildren this)
  /\ (position = children_size this -> children back.1 = children this).
Proof.
  intros Hfresh Hadd back.
  pose proof (addView_children _ _ _ _ _ Hadd) as [Hpos Hcs].
  assert (Hyg : ygChildren this'
                = if isDetached view then ygChildren this
                  else YGNodeInsertChild (ygChildren this) (getYGNode view) position).
  { unfold addView in Hadd. destruct (_ || _); [discriminate|].
    injection Hadd as <- _. reflexivity. }
  set (p := Z.to_nat position) in *.
  set (view' := setParent (Some (self (bview this))) (Some position) view) in *.
  assert (Hfind : list_find (fun child => viewId child = viewId view) (children this')
                  = Some (length (take p (children this)), view')).
  { rewrite Hcs. apply list_find_behind.
    - apply Forall_forall. intros y Hy Hid. apply Hfresh. rewrite <- Hid.
      apply list_elem_of_fmap_2. by apply (subseteq_take p (children this)).
    - apply viewId_setParent. }
  assert (Hback : back = (invalidate
             (mkBox (bview this') (axis this')
                    (delete (length (take p (children this))) (children this'))
                    (if isDetached view' then ygChildren this'
                     else YGNodeRemoveChild (ygChildren this') (getYGNode view'))
                    (lastFocusedView this') (defaultFocusedIndex this')
                    (layoutDirty this') (forwardedAttributes this')),
             WillDisappear (viewId view) true
             :: (if free then [FreeView (viewId view)] else []))).
  { unfold back, removeView. rewrite Hfind. reflexivity. }
  assert (Hchildren : children back.1
                      = take p (children this) ++ (bumpIndex <$> drop p (children this))).
  { rewrite Hback. cbn [fst invalidate children]. rewrite Hcs. apply delete_middle. }
  split; [by rewrite Hback|]. split; [exact Hchildren|]. split; [|split].
  - rewrite Hchildren, fmap_app, <- list_fmap_compose.
    rewrite (list_fmap_ext (viewId ∘ bumpIndex) viewId (drop p (children this)))
      by (intros; apply viewId_bumpIndex).
    by rewrite <- fmap_app, take_drop.
  - intros Hnode. rewrite Hback. cbn [fst invalidate ygChildren].
    unfold view'. rewrite isDetached_setParent, Hyg.
    destruct (isDetached view); [reflexivity|].
    unfold getYGNode. rewrite viewId_setParent.
    by apply YGNodeRemoveChild_inserted.
  - intros ->. rewrite Hchildren. unfold p, children_size.
    rewrite Nat2Z.id, drop_all, take_ge by lia. simpl. apply app_nil_r.
Qed.

Lemma addView_removeView_witness :
  exists this',
    addView rowOfTwo (plainView 4 true) 1 = Ok (this', [WillAppear 4%nat])
    /\ viewId <$> children (removeView this' (Some 4%nat) false).1 = [2%nat; 3%nat]
    /\ ygChildren (removeView this' (Some 4%nat) false).1 = [2%nat; 3%nat]
    /\ getParentUserData <$> children (removeView this' (Some 4%nat) false).1
       = [Some 0; Some 2].
Proof.
  eexists. split; [reflexivity|].
  assert (Hfresh : viewId (plainView 4 true) ∉ (viewId <$> children rowOfTwo)).
  { change (4%nat ∉ [2%nat; 3%nat]).
    rewrite !not_elem_of_cons. repeat split; [lia|lia|apply not_elem_of_nil]. }
  destruct (addView_removeView_roundtrip rowOfTwo (plainView 4 true) 1 false _ _
              Hfresh eq_refl) as (_ & Hcs & Hids & Hyg & _).
  split; [exact Hids|]. split.
  - apply Hyg. change (4%nat ∉ [2%nat; 3%nat]).
    rewrite !not_elem_of_cons. repeat split; [lia|lia|apply not_elem_of_nil].
  - reflexivity.
Defined.



(** X4.  [addView(view)] takes its position from the layout node, not
    from the child vector.  On a Box that holds a detached child, with a
    layout node that holds the nodes of the attached children, the call
    succeeds but does not append: the view is inserted at the number of
    attached children, which is below the child count, and the child that
    was last is still last. *)
Theorem addViewLast_detached_not_last (this : Box) (view : View) :
  ygChildren this = viewId <$> filter (fun c => isDetached c = false) (children this) ->
  Exists (fun c => isDetached c = true) (children this) ->
  exists this',
    addViewLast this view = Ok (this', [WillAppear (viewId view)])
    /\ (length (ygChildren this) < length (children this))%nat
    /\ (viewId <$> children this') !! length (ygChildren this) = Some (viewId view)
    /\ last (viewId <$> children this') = last (viewId <$> children this).
Proof.
  intros Hmirror Hdet.
  assert (Hlt : (length (ygChildren this) < length (children this))%nat).
  { rewrite Hmirror, length_fmap. apply Exists_exists in Hdet as (c & Hin & Hc).
    apply (length_filter_lt _ _ c); [exact Hin|]. rewrite Hc. discriminate. }
  unfold addViewLast, YGNodeGetChildCount.
  set (p := length (ygChildren this)) in *.
  destruct (addView this view (Z.of_nat p)) as [[this' hooks]|e] eqn:Hadd.
  - pose proof (addView_children _ _ _ _ _ Hadd) as [_ Hcs].
    rewrite Nat2Z.id in Hcs.
    assert (Hhooks : hooks = [WillAppear (viewId view)]).
    { unfold addView in Hadd. destruct (_ || _); [discriminate|].
      by injection Hadd as _ <-. }
    subst hooks. exists this'. split; [reflexivity|]. split; [exact Hlt|].
    assert (Hp : length (take p (children this)) = p) by (rewrite length_take; lia).
    split.
    + rewrite list_lookup_fmap, Hcs, lookup_app_r by lia.
      rewrite Hp, Nat.sub_diag. simpl. by rewrite viewId_setParent.
    + rewrite Hcs, fmap_app, fmap_cons, last_app_cons, <- list_fmap_compose.
      rewrite (list_fmap_ext (viewId ∘ bumpIndex) viewId (drop p (children this)))
        by (intros; apply viewId_bumpIndex).
      rewrite <- (take_drop p (children this)) at 2.
      rewrite fmap_app, last_app.
      destruct (drop p (children this)) as [|x rest] eqn:Hdrop.
      * apply (f_equal length) in Hdrop. rewrite length_drop in Hdrop. simpl in Hdrop. lia.
      * rewrite fmap_cons.
        change (last (viewId view :: viewId x :: (viewId <$> rest)))
          with (last (viewId x :: (viewId <$> rest))).
        by destruct (last (viewId x :: (viewId <$> rest))) eqn:Hl;
          [|apply last_None in Hl].
  - exfalso. unfold addView, children_size in Hadd.
    replace ((Z.of_nat (length (children this)) <? Z.of_nat p) || (Z.of_nat p <? 0))
      with false in Hadd; [discriminate|].
    symmetry. apply orb_false_iff. split; apply Z.ltb_ge; lia.
Qed.

Lemma addViewLast_detached_witness :
  exists this',
    addViewLast rowWithDetached (plainView 4 true) = Ok (this', [WillAppear 4%nat])
    /\ viewId <$> children this' = [2%nat; 4%nat; 3%nat]
    /\ last (viewId <$> children this') = Some 3%nat.
Proof.
  assert (Hdet : Exists (fun c => isDetached c = true) (children rowWithDetached)).
  { apply Exists_cons_hd. reflexivity. }
  destruct (addViewLast_detached_not_last rowWithDetached (plainView 4 true) eq_refl Hdet)
    as (this' & Hadd & _ & _ & Hlast).
  exists this'. split; [exact Hadd|].
  injection Hadd as <-. split; [reflexivity|exact Hlast].
Defined.

Lemma filter_all {A : Type} (P : A -> Prop) `{!forall x, Decision (P x)} (l : list A) :
  Forall P l -> filter P l = l.
Proof.
  induction 1 as [|x l Hx _ IH]; [reflexivity|].
  by rewrite filter_cons_True, IH.
Qed.

Lemma filter_none {A : Type} (P : A -> Prop) `{!forall x, Decision (P x)} (l : list A) :
  Forall (fun x => ~ P x) l -> filter P l = [].
Proof.
  induction 1 as [|x l Hx _ IH]; [reflexivity|].
  by rewrite filter_cons_False.
Qed.

(** Under [NoDup], removing a child from a layout node is filtering it out. *)
Lemma YGNodeRemoveChild_filter (node : list ViewId) (child : ViewId) :
  NoDup node ->
  YGNodeRemoveChild node child = filter (fun c => c <> child) node.
Proof.
  unfold YGNodeRemoveChild. induction node as [|a rest IH]; intros Hnd; [reflexivity|].
  apply NoDup_cons in Hnd as [Ha Hrest]. specialize (IH Hrest).
  cbn [list_find]. rewrite filter_cons.
  destruct (decide (a = child)) as [->|Hne].
  - rewrite decide_False by (intros H; by apply H).
    cbn [delete]. symmetry. apply filter_all.
    apply Forall_forall. intros y Hy ->. by apply Ha.
  - rewrite decide_True by exact Hne.
    destruct (list_find (fun c => c = child) rest) as [[i y]|]; simpl in *.
    + by rewrite IH.
    + by rewrite <- IH.
Qed.

(** The rounds of [clearViews] on a Box with the children [cs]: all of
    them run, the last child first. *)
Lemma clearViewsLoop_all (free : bool) (cs : list View) (this : Box) :
  children this = cs ->
  clearViewsLoop (length cs) free this
  = Some (mkBox (bview this) (axis this) []
                (foldr (fun v node => YGNodeRemoveChild node (getYGNode v))
                       (ygChildren this) cs)
                (lastFocusedView this) (defaultFocusedIndex this)
                (layoutDirty this) (forwardedAttributes this),
          concat ((fun v => WillDisappear (viewId v) true
                            :: (if free then [FreeView (viewId v)] else []))
                  <$> reverse cs)).
Proof.
  revert this. induction cs as [|x pre IH] using rev_ind; intros this Hcs.
  - simpl. destruct this; simpl in *; by subst.
  - rewrite length_app. cbn [length]. rewrite Nat.add_1_r. cbn [clearViewsLoop].
    rewrite Hcs, last_snoc, length_app. cbn [length].
    replace (length pre + 1 - 1)%nat with (length pre) by lia.
    rewrite take_app_length.
    rewrite (IH (mkBox (bview this) (axis this) pre
                       (YGNodeRemoveChild (ygChildren this) (getYGNode x))
                       (lastFocusedView this) (defaultFocusedIndex this)
                       (layoutDirty this) (forwardedAttributes this)) eq_refl).
    cbn [bview axis ygChildren lastFocusedView defaultFocusedIndex layoutDirty
         forwardedAttributes].
    rewrite foldr_app, reverse_snoc, fmap_cons. reflexivity.
Qed.

Lemma foldr_YGNodeRemoveChild (cs : list View) (node : list ViewId) :
  NoDup node ->
  foldr (fun v node => YGNodeRemoveChild node (getYGNode v)) node cs
  = filter (fun n => n ∉ (viewId <$> cs)) node.
Proof.
  intros Hnd. induction cs as [|c rest IH]; cbn [foldr].
  - symmetry. apply filter_all. apply Forall_forall. intros y _. apply not_elem_of_nil.
  - rewrite IH, YGNodeRemoveChild_filter by (by apply NoDup_filter).
    rewrite list_filter_filter. apply list_filter_iff. intros n.
    rewrite fmap_cons, not_elem_of_cons. reflexivity.
Qed.

(** X5.  [clearViews] always runs to its end: the loop never reads
    [back()] of an empty vector.  It leaves a Box without children and
    without a remembered view, with the layout marked dirty; every former
    child has received [willDisappear(true)], and [freeView()] when [free]
    is set, the last child first.  The node of every former child has left
    the layout node, detached or not; nodes of other views stay.  Unless
    the Box is focusable itself, it resolves no default focus afterwards. *)
Theorem clearViews_empties (this : Box) (free : bool) :
  exists this',
    clearViews this free
    = Some (this',
            concat ((fun v => WillDisappear (viewId v) true
                              :: (if free then [FreeView (viewId v)] else []))
                    <$> reverse (children this)))
    /\ children this' = []
    /\ lastFocusedView this' = None
    /\ layoutDirty this' = true
    /\ (NoDup (ygChildren this) ->
        ygChildren this'
        = filter (fun n => n ∉ (viewId <$> children this)) (ygChildren this))
    /\ (NoDup (ygChildren this) -> ygChildren this ⊆ (viewId <$> children this) ->
        ygChildren this' = [])
    /\ (focusable (bview this) = false -> Box_getDefaultFocus this' = None).
Proof.
  unfold clearViews. cbv zeta.
  change (children (setLastFocusedView this None)) with (children this).
  rewrite (clearViewsLoop_all free (children this) (setLastFocusedView this None) eq_refl).
  eexists. split; [reflexivity|].
  cbn [invalidate setLastFocusedView children lastFocusedView layoutDirty ygChildren bview].
  repeat split.
  - intros Hnd. by apply foldr_YGNodeRemoveChild.
  - intros Hnd Hsub. rewrite foldr_YGNodeRemoveChild by exact Hnd.
    apply filter_none. apply Forall_forall. intros n Hn Hout. apply Hout. by apply Hsub.
  - intros Hf. unfold Box_getDefaultFocus. simpl. rewrite Hf. by destruct (_ <? _).
Qed.

Lemma clearViews_witness :
  exists this',
    clearViews staleMemoryRow true
    = Some (this', [WillDisappear 3%nat true; FreeView 3%nat;
                    WillDisappear 2%nat true; FreeView 2%nat])
    /\ children this' = [] /\ ygChildren this' = []
    /\ Box_getDefaultFocus this' = None.
Proof.
  destruct (clearViews_empties staleMemoryRow true)
    as (this' & Hrun & Hcs & _ & _ & _ & Hyg & Hfocus).
  exists this'. split; [exact Hrun|]. split; [exact Hcs|]. split.
  - apply Hyg.
    + change (NoDup [2%nat; 3%nat]).
      apply NoDup_cons. split; [rewrite list_elem_of_singleton; lia|apply NoDup_singleton].
    + intros n Hn. exact Hn.
  - by apply Hfocus.
Defined.

Lemma removeView_lastFocusedView (this : Box) (view : option ViewId) (free : bool) :
  lastFocusedView (removeView this view free).1 = lastFocusedView this
  /\ bview (removeView this view free).1 = bview this.
Proof.
  unfold removeView. destruct view as [ptr|]; [|by split].
  by destruct (list_find _ _) as [[i c]|].
Qed.

(** X6.  [removeView] never touches [lastFocusedView].  A Box that is not
    focusable itself and remembers a view keeps resolving its default
    focus through that view after any [removeView] that does not free it,
    also when the view removed is the remembered one: with distinct
    children, the remembered view is then no longer among the children,
    and the Box still resolves to what the view resolves to. *)
Theorem removeView_keeps_lastFocusedView (this : Box) (l : View) :
  lastFocusedView this = Some l ->
  (forall view free, lastFocusedView (removeView this view free).1 = Some l)
  /\ (focusable (bview this) = false ->
      forall view,
        Box_getDefaultFocus (removeView this view false).1 = getDefaultFocus l)
  /\ (NoDup (viewId <$> children this) ->
      viewId l ∉ (viewId <$> children (removeView this (Some (viewId l)) false).1)).
Proof.
  intros Hl. split; [|split].
  - intros view free. by rewrite (proj1 (removeView_lastFocusedView this view free)).
  - intros Hf view.
    destruct (removeView_lastFocusedView this view false) as [Hlast Hbase].
    unfold Box_getDefaultFocus. cbn [getDefaultFocus]. by rewrite Hbase, Hf, Hlast, Hl.
  - intros Hnd. unfold removeView.
    destruct (list_find _ _) as [[i c]|] eqn:Hfind.
    + cbn [fst invalidate children]. rewrite list_fmap_delete.
      apply list_find_Some in Hfind as (Hi & Hc & _).
      assert (Hid : (viewId <$> children this) !! i = Some (viewId l))
        by (by rewrite list_lookup_fmap, Hi, <- Hc).
      intros Hin. apply list_elem_of_lookup in Hin as [j Hj].
      destruct (decide (j < i)%nat).
      * rewrite list_lookup_delete_lt in Hj by lia.
        pose proof (NoDup_lookup _ _ _ _ Hnd Hj Hid). lia.
      * rewrite list_lookup_delete_ge in Hj by lia.
        pose proof (NoDup_lookup _ _ _ _ Hnd Hj Hid). lia.
    + cbn [fst]. apply list_find_None in Hfind. rewrite Forall_forall in Hfind.
      intros Hin. apply list_elem_of_fmap in Hin as (y & Hy & Hin).
      by apply (Hfind y Hin).
Qed.

Lemma removeView_keeps_lastFocusedView_witness :
  let v2 := Leaf (mkViewBase 2 false false (Some 1%nat) (Some 0)) in
  lastFocusedView (removeView staleMemoryRow (Some 2%nat) false).1 = Some v2
  /\ Box_getDefaultFocus (removeView staleMemoryRow (Some 2%nat) false).1 = None
  /\ 2%nat ∉ (viewId <$> children (removeView staleMemoryRow (Some 2%nat) false).1).
Proof.
  intros v2.
  destruct (removeView_keeps_lastFocusedView staleMemoryRow v2 eq_refl)
    as (Hkeep & Hfocus & Hgone).
  split; [apply Hkeep|]. split.
  - rewrite (Hfocus eq_refl). reflexivity.
  - apply Hgone. change (NoDup [2%nat; 3%nat]).
    apply NoDup_cons. split; [rewrite list_elem_of_singleton; lia|apply NoDup_singleton].
Defined.

(** ** Focus memory *)





(** ** Look-up in the tree *)

Lemma head_app {A : Type} (l k : list A) :
  head (l ++ k) = match head l with Some x => Some x | None => head k end.
Proof. by destruct l. Qed.

(** X8.  [getView(id)] is a search in pre-order.  When the views that are
    no Box compare their own id as [Box::getView] does, the call returns
    the first view, among the view it is called on and its descendants
    taken parent first and children in sequence order, whose id is [id],
    and null exactly when there is none: a Box shadows its descendants,
    and an earlier sibling's subtree shadows the later ones. *)
Theorem getView_first_match (idOf : ViewId -> string)
    (View_getView : ViewBase -> string -> option View) (id : string) (v : View) :
  (forall b, View_getView b id
             = if bool_decide (id = idOf (self b)) then Some (Leaf b) else None) ->
  getView idOf View_getView v id
  = head (filter (fun x => idOf (viewId x) = id) (v :: descendants v))
  /\ (forall r, getView idOf View_getView v id = Some r ->
        idOf (viewId r) = id /\ r ∈ v :: descendants v)
  /\ (getView idOf View_getView v id = None <->
      forall x, x ∈ v :: descendants v -> idOf (viewId x) <> id).
Proof.
  intros Hleaf.
  assert (Hmain : getView idOf View_getView v id
                  = head (filter (fun x => idOf (viewId x) = id) (v :: descendants v))).
  { induction v as [b|b IHcs _] using View_induction.
    - cbn [getView descendants]. rewrite Hleaf, filter_cons.
      change (viewId (Leaf b)) with (self b).
      case_bool_decide as Hid.
      + by rewrite decide_True.
      + by rewrite decide_False by (intros H; by apply Hid).
    - cbn [getView]. rewrite filter_cons. change (viewId (BoxV b)) with (self (bview b)).
      case_bool_decide as Hid.
      + by rewrite decide_True.
      + rewrite decide_False by (intros H; by apply Hid).
        cbn [descendants]. clear Hid.
        induction IHcs as [|c rest Hc _ IH]; [reflexivity|].
        rewrite !fmap_cons. cbn [concat firstResolved].
        rewrite filter_app, head_app, <- Hc.
        destruct (getView idOf View_getView c id); [reflexivity|exact IH]. }
  split; [exact Hmain|]. rewrite Hmain. split.
  - intros r Hr.
    assert (Hin : r ∈ filter (fun x => idOf (viewId x) = id) (v :: descendants v)).
    { destruct (filter _ _) as [|y l]; [discriminate|].
      injection Hr as ->. apply list_elem_of_here. }
    by apply list_elem_of_filter in Hin.
  - split.
    + intros Hnone x Hx Hid.
      assert (Hin : x ∈ filter (fun x => idOf (viewId x) = id) (v :: descendants v))
        by (by apply list_elem_of_filter).
      destruct (filter _ _); [by apply elem_of_nil in Hin|discriminate].
    + intros Hall. rewrite filter_none; [reflexivity|].
      apply Forall_forall. intros x Hx. by apply Hall.
Qed.

Lemma getView_witness :
  getView sampleIdOf sampleGetView (BoxV menuColumn) "ok" = Some (menuButton 5 1 2)
  /\ getView sampleIdOf sampleGetView (BoxV menuColumn) "menu" = Some (BoxV menuColumn)
  /\ getView sampleIdOf sampleGetView (BoxV menuColumn) "cancel" = None.
Proof.
  split; [|split].
  - rewrite (proj1 (getView_first_match sampleIdOf sampleGetView "ok" (BoxV menuColumn)
                      (fun b => eq_refl))).
    reflexivity.
  - reflexivity.
  - reflexivity.
Defined.

(** X9.  [isChildFocused()] answers whether a view below the Box is
    focused, at any depth: it is true exactly when [isFocused()] is true
    of one of the descendants of the Box; the Box's own focus does not
    count. *)
Theorem isChildFocused_descendants (isFocused : ViewId -> bool) (this : Box) :
  Box_isChildFocused isFocused this
  = existsb (fun x => isFocused (viewId x)) (descendants (BoxV this))
  /\ (Box_isChildFocused isFocused this = true <->
      exists x, x ∈ descendants (BoxV this) /\ isFocused (viewId x) = true).
Proof.
  assert (Hmain : forall v,
            isChildFocused isFocused v
            = existsb (fun x => isFocused (viewId x)) (descendants v)).
  { intros v. induction v as [b|b IHcs _] using View_induction; [reflexivity|].
    cbn [isChildFocused descendants].
    induction IHcs as [|c rest Hc _ IH]; [reflexivity|].
    rewrite fmap_cons. cbn [concat existsb]. rewrite existsb_app. cbn [existsb].
    rewrite IH. f_equal.
    destruct c as [cb|cb].
    - simpl. by rewrite orb_false_r.
    - by rewrite Hc. }
  split; [apply Hmain|].
  unfold Box_isChildFocused. rewrite Hmain, existsb_exists.
  split; intros (x & Hx & Hf); exists x; (split; [by apply list_elem_of_In|exact Hf]).
Qed.

(** ** Navigation through nested Boxes *)

Lemma wrap64_range (z : Z) : is_size_t (wrap64 z).
Proof. unfold is_size_t, wrap64, SIZE_WIDTH. apply Z.mod_pos_bound. lia. Qed.

Lemma cachedSize_Some (v : View) :
  cachedSize v = true ->
  exists cached, getParentUserData v = Some cached /\ is_size_t cached.
Proof.
  unfold cachedSize. destruct (getParentUserData v) as [cached|]; [|discriminate].
  intros H. apply andb_true_iff in H as [H0 H1].
  exists cached. split; [reflexivity|]. unfold is_size_t. lia.
Qed.

(** One level of [getNextFocus], for a current view that carries an index
    cache: the hook decides on what the Box offers, and the parent is asked
    when the hook answers null. *)
Lemma getNextFocus_level navigationOverride (this : Box) (ancestors : list Box)
    (direction : FocusDirection) (currentView : View) :
  cachedSize currentView = true ->
  children_size this < 2 ^ 64 ->
  getNextFocus navigationOverride this ancestors direction currentView
  = match getParentNavigationDecision navigationOverride this ancestors (BoxV this)
            (offeredBy this direction currentView) direction with
    | Some r => Some (Some r)
    | None =>
        match ancestors with
        | [] => Some None
        | p :: rest => getNextFocus navigationOverride p rest direction (BoxV this)
        end
    end.
Proof.
  intros Hcv Hsize. destruct (cachedSize_Some _ Hcv) as (cached & Hc & Hrange).
  unfold offeredBy.
  destruct ancestors as [|p rest]; cbn [getNextFocus]; rewrite Hc;
    destruct (mismatchesAxis (axis this) direction) eqn:Hmis;
    try (by destruct (getParentNavigationDecision _ _ _ _ _ _));
    destruct (traversalOffset_aligned _ _ Hmis) as [-> _];
    rewrite (scanLoop_siblingScan (children this) (movesTowardsEnd (axis this) direction))
      by (first [apply wrap64_range | exact Hsize]);
    by destruct (getParentNavigationDecision _ _ _ _ _ _).
Qed.

(** X10.  A move across the axis of every Box of the chain finds nothing:
    with no override of the navigation hook, [getNextFocus] returns null
    when the direction mismatches the axis of the Box and of all its
    ancestors.  No index cache is read on the way, so the call is defined
    also for views that carry none. *)
Theorem getNextFocus_across_axis navigationOverride (this : Box) (ancestors : list Box)
    (direction : FocusDirection) (currentView : View) :
  (forall id, navigationOverride id = None) ->
  Forall (fun b => mismatchesAxis (axis b) direction = true) (this :: ancestors) ->
  getNextFocus navigationOverride this ancestors direction currentView = Some None.
Proof.
  intros Hnone. revert this currentView.
  induction ancestors as [|p rest IH]; intros this currentView Hall;
    apply Forall_cons in Hall as [Hthis Hrest]; cbn [getNextFocus];
    rewrite Hthis, (getParentNavigationDecision_default _ _ _ _ _ _ Hnone).
  - reflexivity.
  - by apply IH.
Qed.

Lemma getNextFocus_across_axis_witness :
  getNextFocus noOverride upperRow [lowerRow] DOWN (plainView 9 true) = Some None.
Proof.
  apply getNextFocus_across_axis; [reflexivity|].
  repeat constructor.
Defined.

(** X11.  Navigation through nested Boxes.  When the current view and
    every Box of the chain that has a parent carry an index cache, and no
    Box has [2^64] children or more, [getNextFocus] has a result, whatever
    the navigation hooks do.  With no override of the hook, the result is
    the offer of the nearest Box that offers something: the Box itself,
    else its parent entered from the Box, and so on up to the root; a Box
    offers nothing across its axis, and along its axis the resolution of
    the next sibling that resolves.  The result is null when no Box of the
    chain offers anything. *)
Theorem getNextFocus_nearest_offer navigationOverride (this : Box) (ancestors : list Box)
    (direction : FocusDirection) (currentView : View) :
  cachedSize currentView = true ->
  chainCached this ancestors = true ->
  Forall (fun b => children_size b < 2 ^ 64) (this :: ancestors) ->
  is_Some (getNextFocus navigationOverride this ancestors direction currentView)
  /\ ((forall id, navigationOverride id = None) ->
      getNextFocus navigationOverride this ancestors direction currentView
      = Some (firstResolved (offers this ancestors direction currentView))).
Proof.
  revert this currentView.
  induction ancestors as [|p rest IH]; intros this currentView Hcv Hchain Hsizes;
    apply Forall_cons in Hsizes as [Hsize Hrest];
    rewrite (getNextFocus_level _ _ _ _ _ Hcv Hsize).
  - split.
    + by destruct (getParentNavigationDecision _ _ _ _ _ _).
    + intros Hnone. rewrite (getParentNavigationDecision_default _ _ _ _ _ _ Hnone).
      cbn [offers firstResolved]. by destruct (offeredBy this direction currentView).
  - cbn [chainCached] in Hchain. apply andb_true_iff in Hchain as [Hthis Hchain].
    destruct (IH p (BoxV this) Hthis Hchain Hrest) as [IHsome IHeq].
    split.
    + by destruct (getParentNavigationDecision _ _ _ _ _ _).
    + intros Hnone. rewrite (getParentNavigationDecision_default _ _ _ _ _ _ Hnone).
      cbn [offers firstResolved].
      destruct (offeredBy this direction currentView); [reflexivity|]. by apply IHeq.
Qed.

Lemma getNextFocus_nearest_offer_witness :
  getNextFocus noOverride upperRow [menuColumn] DOWN (menuButton 5 1 2)
  = Some (Some (menuButton 6 0 3))
  /\ getNextFocus noOverride lowerRow [menuColumn] DOWN (menuButton 7 1 3) = Some None.
Proof.
  split.
  - rewrite (proj2 (getNextFocus_nearest_offer noOverride upperRow [menuColumn] DOWN
                      (menuButton 5 1 2) eq_refl eq_refl
                      ltac:(repeat constructor)) (fun _ => eq_refl)).
    reflexivity.
  - rewrite (proj2 (getNextFocus_nearest_offer noOverride lowerRow [menuColumn] DOWN
                      (menuButton 7 1 3) eq_refl eq_refl
                      ltac:(repeat constructor)) (fun _ => eq_refl)).
    reflexivity.
Defined.

(** X12.  There and back.  In a Box whose children cache their positions,
    take two children that both resolve a default focus, with no child
    that resolves one between them.  With no override of the navigation
    hook, the move towards the end of the sequence from the first one
    yields the resolution of the second one, and the move towards the
    start from the second one yields the resolution of the first one. *)
Theorem getNextFocus_there_and_back navigationOverride (this : Box) (ancestors : list Box)
    (forwards backwards : FocusDirection) (i j : nat) (ci cj fi fj : View) :
  (forall id, navigationOverride id = None) ->
  movesTowardsEnd (axis this) forwards = true ->
  movesTowardsStart (axis this) backwards = true ->
  children_size this < 2 ^ 64 ->
  indexCached (children this) ->
  (i < j)%nat ->
  children this !! i = Some ci ->
  children this !! j = Some cj ->
  getDefaultFocus ci = Some fi ->
  getDefaultFocus cj = Some fj ->
  (forall k c, (i < k < j)%nat -> children this !! k = Some c -> getDefaultFocus c = None) ->
  getNextFocus navigationOverride this ancestors forwards ci = Some (Some fj)
  /\ getNextFocus navigationOverride this ancestors backwards cj = Some (Some fi).
Proof.
  intros Hnone Hfwd Hbwd Hsize Hinv Hij Hi Hj Hfi Hfj Hgap.
  pose proof (lookup_lt_Some _ _ _ Hi) as Hilen.
  pose proof (lookup_lt_Some _ _ _ Hj) as Hjlen.
  unfold children_size in Hsize.
  assert (Hci : getParentUserData ci = Some (Z.of_nat i)) by (by apply Hinv).
  assert (Hcj : getParentUserData cj = Some (Z.of_nat j)) by (by apply Hinv).
  assert (Hcsi : cachedSize ci = true).
  { unfold cachedSize. rewrite Hci. apply andb_true_iff.
    unfold SIZE_WIDTH. split; [apply Z.leb_le|apply Z.ltb_lt]; lia. }
  assert (Hcsj : cachedSize cj = true).
  { unfold cachedSize. rewrite Hcj. apply andb_true_iff.
    unfold SIZE_WIDTH. split; [apply Z.leb_le|apply Z.ltb_lt]; lia. }
  split.
  - rewrite (getNextFocus_level _ _ _ _ _ Hcsi Hsize),
      (getParentNavigationDecision_default _ _ _ _ _ _ Hnone).
    assert (Hoffer : offeredBy this forwards ci = Some fj); [|by rewrite Hoffer].
    unfold offeredBy. rewrite Hci, Hfwd.
    assert (Hmis : mismatchesAxis (axis this) forwards = false)
      by (by destruct (axis this), forwards).
    rewrite Hmis. destruct (traversalOffset_aligned _ _ Hmis) as [-> _]. rewrite Hfwd.
    rewrite wrap64_small by (unfold is_size_t, SIZE_WIDTH; lia).
    unfold siblingScan. apply firstResolved_Some. exists (j - S i)%nat. split.
    + rewrite list_lookup_fmap, lookup_drop.
      replace (Z.to_nat (Z.of_nat i + 1) + (j - S i))%nat with j by lia.
      by rewrite Hj; simpl; rewrite Hfj.
    + intros k Hk. rewrite list_lookup_fmap, lookup_drop.
      destruct (lookup_lt_is_Some_2 (children this) (Z.to_nat (Z.of_nat i + 1) + k))
        as [c Hc]; [lia|].
      rewrite Hc. simpl. f_equal. apply (Hgap (Z.to_nat (Z.of_nat i + 1) + k)%nat c); [lia|exact Hc].
  - rewrite (getNextFocus_level _ _ _ _ _ Hcsj Hsize),
      (getParentNavigationDecision_default _ _ _ _ _ _ Hnone).
    assert (Hoffer : offeredBy this backwards cj = Some fi); [|by rewrite Hoffer].
    unfold offeredBy. rewrite Hcj.
    assert (Hmis : mismatchesAxis (axis this) backwards = false)
      by (by destruct (axis this), backwards).
    assert (Hend : movesTowardsEnd (axis this) backwards = false)
      by (by destruct (axis this), backwards).
    rewrite Hmis. destruct (traversalOffset_aligned _ _ Hmis) as [-> _]. rewrite Hend.
    rewrite wrap64_pred by lia.
    unfold siblingScan.
    replace (Z.of_nat j - 1 <? Z.of_nat (length (children this))) with true
      by (symmetry; apply Z.ltb_lt; lia).
    replace (S (Z.to_nat (Z.of_nat j - 1))) with j by lia.
    assert (Hlen : length (take j (children this)) = j) by (rewrite length_take; lia).
    apply firstResolved_Some. exists (j - S i)%nat. split.
    + rewrite list_lookup_fmap, reverse_lookup by lia.
      rewrite Hlen, lookup_take_lt by lia.
      replace (j - S (j - S i))%nat with i by lia.
      by rewrite Hi; simpl; rewrite Hfi.
    + intros k Hk. rewrite list_lookup_fmap, reverse_lookup by lia.
      rewrite Hlen, lookup_take_lt by lia.
      destruct (lookup_lt_is_Some_2 (children this) (j - S k)) as [c Hc]; [lia|].
      rewrite Hc. simpl. f_equal. apply (Hgap (j - S k)%nat c); [lia|exact Hc].
Qed.

Lemma getNextFocus_there_and_back_witness :
  let first := Leaf (mkViewBase 2 true false (Some 1%nat) (Some 0)) in
  let last := Leaf (mkViewBase 4 true false (Some 1%nat) (Some 2)) in
  getNextFocus noOverride rowOfThree [] RIGHT first = Some (Some last)
  /\ getNextFocus noOverride rowOfThree [] LEFT last = Some (Some first).
Proof.
  intros first last.
  assert (Hsize : children_size rowOfThree < 2 ^ 64) by (vm_compute; reflexivity).
  assert (Hinv : indexCached (children rowOfThree)).
  { intros [|[|[|k]]] c Hc; inversion Hc; reflexivity. }
  assert (Hgap : forall k c, (0 < k < 2)%nat -> children rowOfThree !! k = Some c ->
                             getDefaultFocus c = None).
  { intros [|[|k]] c Hk Hc; try lia. by inversion Hc. }
  exact (getNextFocus_there_and_back noOverride rowOfThree [] RIGHT LEFT 0 2
           first last first last (fun _ => eq_refl) eq_refl eq_refl Hsize Hinv
           ltac:(lia) eq_refl eq_refl eq_refl eq_refl Hgap).
Defined.

(** ** Default focus of a tree without memory *)

(** X13.  In a tree in which no Box remembers a last focused view and
    every Box has 0 as its default focused index, [getDefaultFocus] is a
    search in pre-order: it returns the first focusable view among the
    view itself and its descendants, parent first and children in
    sequence order, and null when no view of the subtree is focusable. *)
Theorem getDefaultFocus_first_focusable (v : View) :
  pristine v = true ->
  getDefaultFocus v = head (filter (fun x => isFocusable x = true) (v :: descendants v)).
Proof.
  rewrite <- focusables_filter.
  induction v as [b|b IHcs _] using View_induction; intros Hp.
  - cbn [getDefaultFocus focusables]. change (isFocusable (Leaf b)) with (focusable b).
    by destruct (focusable b).
  - cbn [pristine] in Hp. apply andb_true_iff in Hp as [Hp Hcs].
    apply andb_true_iff in Hp as [Hlast Hindex].
    apply Z.eqb_eq in Hindex.
    cbn [getDefaultFocus focusables].
    change (isFocusable (BoxV b)) with (focusable (bview b)).
    destruct (focusable (bview b)); [reflexivity|].
    destruct (lastFocusedView b); [discriminate|]. rewrite Hindex. cbn [app].
    assert (Hscan : firstResolved (getDefaultFocus <$> children b)
                    = head (concat (focusables <$> children b))).
    { clear Hindex Hlast. induction IHcs as [|c rest Hc _ IH]; [reflexivity|].
      cbn [forallb] in Hcs. apply andb_true_iff in Hcs as [Hpc Hprest].
      rewrite !fmap_cons. cbn [concat firstResolved]. rewrite head_app, <- (Hc Hpc).
      destruct (getDefaultFocus c); [reflexivity|by apply IH]. }
    rewrite <- Hscan.
    destruct (children b) as [|c rest]; [reflexivity|].
    cbn [length]. replace (0 <? Z.of_nat (S (length rest))) with true
      by (symmetry; apply Z.ltb_lt; lia).
    rewrite fmap_cons. simpl. by destruct (getDefaultFocus c).
Qed.

Lemma getDefaultFocus_first_focusable_witness :
  getDefaultFocus (BoxV menuColumn) = Some (menuButton 4 0 2).
Proof.
  rewrite (getDefaultFocus_first_focusable (BoxV menuColumn) eq_refl). reflexivity.
Defined.

(** ** Attribute forwarding: one name at a time *)

(** X14.  Forwarding an attribute changes how that name is applied and
    nothing else: every other name is applied as before, and is forwarded
    or not as before.  Two names can be forwarded in either order with the
    same result. *)
Theorem forwardXMLAttribute_independent (W : Type)
    (isXMLAttributeValid : ViewId -> string -> bool)
    (applyOnTarget View_applyXMLAttribute : ViewId -> string -> string -> W -> bool * W)
    (this this' : Box) (name : string) (target : ViewId) (targetName : string) :
  forwardXMLAttribute isXMLAttributeValid this name target targetName = Ok this' ->
  (forall other value w,
     other <> name ->
     applyXMLAttribute W applyOnTarget View_applyXMLAttribute this' other value w
     = applyXMLAttribute W applyOnTarget View_applyXMLAttribute this other value w)
  /\ (forall other, other <> name -> isForwarded this' other = isForwarded this other)
  /\ (forall other target2 targetName2 both,
        other <> name ->
        forwardXMLAttribute isXMLAttributeValid this' other target2 targetName2 = Ok both ->
        exists second,
          forwardXMLAttribute isXMLAttributeValid this other target2 targetName2 = Ok second
          /\ forwardXMLAttribute isXMLAttributeValid second name target targetName = Ok both).
Proof.
  unfold forwardXMLAttribute. intros Hfwd.
  destruct (isXMLAttributeValid target targetName) eqn:Hvalid; [|discriminate].
  cbn [negb] in Hfwd.
  destruct (isForwarded this name) eqn:Hnew; [discriminate|].
  injection Hfwd as <-.
  assert (Hother : forall other, other <> name ->
            forwardedAttributes
              (withForwardedAttributes this
                 (<[name := (targetName, target)]> (forwardedAttributes this))) !! other
            = forwardedAttributes this !! other).
  { intros other Hne. cbn [withForwardedAttributes forwardedAttributes].
    by apply lookup_insert_ne. }
  split; [|split].
  - intros other value w Hne. unfold applyXMLAttribute. by rewrite (Hother other Hne).
  - intros other Hne. unfold isForwarded. by rewrite (Hother other Hne).
  - intros other target2 targetName2 both Hne Hsecond.
    destruct (isXMLAttributeValid target2 targetName2); [|discriminate].
    cbn [negb] in Hsecond |- *.
    unfold isForwarded in Hsecond |- *. rewrite (Hother other Hne) in Hsecond.
    destruct (bool_decide (is_Some (forwardedAttributes this !! other))) eqn:Hfree;
      [discriminate|].
    injection Hsecond as <-. eexists. split; [reflexivity|].
    cbn [withForwardedAttributes forwardedAttributes].
    rewrite lookup_insert_ne by (intros H; by apply Hne).
    unfold isForwarded in Hnew. rewrite Hnew.
    unfold withForwardedAttributes. cbn. f_equal. f_equal.
    apply insert_insert_ne. intros H. by apply Hne.
Qed.

Lemma forwardXMLAttribute_independent_witness :
  exists this',
    forwardXMLAttribute sampleValid rowOfTwo "title" 2 "text" = Ok this'
    /\ applyXMLAttribute _ sampleApplyOnTarget sampleApplyLocally this' "subtitle" "Hi" []
       = (false, [])
    /\ isForwarded this' "subtitle" = false.
Proof.
  eexists. split; [reflexivity|].
  destruct (forwardXMLAttribute_independent _ sampleValid sampleApplyOnTarget
              sampleApplyLocally rowOfTwo _ "title" 2 "text" eq_refl)
    as (Happly & Hforwarded & _).
  split.
  - rewrite (Happly "subtitle" "Hi" []) by discriminate. reflexivity.
  - rewrite (Hforwarded "subtitle") by discriminate. reflexivity.
Defined.

(** ** The task scheduler: facts *)

Module ThreadingFacts.

Import Threading.

Section Facts.

Variable body : FuncId -> Script.
Variable now : nat -> Z.

Local Abbreviation readClock := (Threading.readClock now).
Local Abbreviation delay := (Threading.delay now).
Local Abbreviation runScript := (Threading.runScript now).
Local Abbreviation runSyncLocal := (Threading.runSyncLocal body now).
Local Abbreviation processDelay := (Threading.processDelay body now).
Local Abbreviation runDelayLocal := (Threading.runDelayLocal body now).
Local Abbreviation performSyncTasks := (Threading.performSyncTasks body now).
Local Abbreviation exec := (Threading.exec body now).

(** *** Facts about callbacks *)

Lemma syncCalls_app (a b : list Event) : syncCalls (a ++ b) = syncCalls a ++ syncCalls b.
Proof. apply omap_app. Qed.

Lemma delayCalls_app (a b : list Event) : delayCalls (a ++ b) = delayCalls a ++ delayCalls b.
Proof. apply omap_app. Qed.

(** A callback reaches the scheduler through its interface only: running
    it calls nothing. *)
Lemma runScript_calls (s : Script) (st : State) :
  syncCalls (runScript s st).1.2 = [] /\ delayCalls (runScript s st).1.2 = [].
Proof.
  revert st. induction s as [o|f k IH|t k IH|ms f k IH|iter k IH]; intros st;
    cbn [Threading.runScript].
  - by split.
  - apply IH.
  - apply IH.
  - destruct (delay ms f st) as [id st1].
    specialize (IH id st1). destruct (runScript (k id) st1) as [[st2 ev] o]. exact IH.
  - specialize (IH (cancelDelay iter st)).
    destruct (runScript k (cancelDelay iter st)) as [[st2 ev] o]. exact IH.
Qed.

Lemma runScript_stdOnly (s : Script) (st : State) :
  stdOnly s -> (runScript s st).2 <> ThrowsOther.
Proof.
  revert st. induction s as [o|f k IH|t k IH|ms f k IH|iter k IH]; intros st Hs;
    cbn [Threading.runScript stdOnly] in *.
  - exact Hs.
  - by apply IH.
  - by apply IH.
  - destruct (delay ms f st) as [id st1].
    specialize (IH id st1 (Hs id)). by destruct (runScript (k id) st1) as [[st2 ev] o].
  - specialize (IH (cancelDelay iter st) Hs).
    by destruct (runScript k (cancelDelay iter st)) as [[st2 ev] o].
Qed.

(** *** The first loop *)

Lemma runSyncLocal_calls (local : list FuncId) (st : State) :
  (forall f, stdOnly (body f)) ->
  (runSyncLocal local st).2 = Completed
  /\ syncCalls (runSyncLocal local st).1.2 = local
  /\ delayCalls (runSyncLocal local st).1.2 = [].
Proof.
  intros Hstd. revert st. induction local as [|f rest IH]; intros st; simpl.
  - by repeat split.
  - pose proof (runScript_stdOnly (body f) st (Hstd f)) as Ho.
    pose proof (runScript_calls (body f) st) as [Hs Hd].
    destruct (runScript (body f) st) as [[st1 ev] o]. simpl in *.
    specialize (IH st1). destruct (runSyncLocal rest st1) as [[st2 ev2] fl]. simpl in *.
    destruct IH as (Hfl & Hs2 & Hd2).
    destruct o; [| |congruence]; simpl.
    + rewrite syncCalls_app, delayCalls_app, Hs, Hd, Hs2, Hd2. by repeat split.
    + rewrite syncCalls_app, delayCalls_app, Hs, Hd. simpl. rewrite Hs2, Hd2.
      by repeat split.
Qed.

(** *** One delayed task *)


(** A task whose delay has not elapsed is enqueued again and not called. *)
Lemma processDelay_pending (d : DelayOperation) (st : State) :
  index d ∉ m_delay_cancel_set st ->
  toMilliseconds (now (clockReads st) - startPoint d) < delayMilliseconds d ->
  processDelay d st = (pushDelay d (readClock st).2, [], Completed).
Proof.
  intros H Hlt. unfold Threading.processDelay. rewrite bool_decide_eq_false_2 by exact H.
  simpl. by rewrite (proj2 (Z.leb_gt _ _) Hlt).
Qed.

(** A task whose delay has elapsed is called once and not enqueued again:
    the delayed tasks left are those its callback left. *)
Lemma processDelay_elapsed (d : DelayOperation) (st : State) :
  index d ∉ m_delay_cancel_set st ->
  delayMilliseconds d <= toMilliseconds (now (clockReads st) - startPoint d) ->
  delayCalls (processDelay d st).1.2 = [(index d, func d)]
  /\ syncCalls (processDelay d st).1.2 = []
  /\ m_delay_tasks (processDelay d st).1.1
     = m_delay_tasks (runScript (body (func d)) (readClock st).2).1.1
  /\ ((runScript (body (func d)) (readClock st).2).2 <> ThrowsOther ->
      (processDelay d st).2 = Completed).
Proof.
  intros H Hle. unfold Threading.processDelay. rewrite bool_decide_eq_false_2 by exact H.
  simpl. rewrite (proj2 (Z.leb_le _ _) Hle).
  pose proof (runScript_calls (body (func d)) (readClock st).2) as [Hs Hd].
  simpl in Hs, Hd.
  destruct (runScript (body (func d)) _) as [[st2 ev] o]. simpl in *.
  destruct o; simpl; rewrite ?syncCalls_app, ?delayCalls_app, ?Hs, ?Hd;
    unfold eraseCancel; repeat case_bool_decide; simpl; by repeat split.
Qed.

Lemma processDelay_calls (d : DelayOperation) (st : State) :
  stdOnly (body (func d)) ->
  (processDelay d st).2 = Completed /\ syncCalls (processDelay d st).1.2 = [].
Proof.
  intros Hstd. unfold Threading.processDelay. case_bool_decide; [by split|].
  simpl. destruct (_ <=? _); [|by split].
  pose proof (runScript_calls (body (func d)) (readClock st).2) as [Hs _].
  pose proof (runScript_stdOnly (body (func d)) (readClock st).2 Hstd) as Ho.
  simpl in Hs, Ho.
  destruct (runScript (body (func d)) _) as [[st2 ev] o]. simpl in *.
  destruct o; [| |congruence]; simpl; rewrite ?syncCalls_app, ?Hs; by split.
Qed.

Lemma runDelayLocal_calls (delay_local : list DelayOperation) (st : State) :
  (forall f, stdOnly (body f)) ->
  (runDelayLocal delay_local st).2 = Completed
  /\ syncCalls (runDelayLocal delay_local st).1.2 = [].
Proof.
  intros Hstd. revert st. induction delay_local as [|d rest IH]; intros st; simpl.
  - by split.
  - pose proof (processDelay_calls d st (Hstd _)) as [Hfl Hs].
    destruct (processDelay d st) as [[st1 ev] fl]. simpl in *. subst fl.
    specialize (IH st1). destruct (runDelayLocal rest st1) as [[st2 ev2] fl2].
    simpl in *. destruct IH as [-> Hs2]. by rewrite syncCalls_app, Hs, Hs2.
Qed.

(** When no callback throws anything but standard exceptions, a tick
    returns, and it has called the callbacks that were queued, each once,
    in the order in which they were queued. *)
Lemma performSyncTasks_calls (st : State) :
  (forall f, stdOnly (body f)) ->
  (performSyncTasks st).2 = Completed
  /\ syncCalls (performSyncTasks st).1.2 = m_sync_functions st.
Proof.
  intros Hstd. unfold Threading.performSyncTasks.
  pose proof (runSyncLocal_calls (m_sync_functions st)
                (mkState [] (m_async_tasks st) (m_delay_tasks st)
                         (m_delay_cancel_set st) (m_delay_index st) (clockReads st))
                Hstd) as (Hfl & Hs & _).
  destruct (runSyncLocal _ _) as [[st1 ev1] fl]. simpl in *. subst fl.
  pose proof (runDelayLocal_calls (m_delay_tasks st1)
                (mkState (m_sync_functions st1) (m_async_tasks st1) []
                         (m_delay_cancel_set st1) (m_delay_index st1) (clockReads st1))
                Hstd) as [Hfl2 Hs2].
  destruct (runDelayLocal _ _) as [[st3 ev2] fl2]. simpl in *.
  split; [exact Hfl2|]. by rewrite syncCalls_app, Hs, Hs2, app_nil_r.
Qed.

(** A tick over a state with no queued callback and one delayed task. *)
Lemma performSyncTasks_single (d : DelayOperation) (st : State) :
  m_sync_functions st = [] ->
  m_delay_tasks st = [d] ->
  performSyncTasks st
  = (let '(st1, ev, fl) :=
       processDelay d (mkState [] (m_async_tasks st) [] (m_delay_cancel_set st)
                               (m_delay_index st) (clockReads st)) in
     (st1, ev ++ [], fl)).
Proof.
  intros Hs Hd. unfold Threading.performSyncTasks. rewrite Hs. simpl. rewrite Hd. simpl.
  destruct (processDelay d _) as [[st1 ev] fl]. destruct fl; simpl.
  - reflexivity.
  - by rewrite app_nil_r.
Qed.

(** Step by step.  When the callbacks throw nothing but exceptions
    derived from [std::exception], a tick returns and has called the
    queued callbacks, each once, in the order of the queue, whichever of
    them threw.  At its turn, a delayed task that is not cancelled is
    called once and not enqueued again when its delay has elapsed, and is
    enqueued again, uncalled, when it has not.  After [delay(ms, f)] on an
    idle scheduler, a tick at which less than [ms] milliseconds have
    elapsed calls nothing and leaves the task queued, and a following tick
    at which [ms] milliseconds have elapsed calls [f] exactly once. *)
Lemma performSyncTasks_steps :
  ((forall f, stdOnly (body f)) ->
   forall st,
     (performSyncTasks st).2 = Completed
     /\ syncCalls (performSyncTasks st).1.2 = m_sync_functions st)
  /\ (forall d st,
        index d ∉ m_delay_cancel_set st ->
        (delayMilliseconds d <= toMilliseconds (now (clockReads st) - startPoint d) ->
         delayCalls (processDelay d st).1.2 = [(index d, func d)]
         /\ m_delay_tasks (processDelay d st).1.1
            = m_delay_tasks (runScript (body (func d)) (readClock st).2).1.1)
        /\ (toMilliseconds (now (clockReads st) - startPoint d) < delayMilliseconds d ->
            processDelay d st = (pushDelay d (readClock st).2, [], Completed)))
  /\ (forall st f ms,
        m_sync_functions st = [] ->
        m_delay_tasks st = [] ->
        let id := (delay ms f st).1 in
        let first := performSyncTasks (delay ms f st).2 in
        let second := performSyncTasks first.1.1 in
        id ∉ m_delay_cancel_set st ->
        toMilliseconds (now (S (clockReads st)) - now (clockReads st)) < ms ->
        ms <= toMilliseconds (now (S (S (clockReads st))) - now (clockReads st)) ->
        first.1.2 = [] /\ first.2 = Completed
        /\ m_delay_tasks first.1.1 = [mkDelayOperation (now (clockReads st)) ms f id]
        /\ delayCalls second.1.2 = [(id, f)]).
Proof.
  split; [|split].
  - intros Hstd st. by apply performSyncTasks_calls.
  - intros d st Hd. split.
    + intros Hle. destruct (processDelay_elapsed d st Hd Hle) as (H1 & _ & H3 & _).
      by split.
    + intros Hlt. by apply processDelay_pending.
  - intros st f ms Hs Hd id first second Hid Hlt Hle.
    set (d := mkDelayOperation (now (clockReads st)) ms f id).
    assert (Hfirst : first
              = (pushDelay d
                   (mkState [] (m_async_tasks st) [] (m_delay_cancel_set st)
                            id (S (S (clockReads st)))), [], Completed)).
    { subst first. rewrite (performSyncTasks_single d).
      - rewrite processDelay_pending; [reflexivity|exact Hid|exact Hlt].
      - exact Hs.
      - simpl. by rewrite Hd. }
    rewrite Hfirst. cbn [fst snd pushDelay m_delay_tasks app].
    split; [reflexivity|]. split; [reflexivity|]. split; [reflexivity|].
    subst second. rewrite Hfirst. cbn [fst snd].
    rewrite (performSyncTasks_single d); [|reflexivity|reflexivity].
    destruct (processDelay_elapsed d
                (mkState [] (m_async_tasks st) [] (m_delay_cancel_set st)
                         id (S (S (clockReads st)))) Hid Hle) as (H1 & _).
    simpl in H1 |- *.
    destruct (processDelay d _) as [[st1 ev] fl]. simpl in *.
    by rewrite app_nil_r.
Qed.

(** *** Cancelling: the cancelled task is not called *)

Lemma countWith_nil (id : Z) : countWith id [] = 0%nat.
Proof. reflexivity. Qed.

Lemma countWith_cons (id : Z) (d : DelayOperation) (ds : list DelayOperation) :
  countWith id (d :: ds)
  = ((if decide (index d = id) then 1 else 0) + countWith id ds)%nat.
Proof.
  unfold countWith, pendingWith. rewrite filter_cons.
  by destruct (decide (index d = id)).
Qed.

Lemma countWith_app (id : Z) (a b : list DelayOperation) :
  countWith id (a ++ b) = (countWith id a + countWith id b)%nat.
Proof. unfold countWith, pendingWith. by rewrite filter_app, length_app. Qed.

Lemma countWith_zero (id : Z) (ds : list DelayOperation) :
  countWith id ds = 0%nat <-> Forall (fun d => index d <> id) ds.
Proof.
  induction ds as [|d ds IH]; [by split; [constructor|]|].
  rewrite countWith_cons, Forall_cons, <- IH.
  destruct (decide (index d = id)); split; try lia; intros []; try done; lia.
Qed.

Lemma cancelRequested_app (id : Z) (r : bool) (a b : list Event) :
  cancelRequested id r (a ++ b) = cancelRequested id (cancelRequested id r a) b.
Proof.
  revert r. induction a as [|e a IH]; intros r; [reflexivity|].
  destruct e; simpl; apply IH.
Qed.

Lemma cancelRequested_true (id : Z) (ev : list Event) : cancelRequested id true ev = true.
Proof. induction ev as [|e ev IH]; [reflexivity|]. destruct e; simpl; exact IH. Qed.

Lemma quiet_app (id : Z) (r : bool) (a b : list Event) :
  quiet id r (a ++ b) <-> quiet id r a /\ quiet id (cancelRequested id r a) b.
Proof.
  revert r. induction a as [|e a IH]; intros r; simpl; [tauto|].
  destruct e; simpl; rewrite ?IH; tauto.
Qed.

Lemma quiet_calls (id : Z) (r : bool) (ev : list Event) :
  delayCalls ev = [] -> quiet id r ev.
Proof.
  revert r. induction ev as [|e ev IH]; intros r; simpl; [done|].
  destruct e; simpl; try discriminate; intros H; by apply IH.
Qed.



Lemma keeps_refl (id : Z) (n : nat) (c : gset Z) (r : bool) : keeps id n n c c r [].
Proof. split; [lia|]. intros _ H. simpl. split; [|done]. intros ->. by apply H. Qed.

Lemma keeps_trans (id : Z) (n1 n2 n3 : nat) (c1 c2 c3 : gset Z) (r : bool)
    (ev1 ev2 : list Event) :
  keeps id n1 n2 c1 c2 r ev1 ->
  keeps id n2 n3 c2 c3 (cancelRequested id r ev1) ev2 ->
  keeps id n1 n3 c1 c3 r (ev1 ++ ev2).
Proof.
  intros [Hle1 H1] [Hle2 H2]. split; [lia|]. intros Hn Hc.
  destruct (H1 Hn Hc) as [Hc2 Hq1].
  destruct (H2 ltac:(lia) Hc2) as [Hc3 Hq2].
  rewrite cancelRequested_app, quiet_app. by repeat split.
Qed.

Lemma keeps_weaken (id : Z) (n1 n2 n2' : nat) (c1 c2 : gset Z) (r : bool)
    (ev : list Event) :
  keeps id n1 n2 c1 c2 r ev -> (n2' <= n2)%nat -> keeps id n1 n2' c1 c2 r ev.
Proof.
  intros [Hle H] Hle'. split; [lia|]. intros Hn Hc.
  destruct (H Hn Hc) as [Hc2 Hq]. split; [|exact Hq].
  intros Hr ?. apply Hc2; [exact Hr|lia].
Qed.

(** The call of a queued callback and the logging of an error leave the
    delayed tasks and the cancel set alone. *)
Lemma keeps_SyncCalled (id : Z) (n : nat) (c : gset Z) (r : bool) (f : FuncId) :
  keeps id n n c c r [SyncCalled f].
Proof. split; [lia|]. intros _ H. simpl. split; [|done]. intros ->. by apply H. Qed.

Lemma keeps_ErrorLogged (id : Z) (n : nat) (c : gset Z) (r : bool) (f : FuncId) :
  keeps id n n c c r [ErrorLogged f].
Proof. split; [lia|]. intros _ H. simpl. split; [|done]. intros ->. by apply H. Qed.

(** A callback leaves the tasks that carry [id] as they are, unless it
    is handed [id] by [delay]; it cancels and never uncancels. *)
Lemma runScript_tasks (id : Z) (s : Script) (st : State) :
  DelayScheduled id ∉ (runScript s st).1.2 ->
  countWith id (m_delay_tasks (runScript s st).1.1) = countWith id (m_delay_tasks st)
  /\ (forall r,
        cancelRequested id r (runScript s st).1.2 = true ->
        (r = true -> id ∈ m_delay_cancel_set st) ->
        id ∈ m_delay_cancel_set (runScript s st).1.1).
Proof.
  revert st. induction s as [o|f k IH|t k IH|ms f k IH|iter k IH]; intros st;
    cbn [Threading.runScript].
  - simpl. intros _. split; [done|]. intros r -> H. by apply H.
  - intros H. by destruct (IH (sync f st) H).
  - intros H. by destruct (IH (async t st) H).
  - specialize (IH (wrap64 (m_delay_index st + 1))).
    unfold Threading.delay, Threading.readClock. simpl.
    match goal with |- context [runScript _ ?s1] => specialize (IH s1) end.
    destruct (runScript _ _) as [[st2 ev] o]. simpl in *.
    intros H. apply not_elem_of_cons in H as [Hne Hev].
    pose proof (IH Hev) as [Hcount Hc]. split; [|exact Hc].
    rewrite Hcount, countWith_app, countWith_cons, countWith_nil. simpl.
    destruct (decide _) as [Heq|]; [congruence|lia].
  - specialize (IH (cancelDelay iter st)).
    destruct (runScript k (cancelDelay iter st)) as [[st2 ev] o]. simpl in *.
    intros H. apply not_elem_of_cons in H as [_ Hev].
    pose proof (IH Hev) as [Hcount Hc]. split; [exact Hcount|].
    intros r Hr Hin. apply (Hc _ Hr). intros Hor.
    apply orb_true_iff in Hor as [Hor|Hor].
    + apply elem_of_union_r. by apply Hin.
    + apply bool_decide_eq_true in Hor as ->. apply elem_of_union_l.
      by apply elem_of_singleton.
Qed.

Lemma runScript_keeps (id : Z) (held : nat) (r : bool) (s : Script) (st : State) :
  DelayScheduled id ∉ (runScript s st).1.2 ->
  keeps id (held + countWith id (m_delay_tasks st))
           (held + countWith id (m_delay_tasks (runScript s st).1.1))
           (m_delay_cancel_set st) (m_delay_cancel_set (runScript s st).1.1)
           r (runScript s st).1.2.
Proof.
  intros H. destruct (runScript_tasks id s st H) as [Hcount Hc].
  rewrite Hcount. split; [lia|]. intros Hn Hin. split.
  - intros Hr H1. apply (Hc r Hr). intros ->. by apply Hin.
  - apply quiet_calls. apply runScript_calls.
Qed.

Lemma runSyncLocal_keeps (id : Z) (r : bool) (local : list FuncId) (st : State) :
  DelayScheduled id ∉ (runSyncLocal local st).1.2 ->
  keeps id (countWith id (m_delay_tasks st))
           (countWith id (m_delay_tasks (runSyncLocal local st).1.1))
           (m_delay_cancel_set st) (m_delay_cancel_set (runSyncLocal local st).1.1)
           r (runSyncLocal local st).1.2.
Proof.
  revert r st. induction local as [|f rest IH]; intros r st; simpl.
  - intros _. apply keeps_refl.
  - pose proof (runScript_keeps id 0 r (body f) st) as Hs.
    destruct (runScript (body f) st) as [[st1 ev] o]. simpl in *.
    specialize (IH (cancelRequested id r ev) st1).
    destruct (runSyncLocal rest st1) as [[st2 ev2] fl]. simpl in *.
    destruct o; simpl; intros H; apply not_elem_of_cons in H as [_ H].
    + apply not_elem_of_app in H as [H1 H2].
      apply (keeps_trans id _ _ _ _ _ _ r [SyncCalled f] (ev ++ ev2)
               (keeps_SyncCalled id _ _ r f)).
      simpl. eapply keeps_trans; [by apply Hs|by apply IH].
    + apply not_elem_of_app in H as [H1 H]. apply not_elem_of_cons in H as [_ H2].
      apply (keeps_trans id _ _ _ _ _ _ r [SyncCalled f] (ev ++ ErrorLogged f :: ev2)
               (keeps_SyncCalled id _ _ r f)).
      simpl. eapply keeps_trans; [by apply Hs|].
      apply (keeps_trans id _ _ _ _ _ _ _ [ErrorLogged f] ev2
               (keeps_ErrorLogged id _ _ _ f)).
      simpl. by apply IH.
    + apply (keeps_trans id _ _ _ _ _ _ r [SyncCalled f] ev
               (keeps_SyncCalled id _ _ r f)).
      simpl. by apply Hs.
Qed.

Lemma processDelay_keeps (id : Z) (r : bool) (d : DelayOperation) (held : nat) (st : State) :
  DelayScheduled id ∉ (processDelay d st).1.2 ->
  keeps id (countWith id [d] + held + countWith id (m_delay_tasks st))
           (held + countWith id (m_delay_tasks (processDelay d st).1.1))
           (m_delay_cancel_set st) (m_delay_cancel_set (processDelay d st).1.1)
           r (processDelay d st).1.2.
Proof.
  rewrite countWith_cons, countWith_nil.
  unfold Threading.processDelay. case_bool_decide as Hcancel; simpl.
  - intros _. split; [lia|]. intros Hn Hc. split; [|done].
    simpl. intros -> H1. destruct (decide (index d = id)) as [Heq|Hne]; [lia|].
    apply elem_of_difference. split; [apply Hc; [done|lia]|].
    rewrite elem_of_singleton. congruence.
  - destruct (_ <=? _).
    + pose proof (runScript_tasks id (body (func d)) (readClock st).2) as Hs.
      pose proof (runScript_calls (body (func d)) (readClock st).2) as [_ Hd].
      simpl in Hs, Hd.
      destruct (runScript (body (func d)) _) as [[st2 ev] o]. simpl in *.
      assert (Hgoal : DelayScheduled id ∉ ev ->
                forall (c' : gset Z) (ev' : list Event),
                  (id ∈ m_delay_cancel_set st2 -> index d <> id -> id ∈ c') ->
                  cancelRequested id r ev' = cancelRequested id r ev ->
                  ((r = true -> index d <> id) -> quiet id r ev') ->
                  keeps id
                    ((if decide (index d = id) then 1 else 0) + 0 + held
                     + countWith id (m_delay_tasks st))
                    (held + countWith id (m_delay_tasks st2))
                    (m_delay_cancel_set st) c' r ev').
      { intros Hev c' ev' Hc' Hreq Hquiet. destruct (Hs Hev) as [Hcount Hmono].
        rewrite Hcount. split; [lia|]. intros Hn Hc.
        assert (Hne : r = true -> index d <> id).
        { intros Hr Heq. destruct (decide (index d = id)); [|done].
          apply Hcancel. rewrite Heq. apply Hc; [exact Hr|lia]. }
        split; [|by apply Hquiet].
        rewrite Hreq. intros Hr H1.
        destruct (decide (index d = id)); [lia|].
        apply Hc'; [|done]. apply (Hmono r Hr). intros Hr'. apply Hc; [exact Hr'|lia]. }
      assert (Herase : forall c, id ∈ m_delay_cancel_set st2 -> index d <> id ->
                m_delay_cancel_set (eraseCancel (index d) st2) = c -> id ∈ c).
      { intros c Hin Hne <-. unfold eraseCancel. case_bool_decide; simpl; [|exact Hin].
        apply elem_of_difference. split; [exact Hin|]. rewrite elem_of_singleton. congruence. }
      assert (Htasks : m_delay_tasks (eraseCancel (index d) st2) = m_delay_tasks st2)
        by (unfold eraseCancel; by case_bool_decide).
      assert (Hq : forall r', quiet id r' ev) by (intros r'; by apply quiet_calls).
      destruct o; simpl; rewrite ?Htasks; intros H; apply not_elem_of_cons in H as [_ H].
      * apply Hgoal; [exact H|by eauto|reflexivity|].
        intros Hne. simpl. by split.
      * apply not_elem_of_app in H as [H _].
        apply Hgoal; [exact H|by eauto| |].
        -- simpl. by rewrite cancelRequested_app.
        -- intros Hne. simpl. split; [exact Hne|]. apply quiet_app. by split.
      * apply Hgoal; [exact H|by eauto|reflexivity|].
        intros Hne. simpl. by split.
    + simpl. intros _. rewrite countWith_app, countWith_cons, countWith_nil.
      split; [lia|]. intros Hn Hc. split; [|done].
      simpl. intros -> H1. apply Hc; [done|lia].
Qed.

Lemma runDelayLocal_keeps (id : Z) (r : bool) (delay_local : list DelayOperation)
    (st : State) :
  DelayScheduled id ∉ (runDelayLocal delay_local st).1.2 ->
  keeps id (countWith id delay_local + countWith id (m_delay_tasks st))
           (countWith id (m_delay_tasks (runDelayLocal delay_local st).1.1))
           (m_delay_cancel_set st)
           (m_delay_cancel_set (runDelayLocal delay_local st).1.1)
           r (runDelayLocal delay_local st).1.2.
Proof.
  revert r st. induction delay_local as [|d rest IH]; intros r st; simpl.
  - intros _. apply keeps_refl.
  - pose proof (processDelay_keeps id r d (countWith id rest) st) as Hd.
    rewrite (countWith_cons id d rest).
    rewrite (countWith_cons id d []), countWith_nil in Hd.
    destruct (processDelay d st) as [[st1 ev] fl]. simpl in *.
    replace ((if decide (index d = id) then 1 else 0) + countWith id rest
             + countWith id (m_delay_tasks st))%nat
      with ((if decide (index d = id) then 1 else 0) + 0 + countWith id rest
            + countWith id (m_delay_tasks st))%nat by lia.
    destruct fl.
    + specialize (IH (cancelRequested id r ev) st1).
      destruct (runDelayLocal rest st1) as [[st2 ev2] fl2].
      simpl in *. intros H. apply not_elem_of_app in H as [H1 H2].
      eapply keeps_trans; [by apply Hd|by apply IH].
    + simpl. intros H. eapply keeps_weaken; [by apply Hd|lia].
Qed.

Lemma performSyncTasks_keeps (id : Z) (r : bool) (st : State) :
  DelayScheduled id ∉ (performSyncTasks st).1.2 ->
  keeps id (countWith id (m_delay_tasks st))
           (countWith id (m_delay_tasks (performSyncTasks st).1.1))
           (m_delay_cancel_set st) (m_delay_cancel_set (performSyncTasks st).1.1)
           r (performSyncTasks st).1.2.
Proof.
  unfold Threading.performSyncTasks.
  pose proof (runSyncLocal_keeps id r (m_sync_functions st)
                (mkState [] (m_async_tasks st) (m_delay_tasks st)
                         (m_delay_cancel_set st) (m_delay_index st) (clockReads st)))
    as Hsync.
  destruct (runSyncLocal _ _) as [[st1 ev1] fl]. simpl in *.
  destruct fl; [|exact Hsync].
  pose proof (runDelayLocal_keeps id (cancelRequested id r ev1) (m_delay_tasks st1)
                (mkState (m_sync_functions st1) (m_async_tasks st1) []
                         (m_delay_cancel_set st1) (m_delay_index st1) (clockReads st1)))
    as Hdelay.
  destruct (runDelayLocal _ _) as [[st3 ev2] fl2]. simpl in *.
  rewrite countWith_nil, Nat.add_0_r in Hdelay.
  intros H. apply not_elem_of_app in H as [H1 H2].
  eapply keeps_trans; [by apply Hsync|by apply Hdelay].
Qed.


(** *** Unfolding equations *)

Lemma runScript_CallDelay (ms : Z) (f : FuncId) (k : Z -> Script) (st : State) :
  runScript (CallDelay ms f k) st
  = ((runScript (k (delay ms f st).1) (delay ms f st).2).1.1,
     DelayScheduled (delay ms f st).1
     :: (runScript (k (delay ms f st).1) (delay ms f st).2).1.2,
     (runScript (k (delay ms f st).1) (delay ms f st).2).2).
Proof.
  cbn [Threading.runScript]. destruct (delay ms f st) as [i s1]. simpl.
  by destruct (runScript (k i) s1) as [[? ?] ?].
Qed.

Lemma runScript_CallCancelDelay (iter : Z) (k : Script) (st : State) :
  runScript (CallCancelDelay iter k) st
  = ((runScript k (cancelDelay iter st)).1.1,
     CancelRequested iter :: (runScript k (cancelDelay iter st)).1.2,
     (runScript k (cancelDelay iter st)).2).
Proof.
  cbn [Threading.runScript]. by destruct (runScript k (cancelDelay iter st)) as [[? ?] ?].
Qed.

Lemma processDelay_unfold (d : DelayOperation) (st : State) :
  processDelay d st
  = if bool_decide (index d ∈ m_delay_cancel_set st) then
      (mkState (m_sync_functions st) (m_async_tasks st) (m_delay_tasks st)
               (m_delay_cancel_set st ∖ {[index d]}) (m_delay_index st) (clockReads st),
       [], Completed)
    else if delayMilliseconds d <=? toMilliseconds ((readClock st).1 - startPoint d) then
      match (runScript (body (func d)) (readClock st).2).2 with
      | Returns =>
          (eraseCancel (index d) (runScript (body (func d)) (readClock st).2).1.1,
           DelayCalled (index d) (func d)
           :: (runScript (body (func d)) (readClock st).2).1.2,
           Completed)
      | ThrowsStd =>
          (eraseCancel (index d) (runScript (body (func d)) (readClock st).2).1.1,
           DelayCalled (index d) (func d)
           :: (runScript (body (func d)) (readClock st).2).1.2 ++ [ErrorLogged (func d)],
           Completed)
      | ThrowsOther =>
          ((runScript (body (func d)) (readClock st).2).1.1,
           DelayCalled (index d) (func d)
           :: (runScript (body (func d)) (readClock st).2).1.2,
           Escaped)
      end
    else (pushDelay d (readClock st).2, [], Completed).
Proof.
  unfold Threading.processDelay. case_bool_decide; [reflexivity|].
  cbn [Threading.readClock fst snd]. destruct (_ <=? _); [|reflexivity].
  by destruct (runScript (body (func d)) _) as [[st2 ev] []].
Qed.

(** *** Identifiers are not handed out twice before the counter wraps *)

Lemma scheduledIds_app (a b : list Event) :
  scheduledIds (a ++ b) = scheduledIds a ++ scheduledIds b.
Proof. apply omap_app. Qed.

Lemma scheduledIds_cons (i : Z) (ev : list Event) :
  scheduledIds (DelayScheduled i :: ev) = i :: scheduledIds ev.
Proof. reflexivity. Qed.

Lemma counts_nil (i : Z) : counts i i [].
Proof. intros _ _. simpl. split; [lia|constructor]. Qed.

Lemma counts_app (i1 i2 i3 : Z) (a b : list Event) :
  counts i1 i2 a -> counts i2 i3 b -> counts i1 i3 (a ++ b).
Proof.
  intros Ha Hb H0 Hroom. rewrite scheduledIds_app, length_app in *.
  destruct (Ha H0 ltac:(lia)) as [-> Hfa].
  destruct (Hb ltac:(lia) ltac:(lia)) as [-> Hfb].
  split; [lia|]. apply Forall_app. split; [exact Hfa|].
  eapply Forall_impl; [exact Hfb|]. simpl. intros j Hj. lia.
Qed.

Lemma counts_cons (i1 i2 : Z) (e : Event) (ev : list Event) :
  (forall j, e <> DelayScheduled j) -> counts i1 i2 ev -> counts i1 i2 (e :: ev).
Proof.
  intros He H. unfold counts.
  assert (Hids : scheduledIds (e :: ev) = scheduledIds ev).
  { destruct e; try reflexivity. by destruct (He index0). }
  rewrite Hids. exact H.
Qed.

Lemma runScript_counts (s : Script) (st : State) :
  counts (m_delay_index st) (m_delay_index (runScript s st).1.1) (runScript s st).1.2.
Proof.
  revert st. induction s as [o|f k IH|t k IH|ms f k IH|iter k IH]; intros st.
  - apply counts_nil.
  - apply (IH (sync f st)).
  - apply (IH (async t st)).
  - rewrite runScript_CallDelay. cbn [fst snd].
    specialize (IH (delay ms f st).1 (delay ms f st).2).
    intros H0 Hroom. rewrite scheduledIds_cons in *. cbn [length] in *.
    assert (Hid : (delay ms f st).1 = m_delay_index st + 1).
    { simpl. apply wrap64_small. unfold is_size_t, SIZE_WIDTH. lia. }
    assert (Hindex : m_delay_index (delay ms f st).2 = m_delay_index st + 1) by exact Hid.
    rewrite Hindex in IH. destruct (IH ltac:(lia) ltac:(lia)) as [Hi Hf].
    split; [lia|]. constructor; [lia|].
    eapply Forall_impl; [exact Hf|]. simpl. intros j Hj. lia.
  - rewrite runScript_CallCancelDelay. cbn [fst snd].
    apply counts_cons; [discriminate|]. apply (IH (cancelDelay iter st)).
Qed.

Lemma runSyncLocal_counts (local : list FuncId) (st : State) :
  counts (m_delay_index st) (m_delay_index (runSyncLocal local st).1.1)
         (runSyncLocal local st).1.2.
Proof.
  revert st. induction local as [|f rest IH]; intros st; cbn [Threading.runSyncLocal].
  - apply counts_nil.
  - pose proof (runScript_counts (body f) st) as Hs.
    destruct (runScript (body f) st) as [[st1 ev] o]. simpl in Hs.
    specialize (IH st1). destruct (runSyncLocal rest st1) as [[st2 ev2] fl].
    simpl in IH. destruct o; simpl; apply counts_cons; try discriminate.
    + by eapply counts_app.
    + eapply counts_app; [exact Hs|]. apply counts_cons; [discriminate|exact IH].
    + exact Hs.
Qed.

Lemma m_delay_index_eraseCancel (i : Z) (st : State) :
  m_delay_index (eraseCancel i st) = m_delay_index st.
Proof. unfold eraseCancel. by case_bool_decide. Qed.

Lemma processDelay_counts (d : DelayOperation) (st : State) :
  counts (m_delay_index st) (m_delay_index (processDelay d st).1.1)
         (processDelay d st).1.2.
Proof.
  rewrite processDelay_unfold. case_bool_decide; [apply counts_nil|].
  destruct (_ <=? _); [|apply counts_nil].
  pose proof (runScript_counts (body (func d)) (readClock st).2) as Hs.
  destruct (runScript (body (func d)) (readClock st).2) as [[st2 ev] o].
  simpl in Hs |- *.
  destruct o; simpl; rewrite ?m_delay_index_eraseCancel;
    apply counts_cons; try discriminate.
  - exact Hs.
  - eapply counts_app; [exact Hs|]. apply counts_cons; [discriminate|apply counts_nil].
  - exact Hs.
Qed.

Lemma runDelayLocal_counts (delay_local : list DelayOperation) (st : State) :
  counts (m_delay_index st) (m_delay_index (runDelayLocal delay_local st).1.1)
         (runDelayLocal delay_local st).1.2.
Proof.
  revert st. induction delay_local as [|d rest IH]; intros st;
    cbn [Threading.runDelayLocal].
  - apply counts_nil.
  - pose proof (processDelay_counts d st) as Hd.
    destruct (processDelay d st) as [[st1 ev] fl]. simpl in Hd.
    destruct fl; [|exact Hd].
    specialize (IH st1). destruct (runDelayLocal rest st1) as [[st2 ev2] fl2].
    simpl in IH |- *. by eapply counts_app.
Qed.

Lemma performSyncTasks_counts (st : State) :
  counts (m_delay_index st) (m_delay_index (performSyncTasks st).1.1)
         (performSyncTasks st).1.2.
Proof.
  unfold Threading.performSyncTasks.
  pose proof (runSyncLocal_counts (m_sync_functions st)
                (mkState [] (m_async_tasks st) (m_delay_tasks st)
                         (m_delay_cancel_set st) (m_delay_index st) (clockReads st)))
    as Hsync.
  destruct (runSyncLocal _ _) as [[st1 ev1] fl]. simpl in Hsync.
  destruct fl; [|exact Hsync].
  pose proof (runDelayLocal_counts (m_delay_tasks st1)
                (mkState (m_sync_functions st1) (m_async_tasks st1) []
                         (m_delay_cancel_set st1) (m_delay_index st1) (clockReads st1)))
    as Hdelay.
  destruct (runDelayLocal _ _) as [[st3 ev2] fl2]. simpl in Hdelay |- *.
  by eapply counts_app.
Qed.

Lemma exec_counts (steps : list Step) (st : State) :
  counts (m_delay_index st) (m_delay_index (exec steps st).1) (exec steps st).2.
Proof.
  revert st. induction steps as [|[s|] rest IH]; intros st; cbn [Threading.exec].
  - apply counts_nil.
  - pose proof (runScript_counts s st) as Hs.
    destruct (runScript s st) as [[st1 ev] o]. simpl in Hs.
    specialize (IH st1). destruct (exec rest st1) as [st2 ev2].
    simpl in IH |- *. by eapply counts_app.
  - pose proof (performSyncTasks_counts st) as Hs.
    destruct (performSyncTasks st) as [[st1 ev] fl]. simpl in Hs.
    specialize (IH st1). destruct (exec rest st1) as [st2 ev2].
    simpl in IH |- *. by eapply counts_app.
Qed.

(** An identifier that [delay] has handed out is not handed out again as
    long as the counter has room: that takes [2^64] calls of [delay]. *)
Lemma identifier_not_reissued (id : Z) (steps : list Step) (st : State) :
  0 <= m_delay_index st ->
  id <= m_delay_index st ->
  m_delay_index st + Z.of_nat (length (scheduledIds (exec steps st).2)) < 2 ^ 64 ->
  DelayScheduled id ∉ (exec steps st).2.
Proof.
  intros H0 Hid Hroom Hin.
  destruct (exec_counts steps st H0 Hroom) as [_ Hall].
  assert (Hmem : id ∈ scheduledIds (exec steps st).2).
  { unfold scheduledIds. apply list_elem_of_omap. by exists (DelayScheduled id). }
  rewrite Forall_forall in Hall. specialize (Hall id Hmem). lia.
Qed.

(** *** Cancelling: a stale identifier changes nothing else *)


Lemma eraseCancel_eq (i : Z) (st : State) :
  eraseCancel i st
  = mkState (m_sync_functions st) (m_async_tasks st) (m_delay_tasks st)
            (m_delay_cancel_set st ∖ {[i]}) (m_delay_index st) (clockReads st).
Proof.
  unfold eraseCancel. case_bool_decide; [reflexivity|].
  destruct st. simpl. f_equal. set_solver.
Qed.









End Facts.

Lemma standardBody_stdOnly (f : FuncId) : stdOnly (standardBody f).
Proof. destruct f as [|[|[|f]]]; simpl; discriminate. Qed.

End ThreadingFacts.

(** ** The scheduler: what a tick calls, identifiers, stale cancellations *)

Module SchedulerFacts.

Import Threading.
Import ThreadingFacts.

Section Runs.

Variable body : FuncId -> Script.
Variable now : nat -> Z.

Local Abbreviation readClock := (Threading.readClock now).
Local Abbreviation delay := (Threading.delay now).
Local Abbreviation runScript := (Threading.runScript now).
Local Abbreviation runSyncLocal := (Threading.runSyncLocal body now).
Local Abbreviation processDelay := (Threading.processDelay body now).
Local Abbreviation runDelayLocal := (Threading.runDelayLocal body now).
Local Abbreviation performSyncTasks := (Threading.performSyncTasks body now).
Local Abbreviation exec := (Threading.exec body now).

(** *** What a tick calls *)

(** A callback adds to the pending delayed tasks and takes none away. *)
Lemma runScript_pending (s : Script) (st : State) :
  m_delay_tasks st `prefix_of` m_delay_tasks (runScript s st).1.1.
Proof.
  revert st. induction s as [o|f k IH|t k IH|ms f k IH|iter k IH]; intros st.
  - reflexivity.
  - apply (IH (sync f st)).
  - apply (IH (async t st)).
  - rewrite runScript_CallDelay. cbn [fst snd].
    etransitivity; [|apply IH]. simpl. by eexists.
  - rewrite runScript_CallCancelDelay. cbn [fst snd]. apply (IH (cancelDelay iter st)).
Qed.

(** The first loop calls a prefix of the swapped-out callbacks, the whole
    of it when it completes; it calls no delayed task and takes none away. *)
Lemma runSyncLocal_prefix (local : list FuncId) (st : State) :
  syncCalls (runSyncLocal local st).1.2 `prefix_of` local
  /\ ((runSyncLocal local st).2 = Completed -> syncCalls (runSyncLocal local st).1.2 = local)
  /\ delayCalls (runSyncLocal local st).1.2 = []
  /\ m_delay_tasks st `prefix_of` m_delay_tasks (runSyncLocal local st).1.1.
Proof.
  revert st. induction local as [|f rest IH]; intros st; cbn [Threading.runSyncLocal].
  - by repeat split.
  - pose proof (runScript_calls now (body f) st) as [Hs Hd].
    pose proof (runScript_pending (body f) st) as Hp.
    destruct (runScript (body f) st) as [[st1 ev] o]. cbn [fst snd] in Hs, Hd, Hp.
    specialize (IH st1). destruct (runSyncLocal rest st1) as [[st2 ev2] fl].
    cbn [fst snd] in IH. destruct IH as (IHpre & IHall & IHd & IHp).
    destruct o; cbn [fst snd].
    + change (SyncCalled f :: ev ++ ev2) with ([SyncCalled f] ++ ev ++ ev2).
      rewrite !syncCalls_app, !delayCalls_app, Hs, Hd, IHd.
      repeat split.
      * by apply prefix_cons.
      * intros Hfl. simpl. f_equal. by apply IHall.
      * by etransitivity.
    + change (SyncCalled f :: ev ++ ErrorLogged f :: ev2)
        with ([SyncCalled f] ++ ev ++ [ErrorLogged f] ++ ev2).
      rewrite !syncCalls_app, !delayCalls_app, Hs, Hd, IHd.
      repeat split.
      * by apply prefix_cons.
      * intros Hfl. simpl. f_equal. by apply IHall.
      * by etransitivity.
    + change (SyncCalled f :: ev) with ([SyncCalled f] ++ ev).
      rewrite !syncCalls_app, !delayCalls_app, Hs, Hd.
      repeat split.
      * apply prefix_cons, prefix_nil.
      * discriminate.
      * exact Hp.
Qed.

(** One delayed task: no queued callback is called; the task is called at
    most once, and only when its identifier is not in the cancel set and
    its delay has elapsed. *)
Lemma processDelay_called (d : DelayOperation) (st : State) :
  syncCalls (processDelay d st).1.2 = []
  /\ (delayCalls (processDelay d st).1.2 = []
      \/ (delayCalls (processDelay d st).1.2 = [called d]
          /\ (index d ∉ m_delay_cancel_set st)
          /\ delayMilliseconds d <= toMilliseconds (now (clockReads st) - startPoint d))).
Proof.
  rewrite processDelay_unfold. case_bool_decide as Hc; [by split; [|left]|].
  cbn [Threading.readClock fst snd].
  destruct (_ <=? _) eqn:Hle; [|by split; [|left]].
  apply Z.leb_le in Hle.
  pose proof (runScript_calls now (body (func d))
                (mkState (m_sync_functions st) (m_async_tasks st) (m_delay_tasks st)
                         (m_delay_cancel_set st) (m_delay_index st) (S (clockReads st))))
    as [Hs Hd].
  destruct (runScript (body (func d)) _) as [[st2 ev] o]. cbn [fst snd] in Hs, Hd |- *.
  destruct o; cbn [fst snd].
  - change (DelayCalled (index d) (func d) :: ev)
      with ([DelayCalled (index d) (func d)] ++ ev).
    rewrite syncCalls_app, delayCalls_app, Hs, Hd. split; [reflexivity|by right].
  - change (DelayCalled (index d) (func d) :: ev ++ [ErrorLogged (func d)])
      with ([DelayCalled (index d) (func d)] ++ ev ++ [ErrorLogged (func d)]).
    rewrite !syncCalls_app, !delayCalls_app, Hs, Hd. split; [reflexivity|by right].
  - change (DelayCalled (index d) (func d) :: ev)
      with ([DelayCalled (index d) (func d)] ++ ev).
    rewrite syncCalls_app, delayCalls_app, Hs, Hd. split; [reflexivity|by right].
Qed.

Lemma runDelayLocal_called (delay_local : list DelayOperation) (st : State) :
  syncCalls (runDelayLocal delay_local st).1.2 = []
  /\ delayCalls (runDelayLocal delay_local st).1.2 `sublist_of` (called <$> delay_local).
Proof.
  revert st. induction delay_local as [|d rest IH]; intros st;
    cbn [Threading.runDelayLocal].
  - by split.
  - pose proof (processDelay_called d st) as [Hs Hd].
    destruct (processDelay d st) as [[st1 ev] fl]. cbn [fst snd] in Hs, Hd.
    assert (Hone : delayCalls ev `sublist_of` [called d]).
    { destruct Hd as [->|[-> _]]; [apply sublist_nil_l|reflexivity]. }
    destruct fl; cbn [fst snd].
    + specialize (IH st1). destruct (runDelayLocal rest st1) as [[st2 ev2] fl2].
      cbn [fst snd] in IH |- *. destruct IH as [IHs IHd].
      rewrite syncCalls_app, delayCalls_app, Hs, IHs. split; [reflexivity|].
      rewrite fmap_cons. by apply (sublist_app _ [called d]).
    + split; [exact Hs|]. rewrite fmap_cons.
      by apply (sublist_inserts_r (called <$> rest) _ [called d]).
Qed.




(** *** The identifiers that [delay] hands out *)

Lemma issues_nil (i : Z) : issues i [].
Proof. intros _ _. reflexivity. Qed.

Lemma issues_app (i1 i2 : Z) (a b : list Event) :
  issues i1 a -> counts i1 i2 a -> issues i2 b -> issues i1 (a ++ b).
Proof.
  intros Ha Hc Hb H0 Hroom. rewrite scheduledIds_app, length_app in *.
  destruct (Hc H0 ltac:(lia)) as [Hi2 _].
  rewrite Nat2Z.inj_add, seqZ_app by lia.
  rewrite <- (Ha H0) by lia.
  replace (i1 + 1 + Z.of_nat (length (scheduledIds a))) with (i2 + 1) by lia.
  by rewrite <- (Hb ltac:(lia)) by lia.
Qed.

Lemma issues_cons (i : Z) (e : Event) (ev : list Event) :
  (forall j, e <> DelayScheduled j) -> issues i ev -> issues i (e :: ev).
Proof.
  intros He H. unfold issues.
  assert (Hids : scheduledIds (e :: ev) = scheduledIds ev).
  { destruct e; try reflexivity. by destruct (He index0). }
  rewrite Hids. exact H.
Qed.

Lemma runScript_issues (s : Script) (st : State) :
  issues (m_delay_index st) (runScript s st).1.2.
Proof.
  revert st. induction s as [o|f k IH|t k IH|ms f k IH|iter k IH]; intros st.
  - apply issues_nil.
  - apply (IH (sync f st)).
  - apply (IH (async t st)).
  - rewrite runScript_CallDelay. cbn [fst snd].
    specialize (IH (delay ms f st).1 (delay ms f st).2).
    intros H0 Hroom. rewrite scheduledIds_cons in *. cbn [length] in *.
    assert (Hid : (delay ms f st).1 = m_delay_index st + 1).
    { simpl. apply wrap64_small. unfold is_size_t, SIZE_WIDTH. lia. }
    assert (Hindex : m_delay_index (delay ms f st).2 = m_delay_index st + 1) by exact Hid.
    unfold issues in IH. rewrite Hindex in IH.
    set (ids := scheduledIds (runScript (k (delay ms f st).1) (delay ms f st).2).1.2) in *.
    specialize (IH ltac:(lia) ltac:(lia)).
    rewrite Hid, seqZ_cons by lia. f_equal. rewrite IH at 1. f_equal; lia.
  - rewrite runScript_CallCancelDelay. cbn [fst snd].
    apply issues_cons; [discriminate|]. apply (IH (cancelDelay iter st)).
Qed.

Lemma runSyncLocal_issues (local : list FuncId) (st : State) :
  issues (m_delay_index st) (runSyncLocal local st).1.2.
Proof.
  revert st. induction local as [|f rest IH]; intros st; cbn [Threading.runSyncLocal].
  - apply issues_nil.
  - pose proof (runScript_issues (body f) st) as Hs.
    pose proof (runScript_counts now (body f) st) as Hc.
    destruct (runScript (body f) st) as [[st1 ev] o]. cbn [fst snd] in Hs, Hc.
    specialize (IH st1). destruct (runSyncLocal rest st1) as [[st2 ev2] fl].
    cbn [fst snd] in IH. destruct o; cbn [fst snd]; apply issues_cons; try discriminate.
    + by eapply issues_app.
    + eapply issues_app; [exact Hs|exact Hc|]. apply issues_cons; [discriminate|exact IH].
    + exact Hs.
Qed.

Lemma processDelay_issues (d : DelayOperation) (st : State) :
  issues (m_delay_index st) (processDelay d st).1.2.
Proof.
  rewrite processDelay_unfold. case_bool_decide; [apply issues_nil|].
  destruct (_ <=? _); [|apply issues_nil].
  pose proof (runScript_issues (body (func d)) (readClock st).2) as Hs.
  pose proof (runScript_counts now (body (func d)) (readClock st).2) as Hc.
  destruct (runScript (body (func d)) (readClock st).2) as [[st2 ev] o].
  cbn [fst snd Threading.readClock m_delay_index] in Hs, Hc |- *.
  destruct o; cbn [fst snd]; apply issues_cons; try discriminate.
  - exact Hs.
  - eapply issues_app; [exact Hs|exact Hc|].
    apply issues_cons; [discriminate|apply issues_nil].
  - exact Hs.
Qed.

Lemma runDelayLocal_issues (delay_local : list DelayOperation) (st : State) :
  issues (m_delay_index st) (runDelayLocal delay_local st).1.2.
Proof.
  revert st. induction delay_local as [|d rest IH]; intros st;
    cbn [Threading.runDelayLocal].
  - apply issues_nil.
  - pose proof (processDelay_issues d st) as Hd.
    pose proof (processDelay_counts body now d st) as Hc.
    destruct (processDelay d st) as [[st1 ev] fl]. cbn [fst snd] in Hd, Hc.
    destruct fl; [|exact Hd].
    specialize (IH st1). destruct (runDelayLocal rest st1) as [[st2 ev2] fl2].
    cbn [fst snd] in IH |- *. by eapply issues_app.
Qed.

Lemma performSyncTasks_issues (st : State) :
  issues (m_delay_index st) (performSyncTasks st).1.2.
Proof.
  unfold Threading.performSyncTasks.
  pose proof (runSyncLocal_issues (m_sync_functions st)
                (mkState [] (m_async_tasks st) (m_delay_tasks st)
                         (m_delay_cancel_set st) (m_delay_index st) (clockReads st)))
    as Hsync.
  pose proof (runSyncLocal_counts body now (m_sync_functions st)
                (mkState [] (m_async_tasks st) (m_delay_tasks st)
                         (m_delay_cancel_set st) (m_delay_index st) (clockReads st)))
    as Hcount.
  destruct (Threading.runSyncLocal _ _ _ _) as [[st1 ev1] fl].
  cbn [fst snd m_delay_index] in Hsync, Hcount.
  destruct fl; [|exact Hsync].
  pose proof (runDelayLocal_issues (m_delay_tasks st1)
                (mkState (m_sync_functions st1) (m_async_tasks st1) []
                         (m_delay_cancel_set st1) (m_delay_index st1) (clockReads st1)))
    as Hdelay.
  destruct (Threading.runDelayLocal _ _ _ _) as [[st3 ev2] fl2].
  cbn [fst snd m_delay_index] in Hdelay |- *.
  by eapply issues_app.
Qed.

Lemma exec_issues (steps : list Step) (st : State) :
  issues (m_delay_index st) (exec steps st).2.
Proof.
  revert st. induction steps as [|[s|] rest IH]; intros st; cbn [Threading.exec].
  - apply issues_nil.
  - pose proof (runScript_issues s st) as Hs.
    pose proof (runScript_counts now s st) as Hc.
    destruct (runScript s st) as [[st1 ev] o]. cbn [fst snd] in Hs, Hc.
    specialize (IH st1). destruct (exec rest st1) as [st2 ev2].
    cbn [fst snd] in IH |- *. by eapply issues_app.
  - pose proof (performSyncTasks_issues st) as Hs.
    pose proof (performSyncTasks_counts body now st) as Hc.
    destruct (performSyncTasks st) as [[st1 ev] fl]. cbn [fst snd] in Hs, Hc.
    specialize (IH st1). destruct (exec rest st1) as [st2 ev2].
    cbn [fst snd] in IH |- *. by eapply issues_app.
Qed.

(** X16.  The identifiers of delayed tasks.  Over any run of the render
    thread (ticks, and calls that it or its callbacks make) that starts
    with the counter at [i], the identifiers that [delay] returns are
    [i+1], [i+2], ... in the order of the calls, as long as the 64-bit
    counter does not wrap around: they are pairwise distinct, and at the
    end the counter has advanced by the number of calls. *)
Theorem delay_identifiers_consecutive (steps : list Step) (st : State) :
  0 <= m_delay_index st ->
  m_delay_index st + Z.of_nat (length (scheduledIds (exec steps st).2)) < 2 ^ 64 ->
  scheduledIds (exec steps st).2
  = seqZ (m_delay_index st + 1) (Z.of_nat (length (scheduledIds (exec steps st).2)))
  /\ NoDup (scheduledIds (exec steps st).2)
  /\ m_delay_index (exec steps st).1
     = m_delay_index st + Z.of_nat (length (scheduledIds (exec steps st).2)).
Proof.
  intros H0 Hroom.
  pose proof (exec_issues steps st H0 Hroom) as Hids.
  split; [exact Hids|]. split.
  - rewrite Hids. apply NoDup_seqZ.
  - by destruct (exec_counts body now steps st H0 Hroom).
Qed.

(** *** A cancellation that finds no task *)

Lemma runScript_stale (id : Z) (s : Script) (st : State) :
  id ∈ m_delay_cancel_set st -> id ∈ m_delay_cancel_set (runScript s st).1.1.
Proof.
  revert st. induction s as [o|f k IH|t k IH|ms f k IH|iter k IH]; intros st Hin.
  - exact Hin.
  - by apply (IH (sync f st)).
  - by apply (IH (async t st)).
  - rewrite runScript_CallDelay. cbn [fst snd]. by apply IH.
  - rewrite runScript_CallCancelDelay. cbn [fst snd]. apply IH.
    by apply elem_of_union_r.
Qed.

Lemma runSyncLocal_stale (id : Z) (local : list FuncId) (st : State) :
  id ∈ m_delay_cancel_set st -> id ∈ m_delay_cancel_set (runSyncLocal local st).1.1.
Proof.
  revert st. induction local as [|f rest IH]; intros st Hin; cbn [Threading.runSyncLocal].
  - exact Hin.
  - pose proof (runScript_stale id (body f) st Hin) as Hs.
    destruct (runScript (body f) st) as [[st1 ev] o]. cbn [fst snd] in Hs.
    specialize (IH st1 Hs). destruct (runSyncLocal rest st1) as [[st2 ev2] fl].
    by destruct o.
Qed.

Lemma processDelay_stale (id : Z) (d : DelayOperation) (st : State) :
  index d <> id ->
  id ∈ m_delay_cancel_set st -> id ∈ m_delay_cancel_set (processDelay d st).1.1.
Proof.
  intros Hne Hin. rewrite processDelay_unfold.
  case_bool_decide; [cbn; set_solver|].
  destruct (_ <=? _); [|exact Hin].
  pose proof (runScript_stale id (body (func d)) (readClock st).2 Hin) as Hs.
  destruct (runScript (body (func d)) (readClock st).2) as [[st2 ev] o].
  cbn [fst snd] in Hs |- *.
  destruct o; cbn [fst snd]; rewrite ?(eraseCancel_eq body now); cbn; set_solver.
Qed.

Lemma runDelayLocal_stale (id : Z) (delay_local : list DelayOperation) (st : State) :
  Forall (fun d => index d <> id) delay_local ->
  id ∈ m_delay_cancel_set st ->
  id ∈ m_delay_cancel_set (runDelayLocal delay_local st).1.1.
Proof.
  intros Hall. revert st.
  induction Hall as [|d rest Hd _ IH]; intros st Hin; cbn [Threading.runDelayLocal].
  - exact Hin.
  - pose proof (processDelay_stale id d st Hd Hin) as Hs.
    destruct (processDelay d st) as [[st1 ev] fl]. cbn [fst snd] in Hs.
    destruct fl; [|exact Hs].
    specialize (IH st1 Hs). by destruct (runDelayLocal rest st1) as [[st2 ev2] fl2].
Qed.

Lemma performSyncTasks_stale (id : Z) (st : State) :
  countWith id (m_delay_tasks st) = 0%nat ->
  DelayScheduled id ∉ (performSyncTasks st).1.2 ->
  id ∈ m_delay_cancel_set st ->
  id ∈ m_delay_cancel_set (performSyncTasks st).1.1.
Proof.
  unfold Threading.performSyncTasks. intros Hzero Hfresh Hin.
  pose proof (runSyncLocal_stale id (m_sync_functions st)
                (mkState [] (m_async_tasks st) (m_delay_tasks st)
                         (m_delay_cancel_set st) (m_delay_index st) (clockReads st)) Hin)
    as Hs.
  pose proof (runSyncLocal_keeps body now id false (m_sync_functions st)
                (mkState [] (m_async_tasks st) (m_delay_tasks st)
                         (m_delay_cancel_set st) (m_delay_index st) (clockReads st)))
    as Hk.
  destruct (Threading.runSyncLocal _ _ _ _) as [[st1 ev1] fl].
  cbn [fst snd m_delay_tasks m_delay_cancel_set] in Hs, Hk.
  destruct fl; [|exact Hs].
  pose proof (runDelayLocal_stale id (m_delay_tasks st1)
                (mkState (m_sync_functions st1) (m_async_tasks st1) []
                         (m_delay_cancel_set st1) (m_delay_index st1) (clockReads st1)))
    as Hd.
  destruct (Threading.runDelayLocal _ _ _ _) as [[st3 ev2] fl2].
  cbn [fst snd m_delay_cancel_set] in Hd, Hfresh |- *.
  apply Hd; [|exact Hs].
  apply countWith_zero.
  destruct Hk as [Hle _]; [|lia].
  intros Hbad. apply Hfresh. apply elem_of_app. by left.
Qed.

Lemma exec_stale (id : Z) (steps : list Step) (st : State) :
  countWith id (m_delay_tasks st) = 0%nat ->
  DelayScheduled id ∉ (exec steps st).2 ->
  id ∈ m_delay_cancel_set st ->
  id ∈ m_delay_cancel_set (exec steps st).1.
Proof.
  revert st. induction steps as [|[s|] rest IH]; intros st Hzero Hfresh Hin;
    cbn [Threading.exec] in *.
  - exact Hin.
  - pose proof (runScript_stale id s st Hin) as Hs.
    pose proof (runScript_tasks now id s st) as Ht.
    destruct (runScript s st) as [[st1 ev] o]. cbn [fst snd] in Hs, Ht.
    specialize (IH st1). destruct (exec rest st1) as [st2 ev2].
    cbn [fst snd] in IH, Hfresh |- *.
    apply not_elem_of_app in Hfresh as [Hf1 Hf2].
    destruct (Ht Hf1) as [Hcount _]. apply IH; [lia|exact Hf2|exact Hs].
  - pose proof (performSyncTasks_stale id st Hzero) as Hs.
    pose proof (performSyncTasks_keeps body now id false st) as Hk.
    destruct (performSyncTasks st) as [[st1 ev] fl]. cbn [fst snd] in Hs, Hk.
    specialize (IH st1). destruct (exec rest st1) as [st2 ev2].
    cbn [fst snd] in IH, Hfresh |- *.
    apply not_elem_of_app in Hfresh as [Hf1 Hf2].
    destruct (Hk Hf1) as [Hle _]. apply IH; [lia|exact Hf2|by apply Hs].
Qed.

(** X17.  A cancellation that finds no task is never forgotten.  An
    identifier is erased from the cancel set only when a task that carries
    it is dequeued.  So when [cancelDelay(id)] is called while no pending
    task carries [id] (the task has run already, or never existed), [id]
    is still in the cancel set after any run in which [delay] does not
    hand out [id] again: the set grows by one entry for good. *)
Theorem cancelDelay_stale_stays (id : Z) (steps : list Step) (st : State) :
  countWith id (m_delay_tasks st) = 0%nat ->
  (id ∈ m_delay_cancel_set st ->
   DelayScheduled id ∉ (exec steps st).2 ->
   id ∈ m_delay_cancel_set (exec steps st).1)
  /\ (DelayScheduled id ∉ (exec steps (cancelDelay id st)).2 ->
      id ∈ m_delay_cancel_set (exec steps (cancelDelay id st)).1).
Proof.
  intros Hzero. split.
  - intros Hin Hfresh. by apply exec_stale.
  - intros Hfresh. apply exec_stale; [exact Hzero|exact Hfresh|].
    cbn. apply elem_of_union_l. by apply elem_of_singleton.
Qed.

(** *** The background loop *)




(** *** What an escaping exception costs *)

Lemma runScript_plain (s : Script) (st : State) :
  plain s ->
  m_sync_functions (runScript s st).1.1 = m_sync_functions st
  /\ m_delay_tasks (runScript s st).1.1 = m_delay_tasks st.
Proof.
  revert st. induction s as [o|f k IH|t k IH|ms f k IH|iter k IH]; intros st Hs;
    cbn [plain] in Hs; try done.
  - apply (IH (async t st) Hs).
  - rewrite runScript_CallCancelDelay. cbn [fst snd]. apply (IH (cancelDelay iter st) Hs).
Qed.

Lemma runSyncLocal_plain (local : list FuncId) (st : State) :
  (forall f, plain (body f)) ->
  m_sync_functions (runSyncLocal local st).1.1 = m_sync_functions st
  /\ m_delay_tasks (runSyncLocal local st).1.1 = m_delay_tasks st.
Proof.
  intros Hplain. revert st.
  induction local as [|f rest IH]; intros st; cbn [Threading.runSyncLocal]; [done|].
  pose proof (runScript_plain (body f) st (Hplain f)) as [Hq Hp].
  destruct (runScript (body f) st) as [[st1 ev] o]. cbn [fst snd] in Hq, Hp.
  specialize (IH st1). destruct (runSyncLocal rest st1) as [[st2 ev2] fl].
  cbn [fst snd] in IH. destruct IH as [IHq IHp].
  destruct o; cbn [fst snd]; split; congruence.
Qed.

(** One delayed task, under plain callbacks: it is pushed back or not,
    and an exception that escapes leaves it out. *)
Lemma processDelay_plain (d : DelayOperation) (st : State) :
  plain (body (func d)) ->
  m_sync_functions (processDelay d st).1.1 = m_sync_functions st
  /\ (((processDelay d st).2 = Completed
       /\ (m_delay_tasks (processDelay d st).1.1 = m_delay_tasks st
           \/ m_delay_tasks (processDelay d st).1.1 = m_delay_tasks st ++ [d]))
      \/ ((processDelay d st).2 = Escaped
          /\ m_delay_tasks (processDelay d st).1.1 = m_delay_tasks st
          /\ delayCalls (processDelay d st).1.2 = [called d])).
Proof.
  intros Hplain. rewrite processDelay_unfold.
  case_bool_decide; [by split; [|left; split; [|left]]|].
  destruct (_ <=? _); [|by split; [|left; split; [|right]]].
  pose proof (runScript_plain (body (func d)) (readClock st).2 Hplain) as [Hq Hp].
  pose proof (runScript_calls now (body (func d)) (readClock st).2) as [_ Hd].
  destruct (runScript (body (func d)) (readClock st).2) as [[st2 ev] o].
  cbn [fst snd Threading.readClock m_sync_functions m_delay_tasks] in Hq, Hp, Hd |- *.
  destruct o; cbn [fst snd]; rewrite ?(eraseCancel_eq body now);
    cbn [m_sync_functions m_delay_tasks].
  - split; [exact Hq|]. left. split; [reflexivity|by left].
  - split; [exact Hq|]. left. split; [reflexivity|by left].
  - split; [exact Hq|]. right. split; [reflexivity|]. split; [exact Hp|].
    change (DelayCalled (index d) (func d) :: ev)
      with ([DelayCalled (index d) (func d)] ++ ev).
    by rewrite delayCalls_app, Hd.
Qed.

Lemma runDelayLocal_plain (delay_local : list DelayOperation) (st : State) :
  (forall f, plain (body f)) ->
  let loop := runDelayLocal delay_local st in
  m_sync_functions loop.1.1 = m_sync_functions st
  /\ exists kept,
       m_delay_tasks loop.1.1 = m_delay_tasks st ++ kept
       /\ kept `sublist_of` delay_local
       /\ (loop.2 = Escaped ->
           exists pre d post,
             delay_local = pre ++ d :: post
             /\ last (delayCalls loop.1.2) = Some (called d)
             /\ kept `sublist_of` pre).
Proof.
  intros Hplain. revert st.
  induction delay_local as [|d rest IH]; intros st; cbn [Threading.runDelayLocal]; cbv zeta.
  - cbn [fst snd]. split; [reflexivity|]. exists []. rewrite app_nil_r.
    split; [reflexivity|]. split; [reflexivity|discriminate].
  - pose proof (processDelay_plain d st (Hplain _)) as [Hq Hcases].
    destruct (processDelay d st) as [[st1 ev] fl]. cbn [fst snd] in Hq, Hcases.
    destruct Hcases as [[-> Hkept]|(-> & Hp & Hd)].
    + specialize (IH st1). cbv zeta in IH.
      destruct (runDelayLocal rest st1) as [[st2 ev2] fl2].
      cbn [fst snd] in IH |- *. destruct IH as (IHq & kept & IHp & IHsub & IHesc).
      split; [congruence|].
      assert (Hhead : exists head, m_delay_tasks st1 = m_delay_tasks st ++ head
                                   /\ head `sublist_of` [d]).
      { destruct Hkept as [->| ->].
        - exists []. rewrite app_nil_r. split; [reflexivity|apply sublist_nil_l].
        - by exists [d]. }
      destruct Hhead as (head & Hst1 & Hhead).
      exists (head ++ kept). rewrite IHp, Hst1, <- app_assoc.
      split; [reflexivity|]. split; [by apply (sublist_app _ [d])|].
      intros Hfl. destruct (IHesc Hfl) as (pre & d' & post & -> & Hlast & Hsub).
      exists (d :: pre), d', post. split; [reflexivity|]. split.
      * rewrite delayCalls_app, last_app, Hlast. reflexivity.
      * by apply (sublist_app _ [d]).
    + cbn [fst snd]. split; [exact Hq|]. exists []. rewrite app_nil_r.
      split; [exact Hp|]. split; [apply sublist_nil_l|].
      intros _. exists [], d, rest. split; [reflexivity|]. by rewrite Hd.
Qed.

(** X19.  What an escaping exception costs.  Take callbacks that call
    neither [sync] nor [delay].  After a tick no callback is queued any
    more, whether or not the tick called it: the callbacks behind one that
    lets an exception escape are dropped.  The pending delayed tasks after
    the tick are among those before it, in their order.  When the
    exception escapes before any delayed task was called, they are all
    still pending.  When it escapes from a delayed task, that task is the
    last one called, and neither it nor any task behind it in the queue is
    pending afterwards: the tasks behind it are dropped without having
    been examined. *)
Theorem performSyncTasks_escape_drops (st : State) :
  (forall f, plain (body f)) ->
  let tick := performSyncTasks st in
  m_sync_functions tick.1.1 = []
  /\ m_delay_tasks tick.1.1 `sublist_of` m_delay_tasks st
  /\ (tick.2 = Escaped -> delayCalls tick.1.2 = [] ->
      m_delay_tasks tick.1.1 = m_delay_tasks st)
  /\ (tick.2 = Escaped -> delayCalls tick.1.2 <> [] ->
      exists pre d post,
        m_delay_tasks st = pre ++ d :: post
        /\ last (delayCalls tick.1.2) = Some (called d)
        /\ m_delay_tasks tick.1.1 `sublist_of` pre).
Proof.
  intros Hplain. unfold Threading.performSyncTasks.
  pose proof (runSyncLocal_plain (m_sync_functions st)
                (mkState [] (m_async_tasks st) (m_delay_tasks st)
                         (m_delay_cancel_set st) (m_delay_index st) (clockReads st)) Hplain)
    as [Hq Hp].
  pose proof (runSyncLocal_prefix (m_sync_functions st)
                (mkState [] (m_async_tasks st) (m_delay_tasks st)
                         (m_delay_cancel_set st) (m_delay_index st) (clockReads st)))
    as (_ & _ & Hd & _).
  destruct (Threading.runSyncLocal _ _ _ _) as [[st1 ev1] fl].
  cbn [fst snd m_sync_functions m_delay_tasks] in Hq, Hp, Hd.
  destruct fl.
  - pose proof (runDelayLocal_plain (m_delay_tasks st1)
                  (mkState (m_sync_functions st1) (m_async_tasks st1) []
                           (m_delay_cancel_set st1) (m_delay_index st1) (clockReads st1))
                  Hplain) as Hloop.
    cbv zeta in Hloop.
    destruct (Threading.runDelayLocal _ _ _ _) as [[st3 ev2] fl2].
    cbn [fst snd m_sync_functions m_delay_tasks app] in Hloop |- *.
    destruct Hloop as (Hq3 & kept & Hp3 & Hsub & Hesc).
    rewrite Hp in Hsub, Hesc. rewrite Hp3, delayCalls_app, Hd. cbn [app].
    split; [congruence|]. split; [exact Hsub|]. split.
    + intros Hfl Hnone. destruct (Hesc Hfl) as (pre & d & post & _ & Hlast & _).
      by rewrite Hnone in Hlast.
    + intros Hfl _. destruct (Hesc Hfl) as (pre & d & post & Hsplit & Hlast & Hpre).
      by exists pre, d, post.
  - cbn [fst snd]. rewrite Hd.
    split; [exact Hq|]. split; [by rewrite Hp|]. split; [by intros _ _|].
    by intros _ Hne.
Qed.

(** *** Cancelling: the task is dropped at its turn *)










(** *** Each delayed task at its turn *)

(** The second loop takes the tasks one after the other. *)
Lemma runDelayLocal_app (pre post : list DelayOperation) (st : State) :
  (runDelayLocal pre st).2 = Completed ->
  runDelayLocal (pre ++ post) st
  = ((runDelayLocal post (runDelayLocal pre st).1.1).1.1,
     (runDelayLocal pre st).1.2 ++ (runDelayLocal post (runDelayLocal pre st).1.1).1.2,
     (runDelayLocal post (runDelayLocal pre st).1.1).2).
Proof.
  revert st. induction pre as [|d rest IH]; intros st;
    cbn [app Threading.runDelayLocal].
  - intros _. cbn [fst snd app]. by destruct (runDelayLocal post st) as [[? ?] ?].
  - destruct (processDelay d st) as [[st1 ev] fl].
    destruct fl; [|intros Hfl; discriminate Hfl].
    specialize (IH st1). destruct (runDelayLocal rest st1) as [[st2 ev2] fl2].
    cbn [fst snd] in IH |- *. intros Hfl. rewrite (IH Hfl). cbn [fst snd].
    by rewrite app_assoc.
Qed.

(** The second loop adds to the pending delayed tasks and takes none
    away. *)
Lemma processDelay_pending_kept (d : DelayOperation) (st : State) :
  m_delay_tasks st `prefix_of` m_delay_tasks (processDelay d st).1.1.
Proof.
  rewrite processDelay_unfold. case_bool_decide; [reflexivity|].
  destruct (_ <=? _).
  - pose proof (runScript_pending (body (func d)) (readClock st).2) as Hp.
    destruct (runScript (body (func d)) (readClock st).2) as [[st2 ev] o].
    cbn [fst snd Threading.readClock m_delay_tasks] in Hp |- *.
    destruct o; cbn [fst snd]; rewrite ?(eraseCancel_eq body now); exact Hp.
  - cbn [fst snd pushDelay Threading.readClock m_delay_tasks]. by eexists.
Qed.

Lemma runDelayLocal_pending_kept (delay_local : list DelayOperation) (st : State) :
  m_delay_tasks st `prefix_of` m_delay_tasks (runDelayLocal delay_local st).1.1.
Proof.
  revert st. induction delay_local as [|d rest IH]; intros st;
    cbn [Threading.runDelayLocal].
  - reflexivity.
  - pose proof (processDelay_pending_kept d st) as Hp.
    destruct (processDelay d st) as [[st1 ev] fl]. cbn [fst snd] in Hp.
    destruct fl; [|exact Hp].
    specialize (IH st1). destruct (runDelayLocal rest st1) as [[st2 ev2] fl2].
    cbn [fst snd] in IH |- *. by etransitivity.
Qed.

(** A task that is called is not enqueued again: the tasks that carry an
    identifier are, after its turn, those that its callback left. *)
Lemma processDelay_discards (id : Z) (d : DelayOperation) (st : State) :
  index d ∉ m_delay_cancel_set st ->
  delayMilliseconds d <= toMilliseconds (now (clockReads st) - startPoint d) ->
  DelayScheduled id ∉ (processDelay d st).1.2 ->
  countWith id (m_delay_tasks (processDelay d st).1.1) = countWith id (m_delay_tasks st).
Proof.
  intros Hout Hle. rewrite processDelay_unfold.
  rewrite bool_decide_eq_false_2 by exact Hout.
  cbn [Threading.readClock fst snd]. rewrite (proj2 (Z.leb_le _ _) Hle).
  pose proof (runScript_tasks now id (body (func d))
                (mkState (m_sync_functions st) (m_async_tasks st) (m_delay_tasks st)
                         (m_delay_cancel_set st) (m_delay_index st) (S (clockReads st))))
    as Hs.
  destruct (runScript (body (func d)) _) as [[st2 ev] o].
  cbn [fst snd m_delay_tasks] in Hs |- *.
  destruct o; cbn [fst snd]; rewrite ?(eraseCancel_eq body now); cbn [m_delay_tasks];
    intros Hd; apply not_elem_of_cons in Hd as [_ Hd].
  - by destruct (Hs Hd).
  - apply not_elem_of_app in Hd as [Hd _]. by destruct (Hs Hd).
  - by destruct (Hs Hd).
Qed.

(** When the callbacks throw nothing but standard exceptions, a tick is
    its first loop followed by its second loop, and it returns. *)
Lemma performSyncTasks_loops (st : State) :
  (forall f, stdOnly (body f)) ->
  performSyncTasks st
  = ((runDelayLocal (m_delay_tasks (runSyncLocal (m_sync_functions st) (syncTaken st)).1.1)
        (delayTaken (runSyncLocal (m_sync_functions st) (syncTaken st)).1.1)).1.1,
     (runSyncLocal (m_sync_functions st) (syncTaken st)).1.2
     ++ (runDelayLocal (m_delay_tasks (runSyncLocal (m_sync_functions st) (syncTaken st)).1.1)
           (delayTaken (runSyncLocal (m_sync_functions st) (syncTaken st)).1.1)).1.2,
     Completed).
Proof.
  intros Hstd. unfold Threading.performSyncTasks, syncTaken.
  pose proof (runSyncLocal_calls body now (m_sync_functions st)
                (mkState [] (m_async_tasks st) (m_delay_tasks st)
                         (m_delay_cancel_set st) (m_delay_index st) (clockReads st))
                Hstd) as (Hfl & _).
  destruct (Threading.runSyncLocal _ _ _ _) as [[st1 ev1] fl]. cbn [fst snd] in Hfl |- *.
  subst fl. unfold delayTaken.
  pose proof (runDelayLocal_calls body now (m_delay_tasks st1)
                (mkState (m_sync_functions st1) (m_async_tasks st1) []
                         (m_delay_cancel_set st1) (m_delay_index st1) (clockReads st1))
                Hstd) as [Hfl2 _].
  destruct (Threading.runDelayLocal _ _ _ _) as [[st3 ev2] fl2]. cbn [fst snd] in Hfl2 |- *.
  by subst fl2.
Qed.

(** The second loop over [pre ++ d :: post]: the turns of [pre], the turn
    of [d], the turns of [post]. *)
Lemma runDelayLocal_turn (pre post : list DelayOperation) (d : DelayOperation)
    (st : State) :
  (forall f, stdOnly (body f)) ->
  runDelayLocal (pre ++ d :: post) st
  = ((runDelayLocal post (processDelay d (runDelayLocal pre st).1.1).1.1).1.1,
     (runDelayLocal pre st).1.2
     ++ (processDelay d (runDelayLocal pre st).1.1).1.2
     ++ (runDelayLocal post (processDelay d (runDelayLocal pre st).1.1).1.1).1.2,
     Completed).
Proof.
  intros Hstd.
  rewrite runDelayLocal_app by (by destruct (runDelayLocal_calls body now pre st Hstd)).
  cbn [Threading.runDelayLocal].
  pose proof (processDelay_calls body now d (runDelayLocal pre st).1.1 (Hstd _)) as [Hfl _].
  destruct (processDelay d (runDelayLocal pre st).1.1) as [[st1 ev] fl].
  cbn [fst snd] in Hfl |- *. subst fl.
  pose proof (runDelayLocal_calls body now post st1 Hstd) as [Hfl2 _].
  destruct (runDelayLocal post st1) as [[st2 ev2] fl2]. cbn [fst snd] in Hfl2 |- *.
  by subst fl2.
Qed.

(** C5.  The handlers of [performSyncTasks] catch [std::exception].  When
    the callbacks throw nothing but exceptions derived from
    [std::exception], a tick returns and has called the queued callbacks,
    each once, in the order of the queue, whichever of them threw; and it
    is its first loop followed by its second loop, in which every delayed
    task that was pending when the second loop began has its turn, the
    tasks before it first and the tasks behind it afterwards.  At its
    turn, a task that is not cancelled and whose delay has elapsed is
    called, once, between the calls of the tasks before it and those of
    the tasks behind it, and is discarded: if no other task of the loop
    carries its identifier and [delay] does not hand the identifier out
    again during the loop, no task that carries it is pending when the
    tick returns.  A task that is not cancelled and whose delay has not
    elapsed is not called and is pending when the tick returns.  At any
    turn, whatever the callbacks throw, the task is called once and not
    enqueued again when its delay has elapsed, and enqueued again,
    uncalled, when it has not.  After [delay(ms, f)] on an idle
    scheduler, a tick at which less than [ms] milliseconds have elapsed
    calls nothing and leaves the task queued, and a following tick at
    which [ms] milliseconds have elapsed calls [f] exactly once. *)
Theorem performSyncTasks_contract :
  ((forall f, stdOnly (body f)) ->
   forall st,
     (performSyncTasks st).2 = Completed
     /\ syncCalls (performSyncTasks st).1.2 = m_sync_functions st)
  /\ ((forall f, stdOnly (body f)) ->
      forall st pre d post,
        let first := runSyncLocal (m_sync_functions st) (syncTaken st) in
        let loop := runDelayLocal (m_delay_tasks first.1.1) (delayTaken first.1.1) in
        let tick := performSyncTasks st in
        m_delay_tasks first.1.1 = pre ++ d :: post ->
        let at_turn := (runDelayLocal pre (delayTaken first.1.1)).1.1 in
        let turn := processDelay d at_turn in
        let behind := runDelayLocal post turn.1.1 in
        tick = (loop.1.1, first.1.2 ++ loop.1.2, Completed)
        /\ loop = (behind.1.1,
                   (runDelayLocal pre (delayTaken first.1.1)).1.2
                   ++ turn.1.2 ++ behind.1.2,
                   Completed)
        /\ ((index d ∉ m_delay_cancel_set at_turn) ->
            (delayMilliseconds d
             <= toMilliseconds (now (clockReads at_turn) - startPoint d) ->
             (exists before after,
                delayCalls tick.1.2 = before ++ called d :: after
                /\ before `sublist_of` (called <$> pre)
                /\ after `sublist_of` (called <$> post))
             /\ (countWith (index d) pre = 0%nat ->
                 countWith (index d) post = 0%nat ->
                 DelayScheduled (index d) ∉ loop.1.2 ->
                 countWith (index d) (m_delay_tasks tick.1.1) = 0%nat))
            /\ (toMilliseconds (now (clockReads at_turn) - startPoint d)
                < delayMilliseconds d ->
                (exists before after,
                   delayCalls tick.1.2 = before ++ after
                   /\ before `sublist_of` (called <$> pre)
                   /\ after `sublist_of` (called <$> post))
                /\ d ∈ m_delay_tasks tick.1.1)))
  /\ (forall d st,
        index d ∉ m_delay_cancel_set st ->
        (delayMilliseconds d <= toMilliseconds (now (clockReads st) - startPoint d) ->
         delayCalls (processDelay d st).1.2 = [(index d, func d)]
         /\ m_delay_tasks (processDelay d st).1.1
            = m_delay_tasks (runScript (body (func d)) (readClock st).2).1.1)
        /\ (toMilliseconds (now (clockReads st) - startPoint d) < delayMilliseconds d ->
            processDelay d st = (pushDelay d (readClock st).2, [], Completed)))
  /\ (forall st f ms,
        m_sync_functions st = [] ->
        m_delay_tasks st = [] ->
        let id := (delay ms f st).1 in
        let first := performSyncTasks (delay ms f st).2 in
        let second := performSyncTasks first.1.1 in
        id ∉ m_delay_cancel_set st ->
        toMilliseconds (now (S (clockReads st)) - now (clockReads st)) < ms ->
        ms <= toMilliseconds (now (S (S (clockReads st))) - now (clockReads st)) ->
        first.1.2 = [] /\ first.2 = Completed
        /\ m_delay_tasks first.1.1 = [mkDelayOperation (now (clockReads st)) ms f id]
        /\ delayCalls second.1.2 = [(id, f)]).
Proof.
  destruct (performSyncTasks_steps body now) as (Hsync & Hturn & Hscenario).
  split; [exact Hsync|]. split; [|split; [exact Hturn|exact Hscenario]].
  intros Hstd st pre d post first loop tick Hsplit at_turn turn behind.
  assert (Htick : tick = (loop.1.1, first.1.2 ++ loop.1.2, Completed))
    by (by apply performSyncTasks_loops).
  assert (Hloop : loop = (behind.1.1,
                          (runDelayLocal pre (delayTaken first.1.1)).1.2
                          ++ turn.1.2 ++ behind.1.2, Completed)).
  { unfold loop. rewrite Hsplit. by apply runDelayLocal_turn. }
  split; [exact Htick|]. split; [exact Hloop|].
  destruct (runSyncLocal_calls body now (m_sync_functions st) (syncTaken st) Hstd)
    as (_ & _ & Hnone).
  fold first in Hnone.
  destruct (runDelayLocal_called pre (delayTaken first.1.1)) as [_ Hpre].
  destruct (runDelayLocal_called post turn.1.1) as [_ Hpost].
  fold behind in Hpost.
  assert (Hcalls : delayCalls tick.1.2
                   = delayCalls (runDelayLocal pre (delayTaken first.1.1)).1.2
                     ++ delayCalls turn.1.2 ++ delayCalls behind.1.2).
  { rewrite Htick. cbn [fst snd]. rewrite Hloop. cbn [fst snd].
    by rewrite !delayCalls_app, Hnone. }
  intros Hout. split.
  - intros Hle.
    destruct (processDelay_elapsed body now d at_turn Hout Hle) as (Hcalled & _).
    fold turn in Hcalled. split.
    + eexists _, _. split; [|split; [exact Hpre|exact Hpost]].
      by rewrite Hcalls, Hcalled.
    + intros Hcpre Hcpost Hfresh. rewrite Hloop in Hfresh. cbn [fst snd] in Hfresh.
      apply not_elem_of_app in Hfresh as [Hf1 Hf2].
      apply not_elem_of_app in Hf2 as [Hf2 Hf3].
      destruct (runDelayLocal_keeps body now (index d) false pre
                  (delayTaken first.1.1) Hf1) as [Hle1 _].
      fold at_turn in Hle1. rewrite Hcpre in Hle1. cbn [delayTaken m_delay_tasks] in Hle1.
      rewrite countWith_nil in Hle1.
      pose proof (processDelay_discards (index d) d at_turn Hout Hle Hf2) as Heq.
      fold turn in Heq.
      destruct (runDelayLocal_keeps body now (index d) false post turn.1.1 Hf3)
        as [Hle3 _].
      fold behind in Hle3. rewrite Hcpost in Hle3.
      rewrite Htick. cbn [fst snd]. rewrite Hloop. cbn [fst snd]. lia.
  - intros Hlt.
    pose proof (processDelay_pending body now d at_turn Hout Hlt) as Hpending.
    fold turn in Hpending. split.
    + eexists _, _. split; [|split; [exact Hpre|exact Hpost]].
      rewrite Hcalls. by rewrite Hpending.
    + rewrite Htick. cbn [fst snd]. rewrite Hloop. cbn [fst snd].
      pose proof (runDelayLocal_pending_kept post turn.1.1) as Hkept.
      fold behind in Hkept. destruct Hkept as [later ->].
      rewrite Hpending. cbn [fst snd pushDelay m_delay_tasks].
      rewrite !elem_of_app. left. right. apply list_elem_of_here.
Qed.

End Runs.


Lemma delay_identifiers_witness :
  scheduledIds (Threading.exec chainingBody sampleClock
                  [Call (CallDelay 0 1%nat (fun _ => Finish Returns)); Tick;
                   Call (CallDelay 5 2%nat (fun _ => Finish Returns))] idle).2
  = [1; 2; 3].
Proof.
  destruct (delay_identifiers_consecutive chainingBody sampleClock
              [Call (CallDelay 0 1%nat (fun _ => Finish Returns)); Tick;
               Call (CallDelay 5 2%nat (fun _ => Finish Returns))] idle) as (Hids & _).
  - simpl. lia.
  - vm_compute. reflexivity.
  - rewrite Hids. reflexivity.
Defined.

Lemma cancelDelay_stale_witness :
  1 ∈ m_delay_cancel_set
        (Threading.exec sampleBody sampleClock [Tick; Tick] (cancelDelay 1 executed)).1.
Proof.
  apply (proj2 (cancelDelay_stale_stays sampleBody sampleClock 1 [Tick; Tick] executed
                  eq_refl)).
  vm_compute. apply not_elem_of_nil.
Defined.


Lemma performSyncTasks_escape_witness :
  let pending := [mkDelayOperation 0 500 4%nat 1; mkDelayOperation 0 0 0%nat 2;
                  mkDelayOperation 0 500 5%nat 3] in
  let tick := Threading.performSyncTasks sampleBody sampleClock
                (mkState [] [] pending ∅ 3 0) in
  tick.2 = Escaped
  /\ m_delay_tasks tick.1.1 = [mkDelayOperation 0 500 4%nat 1]
  /\ exists pre d post,
       pending = pre ++ d :: post
       /\ last (delayCalls tick.1.2) = Some (called d)
       /\ m_delay_tasks tick.1.1 `sublist_of` pre.
Proof.
  intros pending tick. split; [reflexivity|]. split; [reflexivity|].
  assert (Hplain : forall f, plain (sampleBody f)).
  { intros [|[|[|f]]]; exact I. }
  apply (performSyncTasks_escape_drops sampleBody sampleClock
           (mkState [] [] pending ∅ 3 0) Hplain); [reflexivity|discriminate].
Defined.



(** Callbacks 2 and 1 queued, 2 throwing a [std::exception]: both are
    called, in order, and the tick returns.  Of the two delayed tasks, the
    one that is due is called once and no longer pending, the other is
    pending and not called.  After [delay(100, f1)], the tick at 50 ms
    calls nothing and keeps the task; the tick at 150 ms calls it once. *)
Lemma performSyncTasks_witness :
  (Threading.performSyncTasks standardBody sampleClock mixedPending).2 = Completed
  /\ syncCalls (Threading.performSyncTasks standardBody sampleClock mixedPending).1.2
     = [2%nat; 1%nat]
  /\ (exists before after,
        delayCalls (Threading.performSyncTasks standardBody sampleClock mixedPending).1.2
        = before ++ called (mkDelayOperation 0 100 1%nat 1) :: after
        /\ before `sublist_of` []
        /\ after `sublist_of` [called (mkDelayOperation 0 200 3%nat 2)])
  /\ countWith 1
       (m_delay_tasks (Threading.performSyncTasks standardBody sampleClock mixedPending).1.1)
     = 0%nat
  /\ (exists before after,
        delayCalls (Threading.performSyncTasks standardBody sampleClock mixedPending).1.2
        = before ++ after
        /\ before `sublist_of` [called (mkDelayOperation 0 100 1%nat 1)]
        /\ after `sublist_of` [])
  /\ mkDelayOperation 0 200 3%nat 2
       ∈ m_delay_tasks
           (Threading.performSyncTasks standardBody sampleClock mixedPending).1.1
  /\ (Threading.performSyncTasks standardBody sampleClock scheduled).1.2 = []
  /\ delayCalls (Threading.performSyncTasks standardBody sampleClock
                   (Threading.performSyncTasks standardBody sampleClock scheduled).1.1).1.2
     = [(1, 1%nat)].
Proof.
  destruct (performSyncTasks_contract standardBody sampleClock)
    as (Hsync & Hturns & _ & Hscenario).
  destruct (Hsync standardBody_stdOnly mixedPending) as [Hreturns Hcalled].
  destruct (Hturns standardBody_stdOnly mixedPending
              [] (mkDelayOperation 0 100 1%nat 1) [mkDelayOperation 0 200 3%nat 2]
              eq_refl) as (_ & _ & Hdue).
  destruct (Hdue ltac:(vm_compute; set_solver)) as [Hdue' _].
  destruct (Hdue' ltac:(vm_compute; discriminate)) as [Honce Hgone].
  destruct (Hturns standardBody_stdOnly mixedPending
              [mkDelayOperation 0 100 1%nat 1] (mkDelayOperation 0 200 3%nat 2) []
              eq_refl) as (_ & _ & Hlater).
  destruct (Hlater ltac:(vm_compute; set_solver)) as [_ Hlater'].
  destruct (Hlater' ltac:(vm_compute; reflexivity)) as [Hnot Hkept].
  destruct (Hscenario idle 1%nat 100) as (Hquiet & _ & _ & Hthen).
  - reflexivity.
  - reflexivity.
  - apply not_elem_of_empty.
  - vm_compute. reflexivity.
  - vm_compute. discriminate.
  - split; [exact Hreturns|]. split; [exact Hcalled|]. split; [exact Honce|].
    split; [|split; [exact Hnot|split; [exact Hkept|split; [exact Hquiet|exact Hthen]]]].
    apply Hgone.
    + reflexivity.
    + reflexivity.
    + vm_compute. intros H.
      repeat (apply elem_of_cons in H as [H|H]; [discriminate|]).
      by apply not_elem_of_nil in H.
Defined.

(** C5 as it is stated fails when a callback throws a value that is not a
    [std::exception]: no handler catches it and it leaves
    [performSyncTasks].  With callbacks 0 and 1 queued, only callback 0 is
    called.  With two delayed tasks due, the first of which throws such a
    value, the second is neither called nor enqueued again. *)
Lemma performSyncTasks_counterexample :
  syncCalls (Threading.performSyncTasks sampleBody sampleClock escapingQueue).1.2 = [0%nat]
  /\ (Threading.performSyncTasks sampleBody sampleClock escapingQueue).2 = Escaped
  /\ delayCalls (Threading.performSyncTasks sampleBody sampleClock escapingPending).1.2
     = [(1, 0%nat)]
  /\ m_delay_tasks (Threading.performSyncTasks sampleBody sampleClock escapingPending).1.1
     = []
  /\ ~ (forall body now st,
          syncCalls (Threading.performSyncTasks body now st).1.2 = m_sync_functions st)
  /\ ~ (forall body now st d,
          d ∈ m_delay_tasks st ->
          m_sync_functions st = [] ->
          m_delay_cancel_set st = ∅ ->
          (forall i, CancelRequested i ∉ (Threading.performSyncTasks body now st).1.2) ->
          called d ∈ delayCalls (Threading.performSyncTasks body now st).1.2
          \/ d ∈ m_delay_tasks (Threading.performSyncTasks body now st).1.1).
Proof.
  split; [reflexivity|]. split; [reflexivity|]. split; [reflexivity|].
  split; [reflexivity|]. split.
  - intros H. specialize (H sampleBody sampleClock escapingQueue). discriminate.
  - intros H.
    destruct (H sampleBody sampleClock escapingPending (mkDelayOperation 0 100 1%nat 2))
      as [Hcalled|Hkept].
    + apply list_elem_of_further, list_elem_of_here.
    + reflexivity.
    + reflexivity.
    + intros i Hin. vm_compute in Hin.
      repeat (apply elem_of_cons in Hin as [Hin|Hin]; [discriminate|]).
      by apply not_elem_of_nil in Hin.
    + vm_compute in Hcalled. apply list_elem_of_singleton in Hcalled. discriminate.
    + vm_compute in Hkept. by apply not_elem_of_nil in Hkept.
Qed.

End SchedulerFacts.
